(** * Interactive globe: picking buffer, click/hover controller, detail panel

    A shallow embedding of the [Globe] component (the picking buffer, the
    hover/click controller living in the scene effect, the detail effect keyed
    on [clickedCountry]) and of [CameraView.setupCamera], first as one call
    ([CameraView]), then along the runs of its effect ([CameraFlow]).

    Conventions of the embedding.
    - JavaScript numbers that hold array indices or timer handles are [Z] or
      [nat]; numbers that hold zoom levels, scales and coordinates are
      binary64 floats ([PrimFloat.float]), so [1 + 0.3] rounds as it does in
      the browser.
    - The closure variables of the scene effect and the React state cells form
      one record, [World]; every handler is a function on [World].
    - What the browser decides (how much of a pixel a [Path2D] covers and
      how an anti-aliased edge blends, what a ray hits, what a server answers,
      when a timer or a promise fires) enters through [Env] or through the
      [Event] that is being handled.
    - The scene effect depends on [isDeviceMotionActive]: when that changes
      ([MotionToggled]) the effect is cleaned up and runs again, with fresh
      closure variables, meshes, canvases and [params]. Its cleanup clears
      no timeout, kills no tween and disconnects no observer, so the closure
      of an earlier run stays in [old] and its callbacks still happen (the
      [Old] events), on its own variables and on the React state all runs
      share.
    - [params] is state: the colour controls of the GUI panel write it.
    - Left out, as no property below reads them: the pointer vector, the
      globe's rotation and scale, the device-orientation and resize
      listeners, the fog controls, the lights, and the values a tween passes
      through before it completes. *)

From Stdlib Require Import ZArith Lia Bool List String Floats.
From stdpp Require Import base list strings relations.
Import ListNotations.

Set Warnings "-inexact-float".
Open Scope Z_scope.

(** ** Numbers *)

(** ECMAScript [ToInt32]: the operand conversion of [>>], [<<], [&] and [|]. *)
Definition toInt32 (z : Z) : Z := (z + 2 ^ 31) mod 2 ^ 32 - 2 ^ 31.

Definition js_sar (a n : Z) : Z := Z.shiftr (toInt32 a) (n mod 32).
Definition js_shl (a n : Z) : Z := toInt32 (Z.shiftl (toInt32 a) (n mod 32)).
Definition js_and (a b : Z) : Z := toInt32 (Z.land (toInt32 a) (toInt32 b)).
Definition js_or (a b : Z) : Z := toInt32 (Z.lor (toInt32 a) (toInt32 b)).

(** [Math.floor] followed by the Web IDL conversion to [long] that canvas
    coordinates and sizes go through (NaN and the infinities become 0). *)
Definition floorLong (f : float) : Z :=
  match Prim2SF f with
  | S754_finite s m e =>
      let n := if s then Z.neg m else Z.pos m in
      toInt32 (if 0 <=? e then n * 2 ^ e else n / 2 ^ (- e))
  | _ => 0
  end.

(** [Math.min] and [Math.max] on two numbers: NaN is contagious. *)
Definition is_nan (f : float) : bool := negb (PrimFloat.eqb f f).

Definition Math_min (a b : float) : float :=
  if is_nan a then a else if is_nan b then b
  else if PrimFloat.ltb b a then b else a.

Definition Math_max (a b : float) : float :=
  if is_nan a then a else if is_nan b then b
  else if PrimFloat.ltb a b then b else a.

(** [s || fallback] on strings: the empty string is falsy. *)
Definition str_or (s fallback : string) : string :=
  if String.eqb s "" then fallback else s.

(** ** Data model *)

Record CountryPath := mkPath { d : string; name : string; id : string }.

Record Country := mkCountry { c_name : string; c_id : string }.

(** A texture coordinate returned by the ray cast. *)
Record UV := mkUV { uv_x : float; uv_y : float }.

Record RGB := mkRGB { red : Z; green : Z; blue : Z }.

(** One pixel of [getImageData(..).data]. *)
Record Pixel := mkPixel { px_r : Z; px_g : Z; px_b : Z; px_a : Z }.

(** What the component is given: the geometry that was loaded, the value of
    [isDeviceMotionActive] when the scene effect first runs, the API key, and
    the browser's 2D canvas. The rasteriser is the browser's: [coverage d x y]
    is how much of pixel [(x, y)] a fill of [new Path2D(d)] covers under the
    picking canvas' translation, from [0] (untouched) to [255] (all of it),
    anti-aliased edge pixels lying in between; [blend c a px] is the pixel
    that source-over compositing leaves when colour [c] lands with coverage
    [a], strictly between the two, on a pixel holding [px]. *)
Record Env := mkEnv {
  svgPaths : list CountryPath;
  isDeviceMotionActive : bool;
  apiKey : option string;          (* process.env.NEXT_PUBLIC_GEMINI_API_KEY *)
  context2d : bool;                (* getContext('2d') returned a context *)
  coverage : string -> Z -> Z -> Z;
  blend : RGB -> Z -> Pixel -> Pixel
}.

Definition svgViewBox : Z * Z := (2000, 1000).

Module Params.
Definition strokeColor : string := "#111111".
Definition defaultColor : string := "#9a9591".
Definition hoverColor : string := "#00C9A2".
Definition clickedColor : string := "#ff3366".
Definition strokeWidth : float := 2%float.
Definition hiResScalingFactor : float := 8%float.
Definition lowResScalingFactor : float := 1.5%float.
End Params.

(** ** Picking buffer *)

Definition transparentBlack : Pixel := mkPixel 0 0 0 0.
Definition opaque (c : RGB) : Pixel := mkPixel (red c) (green c) (blue c) 255.

(** The fill style of the country drawn at array index [i]:
    [rgb((i+1) >> 16 & 255, (i+1) >> 8 & 255, (i+1) & 255)]. *)
Definition pickingColor (i : nat) : RGB :=
  let k := Z.of_nat i + 1 in
  mkRGB (js_and (js_sar k 16) 255) (js_and (js_sar k 8) 255) (js_and k 255).

(** The fills issued by the [forEach], in drawing order. *)
Definition pickingFills (E : Env) : list (RGB * string) :=
  imap (fun i p => (pickingColor i, d p)) (svgPaths E).

(** One [ctx.fill] on one pixel, the fill style being opaque: a pixel the
    path does not touch keeps what it holds, a pixel it covers entirely takes
    the fill colour, and an edge pixel takes what the browser blends. *)
Definition fillPixel (E : Env) (x y : Z) (f : RGB * string) (px : Pixel) : Pixel :=
  let a := coverage E (snd f) x y in
  if a <=? 0 then px
  else if 255 <=? a then opaque (fst f)
  else blend E (fst f) a px.

(** Painting the fills one after the other on a pixel. *)
Definition paint (E : Env) (x y : Z) (fills : list (RGB * string)) (start : Pixel) : Pixel :=
  fold_left (fun px f => fillPixel E x y f px) fills start.

(** The picking canvas is [svgViewBox[0]] by [svgViewBox[1]] pixels. *)
Definition onCanvas (x y : Z) : bool :=
  (0 <=? x) && (x <? fst svgViewBox) && (0 <=? y) && (y <? snd svgViewBox).

(** [pickingCtx.getImageData(x, y, 1, 1).data]: pixels outside the canvas read
    as transparent black. *)
Definition getImageData (E : Env) (x y : Z) : Pixel :=
  if onCanvas x y
  then paint E x y (pickingFills E) transparentBlack
  else transparentBlack.

(** [(pixel[0] << 16) | (pixel[1] << 8) | pixel[2]], minus one. *)
Definition decodeIndex (p : Pixel) : Z :=
  js_or (js_or (js_shl (px_r p) 16) (js_shl (px_g p) 8)) (px_b p) - 1.

Definition pixelX (uv : UV) : Z :=
  floorLong (uv_x uv * 2000)%float.

Definition pixelY (uv : UV) : Z :=
  floorLong ((1 - uv_y uv) * 1000)%float.

(** The index [updateMap] computes for a texture coordinate. *)
Definition pickIndex (E : Env) (uv : UV) : Z :=
  decodeIndex (getImageData E (pixelX uv) (pixelY uv)).

(** ** Display canvases and their textures *)

(** What a display canvas holds since it was last cleared: the fills and
    strokes issued, each under the [scale] transform in force. *)
Inductive DrawOp :=
| Fill (fillStyle : string) (scale : float) (path : string)
| Stroke (strokeStyle : string) (lineWidth : float) (scale : float) (path : string).

(** A canvas with the [CanvasTexture] built on it; [version] counts the
    [texture.needsUpdate = true] assignments. *)
Record Canvas := mkCanvas {
  width : Z;
  height : Z;
  ops : list DrawOp;
  version : nat
}.

(** A fresh canvas is 300 by 150; the [CanvasTexture] constructor marks the
    texture for upload once. *)
Definition blankCanvas : Canvas := mkCanvas 300 150 [] 1.

(** [canvas.width = ..; canvas.height = ..; ctx.clearRect(..)]. *)
Definition resized (scale : float) (c : Canvas) : Canvas :=
  mkCanvas (floorLong (2000 * scale)%float) (floorLong (1000 * scale)%float)
           [] (version c).

Definition needsUpdate (c : Canvas) : Canvas :=
  mkCanvas (width c) (height c) (ops c) (S (version c)).

Definition withOps (l : list DrawOp) (c : Canvas) : Canvas :=
  mkCanvas (width c) (height c) l (version c).

Record Textures := mkTextures {
  mapCanvas : Canvas;
  strokesCanvas : Canvas;
  highlightCanvas : Canvas;
  clickCanvas : Canvas
}.

(** ** Tweens and timers *)

Inductive TweenTarget :=
| GlobeGroupScale | GlobeGroupRotation
| SelectionMeshScale | ClickedMeshScale | Camera | NightLightsMaterial.

Inductive TweenCallback :=
| NoCallback
| EnableHover           (* controls 'end': isHoverable = true *)
| ResumeAutoRotate      (* rotateToRegion *)
| HideClickedMesh       (* revertClick *)
| HideSelectionMesh.    (* clearHover *)

Record Tween := mkTween {
  target : TweenTarget;
  vars : list (string * float);
  duration : float;
  ease : option string;      (* [None]: gsap's default ease *)
  onComplete : TweenCallback
}.

Inductive TimerCallback := RevertClick | PrepareHiResTextures.

Record Timer := mkTimer { handle : nat; delay : Z; callback : TimerCallback }.

Definition target_eqb (a b : TweenTarget) : bool :=
  match a, b with
  | GlobeGroupScale, GlobeGroupScale | GlobeGroupRotation, GlobeGroupRotation
  | SelectionMeshScale, SelectionMeshScale | ClickedMeshScale, ClickedMeshScale
  | Camera, Camera | NightLightsMaterial, NightLightsMaterial => true
  | _, _ => false
  end.

(** [gsap.killTweensOf(t)]. *)
Definition killTweensOf (t : TweenTarget) (l : list Tween) : list Tween :=
  List.filter (fun tw => negb (target_eqb (target tw) t)) l.

Definition xyz (v : float) : list (string * float) := [("x", v); ("y", v); ("z", v)].

Record Scheduler := mkScheduler {
  tweens : list Tween;     (* tweens gsap is running, oldest first *)
  timers : list Timer;     (* timeouts that were set and have neither fired nor been cleared *)
  nextHandle : nat;        (* the handle the next setTimeout returns; handles are positive *)
  observing : bool         (* the IntersectionObserver is still connected *)
}.

(** [gsap.to(target, vars)]. *)
Definition gsap_to (tw : Tween) (s : Scheduler) : Scheduler :=
  mkScheduler (tweens s ++ [tw]) (timers s) (nextHandle s) (observing s).

Definition kill (t : TweenTarget) (s : Scheduler) : Scheduler :=
  mkScheduler (killTweensOf t (tweens s)) (timers s) (nextHandle s) (observing s).

Definition clearTimeout (h : nat) (s : Scheduler) : Scheduler :=
  mkScheduler (tweens s) (List.filter (fun t => negb (Nat.eqb (handle t) h)) (timers s))
              (nextHandle s) (observing s).

Definition setTimeout (cb : TimerCallback) (ms : Z) (s : Scheduler) : nat * Scheduler :=
  (nextHandle s,
   mkScheduler (tweens s) (timers s ++ [mkTimer (nextHandle s) ms cb]) (S (nextHandle s))
               (observing s)).

(** ** Closure variables of the scene effect *)

Record Interaction := mkInteraction {
  hoveredCountryIdx : Z;
  clickedCountryIdx : Z;
  clickTimeout : option nat;
  isTouchScreen : bool;
  isHoverable : bool;
  targetZoom : float
}.

Record Meshes := mkMeshes {
  autoRotate : bool;           (* controls.autoRotate *)
  cameraZoom : float;          (* camera.zoom *)
  selectionVisible : bool;     (* globeSelectionOuterMesh.visible *)
  selectionScale : float;      (* globeSelectionOuterMesh.scale, x = y = z *)
  clickedVisible : bool;       (* globeClickedMesh.visible *)
  clickedScale : float         (* globeClickedMesh.scale, x = y = z *)
}.

(** ** React state of the component *)

Record Weather := mkWeather {
  temperature : float; windspeed : float; weathercode : float; w_capital : string
}.

Record Details := mkDetails {
  population : float; region : string; subregion : string;
  currencies : string; languages : string; capital : string
}.

Record Source := mkSource { uri : string; title : string }.

Record Detail := mkDetail {
  weatherData : option Weather;
  countryDetails : option Details;
  isLoadingWeather : bool;
  aiSummary : option string;
  isLoadingSummary : bool;
  groundingSources : list Source
}.

(** One run of the effect on [clickedCountry] that got past the null test: the
    country its closures captured and its [isMounted] variable. *)
Record Run := mkRun { country : Country; isMounted : bool }.

Record React := mkReact {
  countryName : string;
  clickedCountry : option Country;
  detail : Detail;
  runs : list Run;               (* every run so far, by run number *)
  cleanup : option nat;          (* the run whose cleanup React holds *)
  pendingWeather : list nat;     (* runs whose fetchWeather has not settled *)
  pendingSummary : list nat      (* runs whose generateContent has not settled *)
}.

(** The colours of [params], which the GUI panel edits; the other fields of
    [params] that the model reads are never written (see [Params]). *)
Record Colors := mkColors {
  strokeColor : string;
  defaultColor : string;
  hoverColor : string;
  clickedColor : string
}.

Definition initialColors : Colors :=
  mkColors Params.strokeColor Params.defaultColor Params.hoverColor Params.clickedColor.

(** The closure of an earlier run of the scene effect. Its cleanup removed
    its listeners, its ticker callback and its GUI, but cleared no timeout,
    killed no tween, disconnected no observer and disposed of no orbit
    controls: these go on against the closure's own variables, canvases and
    meshes. [s_sched] holds the tweens and timeouts the closure started and
    whether its observer is connected. *)
Record Scene := mkScene {
  s_ix : Interaction;
  s_meshes : Meshes;
  s_tex : Textures;
  s_sched : Scheduler;
  s_colors : Colors;
  s_motion : bool
}.

(** The component: the closure variables, meshes, canvases, [params] and
    captured [isDeviceMotionActive] of the running scene effect, with the
    tweens and timeouts it started; the React state, which all runs share;
    and the closures of the earlier runs of the scene effect, oldest first.
    [nextHandle (sched w)] is the browser's handle counter, shared as well. *)
Record World := mkWorld {
  ix : Interaction;
  meshes : Meshes;
  tex : Textures;
  sched : Scheduler;
  react : React;
  colors : Colors;
  motion : bool;
  old : list Scene
}.

(** How a piece of code ends: normally with a value, or by an uncaught
    [TypeError]; either way the mutations made so far stay. *)
Inductive Completion (S A : Type) :=
| Return (s : S) (a : A)
| Throw (s : S).
Arguments Return {S A} s a.
Arguments Throw {S A} s.

Definition settled {S A} (c : Completion S A) : S :=
  match c with Return s _ => s | Throw s => s end.

Definition with_ix (i : Interaction) (w : World) : World :=
  mkWorld i (meshes w) (tex w) (sched w) (react w) (colors w) (motion w) (old w).
Definition with_meshes (m : Meshes) (w : World) : World :=
  mkWorld (ix w) m (tex w) (sched w) (react w) (colors w) (motion w) (old w).
Definition with_tex (t : Textures) (w : World) : World :=
  mkWorld (ix w) (meshes w) t (sched w) (react w) (colors w) (motion w) (old w).
Definition with_sched (s : Scheduler) (w : World) : World :=
  mkWorld (ix w) (meshes w) (tex w) s (react w) (colors w) (motion w) (old w).
Definition with_react (r : React) (w : World) : World :=
  mkWorld (ix w) (meshes w) (tex w) (sched w) r (colors w) (motion w) (old w).
Definition with_colors (c : Colors) (w : World) : World :=
  mkWorld (ix w) (meshes w) (tex w) (sched w) (react w) c (motion w) (old w).

(** ** The services behind the detail panel *)

(** What [await fetch(..)] and then [res.json()] give: the promise rejects, or
    a response arrives with its [ok] flag and, if the body parses, its JSON. *)
Inductive Fetched (A : Type) :=
| Rejected
| Responded (ok : bool) (body : option A).
Arguments Rejected {A}.
Arguments Responded {A} ok body.

(** The fields of a restcountries entry that [fetchWeather] reads. *)
Record CountryJson := mkCountryJson {
  capitalInfo_latlng : option (float * float);   (* country.capitalInfo.latlng *)
  capital_0 : option string;                     (* country.capital?.[0] *)
  latlng : option (float * float);
  name_common : string;
  cj_population : float;
  cj_region : string;
  cj_subregion : string;
  cj_currencies : option (list string);          (* the [name] of each currency *)
  cj_languages : option (list string)
}.

Record CurrentWeather := mkCurrentWeather {
  cw_temperature : float; cw_windspeed : float; cw_weathercode : float
}.

(** An open-meteo answer; [current_weather] may be missing. *)
Record Forecast := mkForecast { current_weather : option CurrentWeather }.

Record Network := mkNetwork {
  restcountries : string -> Fetched (list CountryJson);   (* by URL *)
  openmeteo : float -> float -> Fetched Forecast          (* by latitude, longitude *)
}.

Inductive Request :=
| GetCountry (url : string)
| GetForecast (lat lng : float).

(** The body of an [async] function up to its last [await]: the requests it
    issued and its value, or [None] when an exception sent it to [catch]. *)
Definition Async (A : Type) : Type := list Request * option A.

Definition ret {A} (a : A) : Async A := ([], Some a).
Definition throw {A} : Async A := ([], None).
Definition bind {A B} (m : Async A) (f : A -> Async B) : Async B :=
  match m with
  | (l, Some a) => let (l', b) := f a in (l ++ l', b)
  | (l, None) => (l, None)
  end.

Notation "'await' x ':=' m 'in' k" := (bind m (fun x => k))
  (at level 10, x name, m at level 100, k at level 200).

Definition fetchCountry (net : Network) (url : string) : Async (bool * option (list CountryJson)) :=
  ([GetCountry url],
   match restcountries net url with
   | Rejected => None
   | Responded ok body => Some (ok, body)
   end).

Definition fetchForecast (net : Network) (lat lng : float) : Async (bool * option Forecast) :=
  ([GetForecast lat lng],
   match openmeteo net lat lng with
   | Rejected => None
   | Responded ok body => Some (ok, body)
   end).

(** [await res.json()]. *)
Definition json {A} (res : bool * option A) : Async A :=
  match snd res with Some a => ret a | None => throw end.

Definition nameFullTextUrl (c : Country) : string :=
  "https://restcountries.com/v3.1/name/" ++ c_name c ++ "?fullText=true".
Definition alphaUrl (c : Country) : string :=
  "https://restcountries.com/v3.1/alpha/" ++ c_id c.
Definition nameUrl (c : Country) : string :=
  "https://restcountries.com/v3.1/name/" ++ c_name c.

(** How the [try] block of [fetchWeather] ends, seen from the state setters. *)
Inductive WeatherOutcome :=
| Loaded (dt : Details) (wx : Weather)
| LoadedDetailsOnly (dt : Details)  (* [weatherData.current_weather] is missing: the
                                       TypeError comes after [setCountryDetails] *)
| Failed.

Definition joinNames (l : option (list string)) : string :=
  match l with Some names => String.concat ", " names | None => "N/A" end.

(** [fetchWeather], for the clicked country [c], against the answers [net]. *)
Definition fetchWeather (net : Network) (c : Country) : Async WeatherOutcome :=
  await countryRes := fetchCountry net (nameFullTextUrl c) in
  await countryRes := (if negb (fst countryRes) && negb (String.eqb (c_id c) "")
                 then fetchCountry net (alphaUrl c) else ret countryRes) in
  await countryRes := (if negb (fst countryRes)
                 then fetchCountry net (nameUrl c) else ret countryRes) in
  if negb (fst countryRes) then throw else
  await countryData := json countryRes in
  match countryData with
  | [] => throw
  | cj :: _ =>
      await loc := match capitalInfo_latlng cj, latlng cj with
             | Some ll, _ =>
                 ret (ll, match capital_0 cj with
                          | Some s => str_or s "Capital" | None => "Capital" end)
             | None, Some ll => ret (ll, name_common cj)
             | None, None => throw
             end in
      await weatherRes := fetchForecast net (fst (fst loc)) (snd (fst loc)) in
      if negb (fst weatherRes) then throw else
      await weatherJson := json weatherRes in
      let dt := mkDetails (cj_population cj) (cj_region cj) (cj_subregion cj)
                          (joinNames (cj_currencies cj)) (joinNames (cj_languages cj))
                          (snd loc) in
      match current_weather weatherJson with
      | Some cw => ret (Loaded dt (mkWeather (cw_temperature cw) (cw_windspeed cw)
                                             (cw_weathercode cw) (snd loc)))
      | None => ret (LoadedDetailsOnly dt)
      end
  end.

Definition weatherOutcome (net : Network) (c : Country) : WeatherOutcome :=
  match snd (fetchWeather net c) with Some o => o | None => Failed end.

Definition weatherRequests (net : Network) (c : Country) : list Request :=
  fst (fetchWeather net c).

(** How [ai.models.generateContent] settles: it throws, or answers with a
    text and, possibly, grounding chunks (whose [web] part may be missing). *)
Inductive AiResult :=
| AiThrew
| AiResponse (text : option string) (groundingChunks : option (list (option Source))).

(** [new Map(sources.map(s => [s.uri, s]))]: a key keeps the place of its
    first insertion and the value of its last. *)
Fixpoint mapSet (k : string) (v : Source) (m : list (string * Source)) : list (string * Source) :=
  match m with
  | [] => [(k, v)]
  | (k', v') :: m' => if String.eqb k' k then (k, v) :: m' else (k', v') :: mapSet k v m'
  end.

Definition uniqueSources (chunks : list (option Source)) : list Source :=
  let sources := omap (fun c => c) chunks in
  List.map snd (fold_left (fun m s => mapSet (uri s) s m) sources []).

(** ** The effect on [clickedCountry] *)

Definition with_detail (dt : Detail) (r : React) : React :=
  mkReact (countryName r) (clickedCountry r) dt (runs r) (cleanup r)
          (pendingWeather r) (pendingSummary r).

(** [setWeatherData(null); setCountryDetails(null); setAiSummary(null);
    setGroundingSources([])]. *)
Definition resetDetail (dt : Detail) : Detail :=
  mkDetail None None (isLoadingWeather dt) None (isLoadingSummary dt) [].

Definition setLoading (wx ai : bool) (dt : Detail) : Detail :=
  mkDetail (weatherData dt) (countryDetails dt) wx (aiSummary dt) ai (groundingSources dt).

Definition setIsLoadingWeather (b : bool) (dt : Detail) : Detail :=
  mkDetail (weatherData dt) (countryDetails dt) b (aiSummary dt)
           (isLoadingSummary dt) (groundingSources dt).

Definition setIsLoadingSummary (b : bool) (dt : Detail) : Detail :=
  mkDetail (weatherData dt) (countryDetails dt) (isLoadingWeather dt) (aiSummary dt)
           b (groundingSources dt).

Definition setAiSummary (t : string) (dt : Detail) : Detail :=
  mkDetail (weatherData dt) (countryDetails dt) (isLoadingWeather dt) (Some t)
           (isLoadingSummary dt) (groundingSources dt).

Definition setGroundingSources (l : list Source) (dt : Detail) : Detail :=
  mkDetail (weatherData dt) (countryDetails dt) (isLoadingWeather dt) (aiSummary dt)
           (isLoadingSummary dt) l.

Definition setCountryDetails (x : Details) (dt : Detail) : Detail :=
  mkDetail (weatherData dt) (Some x) (isLoadingWeather dt) (aiSummary dt)
           (isLoadingSummary dt) (groundingSources dt).

Definition setWeatherData (x : Weather) (dt : Detail) : Detail :=
  mkDetail (Some x) (countryDetails dt) (isLoadingWeather dt) (aiSummary dt)
           (isLoadingSummary dt) (groundingSources dt).

(** Reading the [isMounted] variable of run [k]. *)
Definition mounted (k : nat) (r : React) : bool :=
  match runs r !! k with Some run => isMounted run | None => false end.

(** The cleanup returned by a run: [isMounted = false]. *)
Definition unmount (run : Run) : Run := mkRun (country run) false.

Definition keyMissing (E : Env) : bool :=
  match apiKey E with Some k => String.eqb k "" | None => true end.

(** [fetchSummary] up to its first [await], called from run [k]: without a
    key it sets the fallback and returns; otherwise the request is in flight. *)
Definition fetchSummary_start (E : Env) (k : nat) (r : React) : React :=
  if keyMissing E then
    if mounted k r
    then with_detail (setIsLoadingSummary false
                        (setAiSummary "Gemini API key not configured." (detail r))) r
    else r
  else mkReact (countryName r) (clickedCountry r) (detail r) (runs r) (cleanup r)
               (pendingWeather r) (pendingSummary r ++ [k]).

(** [fetchWeather] up to its first [await]: the first request is in flight. *)
Definition fetchWeather_start (k : nat) (r : React) : React :=
  mkReact (countryName r) (clickedCountry r) (detail r) (runs r) (cleanup r)
          (pendingWeather r ++ [k]) (pendingSummary r).

(** React re-runs the effect: the cleanup of the previous run first, then the
    body, whose returned cleanup (if any) is kept for the next time. *)
Definition detailEffect (E : Env) (r : React) : React :=
  let runs1 := match cleanup r with
               | Some k => alter unmount k (runs r)
               | None => runs r
               end in
  match clickedCountry r with
  | None =>
      mkReact (countryName r) None (resetDetail (detail r)) runs1 None
              (pendingWeather r) (pendingSummary r)
  | Some c =>
      let k := length runs1 in
      let r1 := mkReact (countryName r) (Some c)
                        (resetDetail (setLoading true true (detail r)))
                        (runs1 ++ [mkRun c true]) (Some k)
                        (pendingWeather r) (pendingSummary r) in
      fetchSummary_start E k (fetchWeather_start k r1)
  end.

(** [setClickedCountry(v)]. A [null] over a [null] is the same value to React
    and nothing re-renders; an object literal is always a new value. The effect
    is run here, at the call, rather than after the handler has returned and
    the component has re-rendered: what a handler does after the call touches
    the closure variables only. *)
Definition setClickedCountry (E : Env) (v : option Country) (r : React) : React :=
  match v, clickedCountry r with
  | None, None => r
  | _, _ =>
      detailEffect E (mkReact (countryName r) v (detail r) (runs r) (cleanup r)
                              (pendingWeather r) (pendingSummary r))
  end.

Definition setCountryName (n : string) (r : React) : React :=
  mkReact n (clickedCountry r) (detail r) (runs r) (cleanup r)
          (pendingWeather r) (pendingSummary r).

(** The continuation of [fetchWeather] in run [k], once its awaits are over. *)
Definition applyWeather (o : WeatherOutcome) (k : nat) (r : React) : React :=
  match o with
  | Loaded dt wx =>
      if mounted k r
      then with_detail (setIsLoadingWeather false
                          (setWeatherData wx (setCountryDetails dt (detail r)))) r
      else r
  | LoadedDetailsOnly dt =>
      if mounted k r
      then with_detail (setIsLoadingWeather false (setCountryDetails dt (detail r))) r
      else r
  | Failed =>
      if mounted k r then with_detail (setIsLoadingWeather false (detail r)) r else r
  end.

(** The continuation of [fetchSummary] in run [k] after [generateContent]. *)
Definition applySummary (a : AiResult) (k : nat) (r : React) : React :=
  match a with
  | AiResponse text chunks =>
      if mounted k r
      then
        let dt1 := setAiSummary
                     (match text with
                      | Some t => str_or t "No summary available."
                      | None => "No summary available."
                      end) (detail r) in
        let dt2 := match chunks with
                   | Some l => setGroundingSources (uniqueSources l) dt1
                   | None => dt1
                   end in
        with_detail (setIsLoadingSummary false dt2) r
      else r
  | AiThrew =>
      if mounted k r
      then with_detail (setIsLoadingSummary false
                          (setAiSummary "Failed to load summary." (detail r))) r
      else r
  end.

Definition remove_nat (k : nat) (l : list nat) : list nat :=
  List.filter (fun j => negb (Nat.eqb j k)) l.

Definition member (k : nat) (l : list nat) : bool := existsb (Nat.eqb k) l.

(** The promise of run [k]'s [fetchWeather] settles, the services having
    answered as [net] says. A run that has nothing in flight has no
    continuation to run. *)
Definition weatherSettled (net : Network) (k : nat) (r : React) : React :=
  match runs r !! k with
  | Some run =>
      if member k (pendingWeather r)
      then applyWeather (weatherOutcome net (country run)) k
             (mkReact (countryName r) (clickedCountry r) (detail r) (runs r) (cleanup r)
                      (remove_nat k (pendingWeather r)) (pendingSummary r))
      else r
  | None => r
  end.

Definition summarySettled (a : AiResult) (k : nat) (r : React) : React :=
  if member k (pendingSummary r)
  then applySummary a k
         (mkReact (countryName r) (clickedCountry r) (detail r) (runs r) (cleanup r)
                  (pendingWeather r) (remove_nat k (pendingSummary r)))
  else r.

Arguments setClickedCountry : simpl never.
Arguments setCountryName : simpl never.
Arguments weatherSettled : simpl never.
Arguments summarySettled : simpl never.

(** ** Drawing *)

(** [svgPaths[idx]]: [undefined] outside the array. *)
Definition pathAt (E : Env) (idx : Z) : option CountryPath :=
  if idx <? 0 then None else svgPaths E !! Z.to_nat idx.

Definition inRange (E : Env) (index : Z) : bool :=
  (0 <=? index) && (index <? Z.of_nat (length (svgPaths E))).

(** [drawMap(canvas, ctx, scale, isStrokesOnly)]. *)
Definition drawMap (E : Env) (cs : Colors) (scale : float) (isStrokesOnly : bool)
    (c : Canvas) : Canvas :=
  if negb (context2d E) then c else
  withOps (flat_map (fun p =>
             (if isStrokesOnly then [] else [Fill (defaultColor cs) scale (d p)])
             ++ [Stroke (strokeColor cs) Params.strokeWidth scale (d p)])
           (svgPaths E))
          (resized scale c).

(** [drawCountry(canvas, ctx, texture, index, color, scale, strokeMultiplier)]. *)
Definition drawCountry (E : Env) (cs : Colors) (index : Z) (color : string)
    (scale strokeMultiplier : float) (c : Canvas) : Completion Canvas unit :=
  if negb (context2d E) then Return c tt else
  let c1 := resized scale c in
  if index =? -1 then Return (needsUpdate c1) tt else
  match pathAt E index with
  | None => Throw c1
  | Some p =>
      let strokeStyle := if PrimFloat.ltb 1 strokeMultiplier
                         then clickedColor cs else strokeColor cs in
      Return (needsUpdate
                (withOps [Fill color scale (d p);
                          Stroke strokeStyle (Params.strokeWidth * strokeMultiplier)%float
                                 scale (d p)] c1)) tt
  end.

Definition with_highlight (c : Canvas) (t : Textures) : Textures :=
  mkTextures (mapCanvas t) (strokesCanvas t) c (clickCanvas t).
Definition with_click (c : Canvas) (t : Textures) : Textures :=
  mkTextures (mapCanvas t) (strokesCanvas t) (highlightCanvas t) c.

Definition prepareInitialTextures (E : Env) (cs : Colors) (t : Textures) : Textures :=
  mkTextures (needsUpdate (drawMap E cs 1 false (mapCanvas t)))
             (needsUpdate (drawMap E cs 1 true (strokesCanvas t)))
             (highlightCanvas t) (clickCanvas t).

Definition prepareHiResTextures (E : Env) (w : World) : World :=
  let t := tex w in
  let t' := mkTextures
              (needsUpdate (drawMap E (colors w) Params.hiResScalingFactor false
                                    (mapCanvas t)))
              (needsUpdate (drawMap E (colors w) Params.hiResScalingFactor true
                                    (strokesCanvas t)))
              (highlightCanvas t) (clickCanvas t) in
  let n := if hoveredCountryIdx (ix w) =? -1 then ""
           else match pathAt E (hoveredCountryIdx (ix w)) with
                | Some p => str_or (name p) ""
                | None => ""
                end in
  with_react (setCountryName n (react w)) (with_tex t' w).

(** ** Click handling *)

Definition cameraTween (zoom dur : float) (e : string) : Tween :=
  mkTween Camera [("zoom", zoom)] dur (Some e) NoCallback.

(** [handleCountryClick(idx)]. *)
Definition handleCountryClick (E : Env) (idx : Z) (w : World) : Completion World unit :=
  if clickedCountryIdx (ix w) =? idx then Return w tt else
  let i0 := ix w in
  let w1 := with_ix (mkInteraction (hoveredCountryIdx i0) idx (clickTimeout i0)
                                   (isTouchScreen i0) (isHoverable i0) (targetZoom i0)) w in
  match pathAt E idx with
  | None => Throw w1
  | Some p =>
      let w2 := with_react
                  (setClickedCountry E (Some (mkCountry (str_or (name p) "") (str_or (id p) "")))
                                     (react w1)) w1 in
      match drawCountry E (colors w2) idx (hoverColor (colors w2))
                        Params.lowResScalingFactor 4 (clickCanvas (tex w2)) with
      | Throw c => Throw (with_tex (with_click c (tex w2)) w2)
      | Return c _ =>
          let w3 := with_tex (with_click c (tex w2)) w2 in
          let m := meshes w3 in
          let s1 := gsap_to (mkTween ClickedMeshScale (xyz 1.02) 0.5 (Some "back.out(1.5)") NoCallback)
                            (kill ClickedMeshScale (sched w3)) in
          let s2 := gsap_to (cameraTween 1.5 0.8 "power2.out") s1 in
          let s3 := match clickTimeout (ix w3) with
                    | Some h => clearTimeout h s2
                    | None => s2
                    end in
          let (h', s4) := setTimeout RevertClick 3000 s3 in
          Return
            (mkWorld
               (mkInteraction (hoveredCountryIdx (ix w3)) idx (Some h')
                              (isTouchScreen (ix w3)) (isHoverable (ix w3)) 1.5)
               (mkMeshes (if negb (motion w3) then false else autoRotate m)
                         (cameraZoom m) (selectionVisible m) (selectionScale m)
                         true 1)
               (tex w3) s4 (react w3) (colors w3) (motion w3) (old w3))
            tt
      end
  end.

(** [revertClick()]. *)
Definition revertClick (E : Env) (w : World) : World :=
  if clickedCountryIdx (ix w) =? -1 then w else
  let i0 := ix w in
  let m := meshes w in
  mkWorld
    (mkInteraction (hoveredCountryIdx i0) (-1) (clickTimeout i0)
                   (isTouchScreen i0) (isHoverable i0) 1)
    (mkMeshes (if negb (motion w) then true else autoRotate m)
              (cameraZoom m) (selectionVisible m) (selectionScale m)
              (clickedVisible m) (clickedScale m))
    (tex w)
    (gsap_to (cameraTween 1 0.8 "power2.inOut")
       (gsap_to (mkTween ClickedMeshScale (xyz 1) 0.5 None HideClickedMesh)
                (sched w)))
    (setClickedCountry E None (react w))
    (colors w) (motion w) (old w).

(** ** Hover handling *)

(** [updateMap(uv, isClick)]. *)
Definition updateMap (E : Env) (uv : UV) (isClick : bool) (w : World) : Completion World bool :=
  if negb (context2d E) then Return w false else
  let index := pickIndex E uv in
  if inRange E index then
    if isClick then
      match handleCountryClick E index w with
      | Return w' _ => Return w' true
      | Throw w' => Throw w'
      end
    else if negb (index =? hoveredCountryIdx (ix w)) then
      let i0 := ix w in
      let m := meshes w in
      let w1 := mkWorld
                  (mkInteraction index (clickedCountryIdx i0) (clickTimeout i0)
                                 (isTouchScreen i0) (isHoverable i0) (targetZoom i0))
                  (mkMeshes (autoRotate m) (cameraZoom m) true (selectionScale m)
                            (clickedVisible m) (clickedScale m))
                  (tex w) (sched w) (react w) (colors w) (motion w) (old w) in
      match drawCountry E (colors w1) index (hoverColor (colors w1))
                        Params.lowResScalingFactor 1 (highlightCanvas (tex w1)) with
      | Throw c => Throw (with_tex (with_highlight c (tex w1)) w1)
      | Return c _ =>
          let w2 := with_tex (with_highlight c (tex w1)) w1 in
          match pathAt E index with
          | None => Throw w2
          | Some p =>
              let w3 := with_react (setCountryName (str_or (name p) "") (react w2)) w2 in
              let m3 := meshes w3 in
              Return
                (with_sched
                   (gsap_to (mkTween SelectionMeshScale (xyz 1.015) 0.4 (Some "back.out(1.5)") NoCallback)
                            (kill SelectionMeshScale (sched w3)))
                   (with_meshes
                      (mkMeshes (autoRotate m3) (cameraZoom m3) (selectionVisible m3) 1
                                (clickedVisible m3) (clickedScale m3)) w3))
                true
          end
      end
    else Return w true
  else Return w false.

(** [clearHover()]. *)
Definition clearHover (w : World) : World :=
  if negb (hoveredCountryIdx (ix w) =? -1) then
    let i0 := ix w in
    mkWorld
      (mkInteraction (-1) (clickedCountryIdx i0) (clickTimeout i0)
                     (isTouchScreen i0) (isHoverable i0) (targetZoom i0))
      (meshes w) (tex w)
      (gsap_to (mkTween SelectionMeshScale (xyz 1) 0.3 None HideSelectionMesh) (sched w))
      (setCountryName "" (react w))
      (colors w) (motion w) (old w)
  else w.

Definition setHoverable (b : bool) (w : World) : World :=
  let i0 := ix w in
  with_ix (mkInteraction (hoveredCountryIdx i0) (clickedCountryIdx i0) (clickTimeout i0)
                         (isTouchScreen i0) b (targetZoom i0)) w.

(** [render()], the per-frame tick; [hit] is the texture coordinate of the
    first intersection of the pointer ray with the stroke mesh, if any. *)
Definition render (E : Env) (hit : option UV) (w : World) : Completion World unit :=
  let hovered :=
    if isHoverable (ix w) then
      match hit with
      | Some uv =>
          match updateMap E uv false w with
          | Return w' isHoveringCountry =>
              Return (if negb isHoveringCountry then clearHover w' else w') tt
          | Throw w' => Throw w'
          end
      | None => Return (clearHover w) tt
      end
    else Return w tt in
  match hovered with
  | Return w' _ =>
      Return (if isTouchScreen (ix w') && isHoverable (ix w')
              then setHoverable false w' else w') tt
  | Throw w' => Throw w'
  end.

(** [handleClick(e)], with the result of its ray cast. *)
Definition handleClick (E : Env) (hit : option UV) (w : World) : Completion World unit :=
  match hit with
  | Some uv =>
      match updateMap E uv true w with
      | Return w' clicked => Return (if negb clicked then revertClick E w' else w') tt
      | Throw w' => Throw w'
      end
  | None => Return (revertClick E w) tt
  end.

(** [handleWheel(e)]. *)
Definition handleWheel (deltaY : float) (w : World) : World :=
  let zoomDelta := if PrimFloat.ltb 0 deltaY then (-0.3)%float else 0.3%float in
  let z := Math_max 0.8 (Math_min 3 (targetZoom (ix w) + zoomDelta)%float) in
  let i0 := ix w in
  with_sched (gsap_to (cameraTween z 0.5 "power2.out") (sched w))
    (with_ix (mkInteraction (hoveredCountryIdx i0) (clickedCountryIdx i0) (clickTimeout i0)
                            (isTouchScreen i0) (isHoverable i0) z) w).

Definition handleTouchStart (w : World) : World :=
  let i0 := ix w in
  with_ix (mkInteraction (hoveredCountryIdx i0) (clickedCountryIdx i0) (clickTimeout i0)
                         true (isHoverable i0) (targetZoom i0)) w.

(** The listeners on the orbit controls' [start] and [end]. *)
Definition controlsStart (w : World) : World :=
  with_sched (gsap_to (mkTween GlobeGroupScale (xyz 0.9) 0.3 (Some "power1.inOut") NoCallback) (sched w))
             (setHoverable false w).

Definition controlsEnd (w : World) : World :=
  with_sched (gsap_to (mkTween GlobeGroupScale (xyz 1) 0.6 (Some "back(1.7).out") EnableHover) (sched w)) w.

Definition setAutoRotate (b : bool) (w : World) : World :=
  let m := meshes w in
  with_meshes (mkMeshes b (cameraZoom m) (selectionVisible m) (selectionScale m)
                        (clickedVisible m) (clickedScale m)) w.

(** [window.rotateToRegion(rotX, rotY)]. *)
Definition rotateToRegion (E : Env) (rotX rotY : float) (w : World) : World :=
  if motion w then w else
  with_sched (gsap_to (mkTween GlobeGroupRotation [("x", rotX); ("y", rotY)] 1.5
                               (Some "power2.inOut") ResumeAutoRotate) (sched w))
             (setAutoRotate false w).

(** ** Tweens completing, timers firing *)

Fixpoint assoc (k : string) (l : list (string * float)) : option float :=
  match l with
  | [] => None
  | (k', v) :: l' => if String.eqb k' k then Some v else assoc k l'
  end.

(** A tween reaches its end: the property takes its final value. Of the
    animated objects only the two ring meshes and the camera zoom are state of
    this model. *)
Definition arrive (tw : Tween) (m : Meshes) : Meshes :=
  match target tw with
  | SelectionMeshScale =>
      mkMeshes (autoRotate m) (cameraZoom m) (selectionVisible m)
               (default (selectionScale m) (assoc "x" (vars tw)))
               (clickedVisible m) (clickedScale m)
  | ClickedMeshScale =>
      mkMeshes (autoRotate m) (cameraZoom m) (selectionVisible m) (selectionScale m)
               (clickedVisible m) (default (clickedScale m) (assoc "x" (vars tw)))
  | Camera =>
      mkMeshes (autoRotate m) (default (cameraZoom m) (assoc "zoom" (vars tw)))
               (selectionVisible m) (selectionScale m) (clickedVisible m) (clickedScale m)
  | _ => m
  end.

Definition runTweenCallback (E : Env) (cb : TweenCallback) (w : World) : World :=
  match cb with
  | NoCallback => w
  | EnableHover => setHoverable true w
  | ResumeAutoRotate =>
      if negb (motion w) && (clickedCountryIdx (ix w) =? -1)
      then setAutoRotate true w else w
  | HideClickedMesh =>
      if clickedCountryIdx (ix w) =? -1 then
        let m := meshes w in
        with_meshes (mkMeshes (autoRotate m) (cameraZoom m) (selectionVisible m)
                              (selectionScale m) false (clickedScale m)) w
      else w
  | HideSelectionMesh =>
      if hoveredCountryIdx (ix w) =? -1 then
        let m := meshes w in
        let w1 := with_meshes (mkMeshes (autoRotate m) (cameraZoom m) false
                                        (selectionScale m) (clickedVisible m)
                                        (clickedScale m)) w in
        with_tex (with_highlight
                    (settled (drawCountry E (colors w1) (-1) "" 1 1
                                          (highlightCanvas (tex w1))))
                    (tex w1)) w1
      else w
  end.

(** The [n]-th running tween completes. *)
Definition tweenCompleted (E : Env) (n : nat) (w : World) : World :=
  match tweens (sched w) !! n with
  | None => w
  | Some tw =>
      let s := sched w in
      let w1 := with_sched (mkScheduler (delete n (tweens s)) (timers s) (nextHandle s)
                                        (observing s)) w in
      runTweenCallback E (onComplete tw) (with_meshes (arrive tw (meshes w1)) w1)
  end.

(** The timeout with handle [h] fires, if it is still set. *)
Definition timerFired (E : Env) (h : nat) (w : World) : World :=
  match List.find (fun t => Nat.eqb (handle t) h) (timers (sched w)) with
  | None => w
  | Some t =>
      let w1 := with_sched (clearTimeout h (sched w)) w in
      match callback t with
      | RevertClick => revertClick E w1
      | PrepareHiResTextures => prepareHiResTextures E w1
      end
  end.

(** The intersection observer reports the container visible: it schedules the
    high-resolution pass and disconnects. *)
Definition becameVisible (w : World) : World :=
  if observing (sched w) then
    let (_, s) := setTimeout PrepareHiResTextures 300 (sched w) in
    with_sched (mkScheduler (tweens s) (timers s) (nextHandle s) false) w
  else w.

(** ** The GUI panel *)

(** lil-gui writes the field of [params], then calls the control's
    [onChange]. The stroke and the default colour controls share
    [prepareHiResTextures] as their handler. *)
Definition guiStrokeColor (E : Env) (v : string) (w : World) : World :=
  let cs := colors w in
  prepareHiResTextures E
    (with_colors (mkColors v (defaultColor cs) (hoverColor cs) (clickedColor cs)) w).

Definition guiDefaultColor (E : Env) (v : string) (w : World) : World :=
  let cs := colors w in
  prepareHiResTextures E
    (with_colors (mkColors (strokeColor cs) v (hoverColor cs) (clickedColor cs)) w).

(** The two redraws of the hover colour control's handler. *)
Definition redrawHighlight (E : Env) (w : World) : Completion World unit :=
  match drawCountry E (colors w) (hoveredCountryIdx (ix w)) (hoverColor (colors w))
                    Params.lowResScalingFactor 1 (highlightCanvas (tex w)) with
  | Return c _ => Return (with_tex (with_highlight c (tex w)) w) tt
  | Throw c => Throw (with_tex (with_highlight c (tex w)) w)
  end.

Definition redrawClick (E : Env) (w : World) : Completion World unit :=
  match drawCountry E (colors w) (clickedCountryIdx (ix w)) (hoverColor (colors w))
                    Params.lowResScalingFactor 4 (clickCanvas (tex w)) with
  | Return c _ => Return (with_tex (with_click c (tex w)) w) tt
  | Throw c => Throw (with_tex (with_click c (tex w)) w)
  end.

Definition guiHoverColor (E : Env) (v : string) (w : World) : Completion World unit :=
  let cs := colors w in
  let w1 := with_colors (mkColors (strokeColor cs) (defaultColor cs) v (clickedColor cs)) w in
  match (if negb (hoveredCountryIdx (ix w1) =? -1) then redrawHighlight E w1
         else Return w1 tt) with
  | Return w2 _ =>
      if negb (clickedCountryIdx (ix w2) =? -1) then redrawClick E w2 else Return w2 tt
  | Throw w2 => Throw w2
  end.

(** The clicked colour control has no [onChange]. *)
Definition guiClickedColor (v : string) (w : World) : World :=
  let cs := colors w in
  with_colors (mkColors (strokeColor cs) (defaultColor cs) (hoverColor cs) v) w.

Definition guiNightLights (v : bool) (w : World) : World :=
  with_sched (gsap_to (mkTween NightLightsMaterial
                               [("opacity", if v then 0.8%float else 0%float)] 1 None
                               NoCallback) (sched w)) w.

(** ** The scene effect running again *)

Definition sceneOf (w : World) : Scene :=
  mkScene (ix w) (meshes w) (tex w) (sched w) (colors w) (motion w).

Definition initialDetail : Detail := mkDetail None None false None false [].

(** The body of the scene effect, run with [isDeviceMotionActive = dm]:
    fresh closure variables, meshes, canvases and [params], the initial
    textures drawn, a new observer connected. React's state [r] and the
    browser's handle counter [next] are what they are by then. *)
Definition mount (E : Env) (dm : bool) (next : nat) (r : React) (olds : list Scene) : World :=
  mkWorld
    (mkInteraction (-1) (-1) None false true 1)
    (mkMeshes (negb dm) 1 true 1 false 1)
    (prepareInitialTextures E initialColors
       (mkTextures blankCanvas blankCanvas blankCanvas blankCanvas))
    (mkScheduler [] [] next true)
    r initialColors dm olds.

(** [setIsDeviceMotionActive] changes the state (the compass button):
    the scene effect is cleaned up and runs again. What the cleanup leaves
    alive of the closure goes on in [old]. *)
Definition motionToggled (E : Env) (w : World) : World :=
  mount E (negb (motion w)) (nextHandle (sched w)) (react w) (old w ++ [sceneOf w]).

(** A callback of the [k]-th earlier closure runs ([f], one of the handlers
    above): it sees the closure's own variables, the shared React state and
    the browser's handle counter. *)
Definition inOld (k : nat) (f : World -> World) (w : World) : World :=
  match old w !! k with
  | None => w
  | Some sc =>
      let s := s_sched sc in
      let w1 := f (mkWorld (s_ix sc) (s_meshes sc) (s_tex sc)
                           (mkScheduler (tweens s) (timers s) (nextHandle (sched w))
                                        (observing s))
                           (react w) (s_colors sc) (s_motion sc) []) in
      mkWorld (ix w) (meshes w) (tex w)
              (mkScheduler (tweens (sched w)) (timers (sched w)) (nextHandle (sched w1))
                           (observing (sched w)))
              (react w1) (colors w) (motion w) (<[k := sceneOf w1]> (old w))
  end.

(** ** The component as a transition system *)

(** What can happen to the component. The first ten events reach the running
    scene effect; the GUI events are changes of its panel's controls;
    [MotionToggled] is a change of [isDeviceMotionActive]; the [Old] events
    are what still reaches the closure of an earlier run: its timeouts, its
    tweens, its observer and its orbit controls. *)
Inductive Event :=
| Click (hit : option UV)
| Frame (hit : option UV)
| Wheel (deltaY : float)
| TouchStart
| ControlsStart
| ControlsEnd
| RegionButton (rotX rotY : float)
| Visible
| TimerFired (h : nat)
| TweenCompleted (n : nat)
| WeatherSettled (k : nat) (net : Network)
| SummarySettled (k : nat) (a : AiResult)
| GuiStrokeColor (v : string)
| GuiDefaultColor (v : string)
| GuiHoverColor (v : string)
| GuiClickedColor (v : string)
| GuiNightLights (v : bool)
| MotionToggled
| OldTimerFired (k h : nat)
| OldTweenCompleted (k n : nat)
| OldVisible (k : nat)
| OldControlsStart (k : nat)
| OldControlsEnd (k : nat).

(** An uncaught exception ends the handler and is reported by the browser;
    the event loop goes on from the state the handler left. *)
Definition step (E : Env) (ev : Event) (w : World) : World :=
  match ev with
  | Click hit => settled (handleClick E hit w)
  | Frame hit => settled (render E hit w)
  | Wheel deltaY => handleWheel deltaY w
  | TouchStart => handleTouchStart w
  | ControlsStart => controlsStart w
  | ControlsEnd => controlsEnd w
  | RegionButton rotX rotY => rotateToRegion E rotX rotY w
  | Visible => becameVisible w
  | TimerFired h => timerFired E h w
  | TweenCompleted n => tweenCompleted E n w
  | WeatherSettled k net => with_react (weatherSettled net k (react w)) w
  | SummarySettled k a => with_react (summarySettled a k (react w)) w
  | GuiStrokeColor v => guiStrokeColor E v w
  | GuiDefaultColor v => guiDefaultColor E v w
  | GuiHoverColor v => settled (guiHoverColor E v w)
  | GuiClickedColor v => guiClickedColor v w
  | GuiNightLights v => guiNightLights v w
  | MotionToggled => motionToggled E w
  | OldTimerFired k h => inOld k (timerFired E h) w
  | OldTweenCompleted k n => inOld k (tweenCompleted E n) w
  | OldVisible k => inOld k becameVisible w
  | OldControlsStart k => inOld k controlsStart w
  | OldControlsEnd k => inOld k controlsEnd w
  end.

Definition run (E : Env) (evs : list Event) (w : World) : World :=
  fold_left (fun w ev => step E ev w) evs w.

(** The component after the geometry has loaded and the scene effect has run
    for the first time. *)
Definition init (E : Env) : World :=
  mount E (isDeviceMotionActive E) 1 (mkReact "" None initialDetail [] None [] []) [].

Definition reachable (E : Env) (w : World) : Prop :=
  exists evs, w = run E evs (init E).

(** ** The values of the zoom target *)

(** The set of values [targetZoom] can take: the closure of [{1}] under the
    two wheel steps and the two assignments ([1.5] on a click, [1] on a
    revert), computed to a fixed point. *)
Definition wheelTarget (z zoomDelta : float) : float :=
  Math_max 0.8 (Math_min 3 (z + zoomDelta)%float).

Definition memf (z : float) (l : list float) : bool :=
  existsb (PrimFloat.Leibniz.eqb z) l.

Definition addf (z : float) (l : list float) : list float :=
  if memf z l then l else l ++ [z].

Definition zoomSuccessors (z : float) : list float :=
  [wheelTarget z 0.3; wheelTarget z (-0.3); 1.5%float; 1%float].

Fixpoint zoomClosure (fuel : nat) (l : list float) : list float :=
  match fuel with
  | O => l
  | S n => zoomClosure n (fold_left (fun acc z => fold_right addf acc (zoomSuccessors z)) l l)
  end.

Definition zoomValues : list float := Eval vm_compute in zoomClosure 24 [1%float].

Definition zoomInBounds (z : float) : bool :=
  PrimFloat.leb 0.8 z && PrimFloat.leb z 3.

(** ** Views used in the statements *)

Definition isRevert (t : Timer) : bool :=
  match callback t with RevertClick => true | PrepareHiResTextures => false end.

(** The pending timeouts that will revert the click. *)
Definition revertTimers (w : World) : list Timer := List.filter isRevert (timers (sched w)).

(** The running tweens that animate [t]. *)
Definition tweensOf (t : TweenTarget) (w : World) : list Tween :=
  List.filter (fun tw => target_eqb (target tw) t) (tweens (sched w)).

(** The detail state right after a selection: everything cleared, both
    requests loading, or, without an API key, the summary already settled on
    its fallback. *)
Definition freshDetail (E : Env) : Detail :=
  if keyMissing E
  then mkDetail None None true (Some "Gemini API key not configured.") false []
  else mkDetail None None true None true [].

(** What the detail panel shows of a weather outcome. *)
Definition shownDetails (o : WeatherOutcome) : option Details :=
  match o with Loaded dt _ | LoadedDetailsOnly dt => Some dt | Failed => None end.

Definition shownWeather (o : WeatherOutcome) : option Weather :=
  match o with Loaded _ wx => Some wx | _ => None end.

(** What the two continuations write into the detail state when their run
    is still mounted. *)
Definition weatherPart (o : WeatherOutcome) (dt : Detail) : Detail :=
  match o with
  | Loaded x wx => setIsLoadingWeather false (setWeatherData wx (setCountryDetails x dt))
  | LoadedDetailsOnly x => setIsLoadingWeather false (setCountryDetails x dt)
  | Failed => setIsLoadingWeather false dt
  end.

Definition summaryPart (a : AiResult) (dt : Detail) : Detail :=
  match a with
  | AiResponse text chunks =>
      let dt1 := setAiSummary (match text with
                               | Some t => str_or t "No summary available."
                               | None => "No summary available."
                               end) dt in
      setIsLoadingSummary false
        (match chunks with Some l => setGroundingSources (uniqueSources l) dt1 | None => dt1 end)
  | AiThrew => setIsLoadingSummary false (setAiSummary "Failed to load summary." dt)
  end.

(** The world after [handleCountryClick(idx)] has gone through, for an [idx]
    that is not the clicked one and whose path is [p]. *)
Definition clickedWorld (E : Env) (idx : Z) (p : CountryPath) (w : World) : World :=
  let s := sched w in
  let s1 := gsap_to (cameraTween 1.5 0.8 "power2.out")
              (gsap_to (mkTween ClickedMeshScale (xyz 1.02) 0.5 (Some "back.out(1.5)") NoCallback)
                       (kill ClickedMeshScale s)) in
  let s2 := match clickTimeout (ix w) with Some h => clearTimeout h s1 | None => s1 end in
  mkWorld
    (mkInteraction (hoveredCountryIdx (ix w)) idx (Some (nextHandle s))
                   (isTouchScreen (ix w)) (isHoverable (ix w)) 1.5)
    (mkMeshes (if negb (motion w) then false else autoRotate (meshes w))
              (cameraZoom (meshes w)) (selectionVisible (meshes w))
              (selectionScale (meshes w)) true 1)
    (with_click
       (if context2d E
        then needsUpdate
               (withOps [Fill (hoverColor (colors w)) Params.lowResScalingFactor (d p);
                         Stroke (clickedColor (colors w)) (Params.strokeWidth * 4)%float
                                Params.lowResScalingFactor (d p)]
                        (resized Params.lowResScalingFactor (clickCanvas (tex w))))
        else clickCanvas (tex w))
       (tex w))
    (snd (setTimeout RevertClick 3000 s2))
    (setClickedCountry E (Some (mkCountry (str_or (name p) "") (str_or (id p) ""))) (react w))
    (colors w) (motion w) (old w).

(** The world after [updateMap] has moved the hover to [index], whose path
    is [p]. *)
Definition hoveredWorld (E : Env) (index : Z) (p : CountryPath) (w : World) : World :=
  mkWorld
    (mkInteraction index (clickedCountryIdx (ix w)) (clickTimeout (ix w))
                   (isTouchScreen (ix w)) (isHoverable (ix w)) (targetZoom (ix w)))
    (mkMeshes (autoRotate (meshes w)) (cameraZoom (meshes w)) true 1
              (clickedVisible (meshes w)) (clickedScale (meshes w)))
    (with_highlight
       (needsUpdate
          (withOps [Fill (hoverColor (colors w)) Params.lowResScalingFactor (d p);
                    Stroke (strokeColor (colors w)) (Params.strokeWidth * 1)%float
                           Params.lowResScalingFactor (d p)]
                   (resized Params.lowResScalingFactor (highlightCanvas (tex w)))))
       (tex w))
    (gsap_to (mkTween SelectionMeshScale (xyz 1.015) 0.4 (Some "back.out(1.5)") NoCallback)
             (kill SelectionMeshScale (sched w)))
    (setCountryName (str_or (name p) "") (react w))
    (colors w) (motion w) (old w).

(** ** The handlers as compositions of elementary moves *)

(** Every handler, on every path through it, performs a sequence of these
    moves (see [step_moves]); invariants are checked move by move. The last
    move is a callback of an earlier closure seen from the running one: the
    React state, the handle counter and that closure change. *)
Inductive Move (E : Env) : World -> World -> Prop :=
| move_click idx p w :
    pathAt E idx = Some p -> clickedCountryIdx (ix w) <> idx ->
    Move E w (clickedWorld E idx p w)
| move_revert w : Move E w (revertClick E w)
| move_hover index p w :
    pathAt E index = Some p -> Move E w (hoveredWorld E index p w)
| move_clearHover w : Move E w (clearHover w)
| move_hoverable b w : Move E w (setHoverable b w)
| move_wheel deltaY w : Move E w (handleWheel deltaY w)
| move_touch w : Move E w (handleTouchStart w)
| move_controlsStart w : Move E w (controlsStart w)
| move_controlsEnd w : Move E w (controlsEnd w)
| move_rotate rotX rotY w : Move E w (rotateToRegion E rotX rotY w)
| move_visible w : Move E w (becameVisible w)
| move_timerGone h w : Move E w (with_sched (clearTimeout h (sched w)) w)
| move_hiRes w : Move E w (prepareHiResTextures E w)
| move_tween n w : Move E w (tweenCompleted E n w)
| move_weather net k w : Move E w (with_react (weatherSettled net k (react w)) w)
| move_summary a k w : Move E w (with_react (summarySettled a k (react w)) w)
| move_colors c w : hoverColor c = hoverColor (colors w) -> Move E w (with_colors c w)
| move_hoverColor v w : Move E w (settled (guiHoverColor E v w))
| move_nightLights v w : Move E w (guiNightLights v w)
| move_mount w : Move E w (motionToggled E w)
| move_old k sc sc' r' n' w :
    old w !! k = Some sc -> (nextHandle (sched w) <= n')%nat ->
    Move E w (mkWorld (ix w) (meshes w) (tex w)
                      (mkScheduler (tweens (sched w)) (timers (sched w)) n'
                                   (observing (sched w)))
                      r' (colors w) (motion w) (<[k := sc']> (old w))).

(** ** Invariants *)

(** Every run whose [isMounted] is still [true] is the one whose cleanup
    React holds; that run exists; and React holds no cleanup while nothing is
    selected. *)
Definition runsConsistent (r : React) : Prop :=
  (forall j run, runs r !! j = Some run -> isMounted run = true -> cleanup r = Some j) /\
  (forall j, cleanup r = Some j -> (j < length (runs r))%nat) /\
  (clickedCountry r = None -> cleanup r = None).

(** Run [k] was started and is no longer the current one: its selection was
    cleared or superseded. *)
Definition stale (k : nat) (r : React) : Prop :=
  (k < length (runs r))%nat /\ cleanup r <> Some k.

(** Timer handles are below the next handle to be given out, and a pending
    timeout that reverts the click is the one [clickTimeout] remembers. *)
Definition timersOk (w : World) : Prop :=
  (forall t, In t (timers (sched w)) ->
     (handle t < nextHandle (sched w))%nat /\
     (callback t = RevertClick -> clickTimeout (ix w) = Some (handle t))) /\
  (forall h, clickTimeout (ix w) = Some h -> (h < nextHandle (sched w))%nat).

(** Under device motion the controls never auto-rotate. *)
Definition rotationOk (w : World) : Prop :=
  motion w = true -> autoRotate (meshes w) = false.

(** ** The camera view *)

Module CameraView.

(** The state cells [isCameraOn] and [error], the video element (mounted
    only while the camera is on) with its [srcObject], and the streams whose
    tracks were stopped. *)
Record State := mkState {
  isCameraOn : bool;
  error : option string;
  srcObject : option nat;
  stopped : list nat
}.

(** How [navigator.mediaDevices.getUserMedia] settles. *)
Inductive Media := Granted (stream : nat) | Denied.

(** [setupCamera()] of the effect run that saw [isCameraOn = on];
    [videoRef] tells whether [videoRef.current] is set when it is read. *)
Definition setupCamera (on : bool) (videoRef : bool) (m : Media) (s : State) : State :=
  if on then
    match m with
    | Granted stream =>
        mkState (isCameraOn s) None
                (if videoRef then Some stream else srcObject s) (stopped s)
    | Denied => mkState false (Some "Could not access camera") (srcObject s) (stopped s)
    end
  else
    match videoRef, srcObject s with
    | true, Some stream => mkState (isCameraOn s) (error s) None (stopped s ++ [stream])
    | _, _ => s
    end.

(** The toggle button's handler. *)
Definition toggle (s : State) : State :=
  mkState (negb (isCameraOn s)) (error s) (srcObject s) (stopped s).

(** What is rendered: the error banner (for a truthy [error]), whether the
    video is shown, the button's title. *)
Definition banner (s : State) : option string :=
  match error s with
  | Some e => if String.eqb e "" then None else Some e
  | None => None
  end.

Definition videoShown (s : State) : bool := isCameraOn s.

Definition buttonTitle (s : State) : string :=
  if isCameraOn s then "Turn off camera" else "Turn on camera".

Definition initial : State := mkState false None None [].

End CameraView.

(** ** A small world for examples *)

(** Three rectangles, drawn under the picking canvas' translation by
    [(0, 100)]: Testland and Borderland share the border [x = 1000.5], which
    runs through the pixels of column [1000]; Examplia lies apart. No two of
    them overlap. *)
Definition testlandPath : string := "M0 0H1000.5V400H0Z".
Definition exampliaPath : string := "M1200 200H1500V600H1200Z".
Definition borderlandPath : string := "M1000.5 0H1100V400H1000.5Z".

(** The corners of a rectangle, in half pixels. *)
Definition boxOf (path : string) : option (Z * Z * Z * Z) :=
  if String.eqb path testlandPath then Some (0, 0, 2001, 800)
  else if String.eqb path exampliaPath then Some (2400, 400, 3000, 1200)
  else if String.eqb path borderlandPath then Some (2001, 0, 2200, 800)
  else None.

(** How many half pixels of pixel [x] lie within [[a0, a1)]: [0], [1] or [2]. *)
Definition span (a0 a1 x : Z) : Z :=
  Z.max 0 (Z.min (2 * x + 2) a1 - Z.max (2 * x) a0).

(** A rasteriser for the rectangles: the covered share of the pixel, out of
    [255], rounded. *)
Definition boxRaster (path : string) (x y : Z) : Z :=
  match boxOf path with
  | Some (x0, y0, x1, y1) => (255 * (span x0 x1 x * span (y0 + 200) (y1 + 200) y) + 2) / 4
  | None => 0
  end.

(** Source-over compositing of colour [c] with coverage [a] on [px], on
    straight alpha, each channel rounded to the nearest integer. *)
Definition sourceOver (c : RGB) (a : Z) (px : Pixel) : Pixel :=
  let rest := px_a px * (255 - a) in
  let ao := (255 * a + rest + 127) / 255 in
  let ch (cs cd : Z) :=
    if ao =? 0 then 0 else (2 * (255 * a * cs + rest * cd) + 255 * ao) / (2 * 255 * ao) in
  mkPixel (ch (red c) (px_r px)) (ch (green c) (px_g px)) (ch (blue c) (px_b px)) ao.

Definition testland : CountryPath := mkPath testlandPath "Testland" "TL".
Definition examplia : CountryPath := mkPath exampliaPath "Examplia" "EX".
Definition borderland : CountryPath := mkPath borderlandPath "Borderland" "".

Definition demoEnv : Env :=
  mkEnv [testland; examplia; borderland] false (Some "key") true boxRaster sourceOver.
Definition tiltEnv : Env :=
  mkEnv [testland; examplia; borderland] true None true boxRaster sourceOver.

Definition uvTestland : UV := mkUV 0.125 0.75.      (* pixel (250, 250): Testland *)
Definition uvBorder : UV := mkUV 0.5 0.75.          (* pixel (1000, 250): on the border *)
Definition uvExamplia : UV := mkUV 0.625 0.5.       (* pixel (1250, 500): Examplia *)
Definition uvSea : UV := mkUV 0.875 0.875.          (* pixel (1750, 125): no country *)

(** A geometry of [2^24] countries: the last one, array index [2^24 - 1],
    covers the whole canvas, the others are empty paths. *)
Definition lastlandPath : string := "M0 -100H2000V900H0Z".
Definition wideEnv : Env :=
  mkEnv (replicate (Z.to_nat (2 ^ 24 - 1)) (mkPath "" "Nowhere" "")
         ++ [mkPath lastlandPath "Lastland" "LL"])
        false None true
        (fun path _ _ => if String.eqb path lastlandPath then 255 else 0)
        sourceOver.

(** Services for the examples: restcountries knows Testland by name and
    Examplia by code only; open-meteo answers everywhere. *)
Definition testlandJson : CountryJson :=
  mkCountryJson (Some (10, 20)%float) (Some "Testville") (Some (11, 21)%float) "Testland"
                1000 "Europe" "Northern Europe" (Some ["Test crown"]) (Some ["Testish"]).

Definition exampliaJson : CountryJson :=
  mkCountryJson (Some (30, 40)%float) None None "Examplia"
                2000 "Asia" "" None None.

Definition demoNet : Network :=
  mkNetwork
    (fun url =>
       if String.eqb url "https://restcountries.com/v3.1/name/Testland?fullText=true"
       then Responded true (Some [testlandJson])
       else if String.eqb url "https://restcountries.com/v3.1/alpha/EX"
       then Responded true (Some [exampliaJson])
       else Responded false None)
    (fun lat lng => Responded true (Some (mkForecast (Some (mkCurrentWeather 21.5 12 3))))).

(** Services that are all down. *)
Definition deadNet : Network := mkNetwork (fun _ => Rejected) (fun _ _ => Rejected).

(** Two worlds of the example, computed: Testland has just been clicked;
    Testland, then Examplia have been clicked. *)
Definition demoClicked : World :=
  Eval vm_compute in run demoEnv [Click (Some uvTestland)] (init demoEnv).

Definition demoReselected : World :=
  Eval vm_compute in
    run demoEnv [Click (Some uvTestland); Click (Some uvExamplia)] (init demoEnv).

(** Testland is clicked, the compass button changes [isDeviceMotionActive]
    (the scene effect is cleaned up and runs again), then Examplia is
    clicked. *)
Definition demoRerun : World :=
  Eval vm_compute in
    run demoEnv [Click (Some uvTestland); MotionToggled; Click (Some uvExamplia)]
        (init demoEnv).

(** Testland clicked, then its weather chain and its AI call settled. *)
Definition demoAnswer : AiResult :=
  AiResponse (Some "Testland is a small country.")
             (Some [Some (mkSource "https://example.org/a" "A"); None;
                    Some (mkSource "https://example.org/a" "A again")]).

Definition demoLoadedEvents : list Event :=
  [Click (Some uvTestland); WeatherSettled 0 demoNet; SummarySettled 0 demoAnswer].

Definition demoLoaded : World :=
  Eval vm_compute in run demoEnv demoLoadedEvents (init demoEnv).

(** Worlds for the examples under device motion, and after a wheel turn. *)
Definition tiltClicked : World :=
  Eval vm_compute in run tiltEnv [Click (Some uvTestland)] (init tiltEnv).

Definition demoZoomed : World :=
  Eval vm_compute in run demoEnv [Wheel (-100)] (init demoEnv).

(** Testland selected in a build without an API key. *)
Definition keylessEnv : Env :=
  mkEnv [testland; examplia; borderland] false None true boxRaster sourceOver.

Definition keylessClicked : World :=
  Eval vm_compute in run keylessEnv [Click (Some uvTestland)] (init keylessEnv).

(** ** Further parts of the component *)

(** The sources among the chunks: [chunks.map(chunk => chunk.web).filter(Boolean)]. *)
Definition webSources (chunks : list (option Source)) : list Source :=
  omap (fun c => c) chunks.


(** The run of the detail effect that serves the selection [c]: the one
    whose cleanup React holds, started for [c] and still mounted. *)
Definition currentRun (r : React) (c : Country) (k : nat) : Prop :=
  cleanup r = Some k /\ runs r !! k = Some (mkRun c true).

(** The text and the sources that the continuation of [fetchSummary] sets
    for an answer of [generateContent], on a freshly reset detail state. *)
Definition summaryText (a : AiResult) : string :=
  match a with
  | AiThrew => "Failed to load summary."
  | AiResponse (Some t) _ => str_or t "No summary available."
  | AiResponse None _ => "No summary available."
  end.

Definition summarySources (a : AiResult) : list Source :=
  match a with
  | AiResponse _ (Some l) => uniqueSources l
  | _ => []
  end.

(** What the detail state is, given the selection and what is in flight.
    [okW k net] and [okS k a] say which settlements of run [k] have occurred:
    what is shown comes from one of them. *)
Definition detailOk (E : Env) (okW : nat -> Network -> Prop)
    (okS : nat -> AiResult -> Prop) (r : React) : Prop :=
  (forall j, member j (pendingWeather r) = true \/ member j (pendingSummary r) = true ->
             (j < length (runs r))%nat) /\
  match clickedCountry r with
  | None =>
      weatherData (detail r) = None /\ countryDetails (detail r) = None /\
      aiSummary (detail r) = None /\ groundingSources (detail r) = []
  | Some c =>
      exists k, currentRun r c k /\
        (if member k (pendingWeather r)
         then weatherData (detail r) = None /\ countryDetails (detail r) = None /\
              isLoadingWeather (detail r) = true
         else isLoadingWeather (detail r) = false /\
              exists net, okW k net /\
                          weatherData (detail r) = shownWeather (weatherOutcome net c) /\
                          countryDetails (detail r) = shownDetails (weatherOutcome net c)) /\
        (if member k (pendingSummary r)
         then aiSummary (detail r) = None /\ groundingSources (detail r) = [] /\
              isLoadingSummary (detail r) = true
         else isLoadingSummary (detail r) = false /\
              ((keyMissing E = true /\
                aiSummary (detail r) = Some "Gemini API key not configured." /\
                groundingSources (detail r) = []) \/
               (exists a, okS k a /\
                          aiSummary (detail r) = Some (summaryText a) /\
                          groundingSources (detail r) = summarySources a)))
  end.


(** The weather and the summary settlements of run [k] among the events. *)
Definition weatherOf (evs : list Event) (k : nat) (net : Network) : Prop :=
  In (WeatherSettled k net) evs.
Definition summaryOf (evs : list Event) (k : nat) (a : AiResult) : Prop :=
  In (SummarySettled k a) evs.

(** The camera zoom and the tweens that animate it. *)
Definition cameraOk (w : World) : Prop :=
  In (cameraZoom (meshes w)) zoomValues /\
  In (targetZoom (ix w)) zoomValues /\
  forall tw, In tw (tweens (sched w)) -> target tw = Camera ->
             exists z, In z zoomValues /\ vars tw = [("zoom", z)].

(** ** The scene over time *)

(** The hovered and the clicked index are [-1] or indices of the geometry. *)
Definition indexOk (E : Env) (w : World) : Prop :=
  (hoveredCountryIdx (ix w) = -1 \/ inRange E (hoveredCountryIdx (ix w)) = true) /\
  (clickedCountryIdx (ix w) = -1 \/ inRange E (clickedCountryIdx (ix w)) = true).

(** While a country is hovered the hover ring is shown and the highlight
    canvas holds the country's path, filled in the hover colour [params]
    holds now and stroked in the stroke colour it held at the last redraw. *)
Definition hoverOk (E : Env) (w : World) : Prop :=
  hoveredCountryIdx (ix w) <> -1 ->
  selectionVisible (meshes w) = true /\
  (context2d E = true ->
   exists p sc, pathAt E (hoveredCountryIdx (ix w)) = Some p /\
     ops (highlightCanvas (tex w))
     = [Fill (hoverColor (colors w)) Params.lowResScalingFactor (d p);
        Stroke sc (Params.strokeWidth * 1)%float Params.lowResScalingFactor (d p)]).

(** While a country is clicked its ring is shown, drawn from the country's
    path, and the globe does not rotate by itself. *)
Definition ringOk (E : Env) (w : World) : Prop :=
  clickedCountryIdx (ix w) <> -1 ->
  clickedVisible (meshes w) = true /\ autoRotate (meshes w) = false /\
  (context2d E = true ->
   exists p sc, pathAt E (clickedCountryIdx (ix w)) = Some p /\
     ops (clickCanvas (tex w))
     = [Fill (hoverColor (colors w)) Params.lowResScalingFactor (d p);
        Stroke sc (Params.strokeWidth * 4)%float Params.lowResScalingFactor (d p)]).

Definition sceneOk (E : Env) (w : World) : Prop :=
  indexOk E w /\ rotationOk w /\ hoverOk E w /\ ringOk E w.

(** The scene effect has run once only: no closure of an earlier run is
    around. [Home] is a move between two such states. *)
Definition Home (E : Env) (w w' : World) : Prop :=
  Move E w w' /\ old w = [] /\ old w' = [].

(** The selection React holds is the clicked country of the scene. *)
Definition selectionOk (E : Env) (w : World) : Prop :=
  match clickedCountry (react w) with
  | None => clickedCountryIdx (ix w) = -1
  | Some c => exists p, pathAt E (clickedCountryIdx (ix w)) = Some p /\
                        c = mkCountry (str_or (name p) "") (str_or (id p) "")
  end.

(** The label is the name of the hovered country, empty with none hovered. *)
Definition labelOk (E : Env) (w : World) : Prop :=
  countryName (react w)
  = match pathAt E (hoveredCountryIdx (ix w)) with
    | Some p => str_or (name p) ""
    | None => ""
    end.

(** The scene effect has not run again: a move that leaves the list of
    earlier closures as long as it is. *)
Definition Stay (E : Env) (w w' : World) : Prop :=
  Move E w w' /\ length (old w') = length (old w).

(** The pending timeouts of the high-resolution pass. *)
Definition hiResTimers (w : World) : list Timer :=
  List.filter (fun t => negb (isRevert t)) (timers (sched w)).

(** A move as the handlers make it outside [timerFired]: it removes no
    timeout of the running closure, unless it is the click clearing the one
    it remembers or the scene effect starting afresh. *)
Definition Quiet (E : Env) (w w' : World) : Prop :=
  Move E w w' /\
  ((forall t, In t (timers (sched w)) -> In t (timers (sched w'))) \/
   (exists idx p, w' = clickedWorld E idx p w) \/
   w' = motionToggled E w).

(** The timeouts of the running scene effect: handles are distinct; a
    clicked country has its revert timeout pending; [clickTimeout] never
    names the timeout of the high-resolution pass; that pass is scheduled
    when the observer disconnects, and once only. *)
Definition schedOk (w : World) : Prop :=
  timersOk w /\
  List.NoDup (List.map handle (timers (sched w))) /\
  (clickedCountryIdx (ix w) <> -1 ->
   exists h, clickTimeout (ix w) = Some h /\
             In (mkTimer h 3000 RevertClick) (timers (sched w))) /\
  (forall t, In t (hiResTimers w) -> clickTimeout (ix w) <> Some (handle t)) /\
  (if observing (sched w) then hiResTimers w = []
   else hiResTimers w = [] \/
        exists h, hiResTimers w = [mkTimer h 300 PrepareHiResTextures]).

(** The tween a drag's end starts on the globe's scale. *)
Definition dragEndTween : Tween :=
  mkTween GlobeGroupScale (xyz 1) 0.6 (Some "back(1.7).out") EnableHover.

(** After a drag, and after a touch, computed. *)
Definition demoDragged : World :=
  Eval vm_compute in run demoEnv [ControlsStart; ControlsEnd] (init demoEnv).

Definition demoTouched : World :=
  Eval vm_compute in run demoEnv [TouchStart] (init demoEnv).


(** ** The camera view over time *)

(** [CameraView] with the runs of its effect: what [setupCamera] does once
    its [await] is over depends on what the user did meanwhile. *)
Module CameraFlow.
Import CameraView.

(** One run of the effect on [isCameraOn]: the value it saw, its local
    [stream], and whether its [getUserMedia] is still to settle. *)
Record Run := mkRun { saw : bool; stream : option nat; pending : bool }.

(** The component: its state and video element, and the runs of the effect,
    oldest first; the last one is the run whose cleanup React holds. *)
Record Flow := mkFlow { view : State; runs : list Run }.

Inductive Event :=
| Toggle
| Settled (k : nat) (m : Media).

(** [stream.getTracks().forEach(track => track.stop())]. *)
Definition stopTracks (s : nat) (v : State) : State :=
  mkState (isCameraOn v) (error v) (srcObject v) (stopped v ++ [s]).

(** React commits a changed [isCameraOn]: the cleanup of the latest run stops
    its [stream] if it has one by now; the video element is mounted or removed
    (a fresh element has no [srcObject], and [videoRef.current] is set exactly
    while the element is rendered); the new run calls [setupCamera], which
    goes as far as its [await] when the camera is on and through its [else]
    branch otherwise (a branch that does not read how [getUserMedia] would
    settle, so any [Media] serves as the argument). *)
Definition rerun (f : Flow) : Flow :=
  let v := view f in
  let v1 := match last (runs f) with
            | Some r => match stream r with Some s => stopTracks s v | None => v end
            | None => v
            end in
  let v2 := mkState (isCameraOn v1) (error v1) None (stopped v1) in
  mkFlow (if isCameraOn v2 then v2 else setupCamera false (videoShown v2) Denied v2)
         (runs f ++ [mkRun (isCameraOn v2) None (isCameraOn v2)]).

(** A click on the button. *)
Definition toggle (f : Flow) : Flow := rerun (mkFlow (CameraView.toggle (view f)) (runs f)).

(** The [getUserMedia] of run [k] settles: the run's [stream] is assigned on
    success, the rest of [setupCamera] runs against the component as it is
    now, and a changed [isCameraOn] re-runs the effect. *)
Definition settle (k : nat) (m : Media) (f : Flow) : Flow :=
  match runs f !! k with
  | Some r =>
      if pending r then
        let r' := mkRun (saw r) (match m with Granted s => Some s | Denied => stream r end)
                        false in
        let v' := setupCamera true (videoShown (view f)) m (view f) in
        let f' := mkFlow v' (<[k := r']> (runs f)) in
        if Bool.eqb (isCameraOn v') (isCameraOn (view f)) then f' else rerun f'
      else f
  | None => f
  end.

Definition step (ev : Event) (f : Flow) : Flow :=
  match ev with
  | Toggle => toggle f
  | Settled k m => settle k m f
  end.

Definition run (evs : list Event) (f : Flow) : Flow :=
  fold_left (fun f ev => step ev f) evs f.

(** After the first render: the camera is off and the effect has run once. *)
Definition initial : Flow := mkFlow CameraView.initial [mkRun false None false].

(** Run [k] holds stream [s], which no cleanup will see: the run is not the
    latest one. *)
Definition orphaned (k s : nat) (f : Flow) : Prop :=
  runs f !! k = Some (mkRun true (Some s) false) /\
  ~ In s (stopped (view f)) /\
  forall j r, runs f !! j = Some r -> stream r = Some s -> (S j < length (runs f))%nat.

End CameraFlow.

(** The camera switched on, and switched on and off again, [getUserMedia]
    still pending. *)
Definition cameraOn : CameraFlow.Flow :=
  Eval vm_compute in CameraFlow.run [CameraFlow.Toggle] CameraFlow.initial.

Definition twiceToggled : CameraFlow.Flow :=
  Eval vm_compute in
    CameraFlow.run [CameraFlow.Toggle; CameraFlow.Toggle] CameraFlow.initial.

(** * Properties *)

(** ** The embedding at work *)

Example floorLong_examples :
  floorLong 3.99 = 3 /\ floorLong (-0.5) = -1 /\ floorLong (1 * 2000) = 2000 /\
  floorLong PrimFloat.nan = 0.
Proof. vm_compute. repeat split. Qed.

Example pickingColor_example :
  pickingColor 300 = mkRGB 0 1 45 /\ decodeIndex (opaque (pickingColor 300)) = 300.
Proof. vm_compute. repeat split. Qed.

Example pickIndex_examples :
  List.map (pickIndex demoEnv) [uvTestland; uvBorder; uvExamplia; uvSea; mkUV 1 0.5]
  = [0; 1; 1; -1; -1] /\
  getImageData demoEnv 1000 250 = mkPixel 0 0 2 192.
Proof. vm_compute. split; reflexivity. Qed.

Example uniqueSources_example :
  uniqueSources [Some (mkSource "u1" "first"); None; Some (mkSource "u2" "other");
                 Some (mkSource "u1" "again")]
  = [mkSource "u1" "again"; mkSource "u2" "other"].
Proof. reflexivity. Qed.

Example weatherRequests_examples :
  weatherRequests demoNet (mkCountry "Testland" "TL")
    = [GetCountry "https://restcountries.com/v3.1/name/Testland?fullText=true";
       GetForecast 10 20] /\
  weatherRequests demoNet (mkCountry "Island" "")
    = [GetCountry "https://restcountries.com/v3.1/name/Island?fullText=true";
       GetCountry "https://restcountries.com/v3.1/name/Island"] /\
  weatherOutcome demoNet (mkCountry "Island" "") = Failed /\
  weatherOutcome demoNet (mkCountry "Testland" "TL")
    = Loaded (mkDetails 1000 "Europe" "Northern Europe" "Test crown" "Testish" "Testville")
             (mkWeather 21.5 12 3 "Testville").
Proof. vm_compute. repeat split. Qed.

Example wheel_examples :
  targetZoom (ix (run demoEnv [Wheel 1; Wheel 1; Wheel 1] (init demoEnv))) = 0.8%float /\
  targetZoom (ix (run demoEnv [Wheel (-1); Wheel (-1)] (init demoEnv)))
    = 1.6%float /\
  length zoomValues = 38%nat.
Proof. vm_compute. repeat split. Qed.

Example demoLoaded_example :
  weatherData (detail (react demoLoaded)) = Some (mkWeather 21.5 12 3 "Testville") /\
  aiSummary (detail (react demoLoaded)) = Some "Testland is a small country." /\
  groundingSources (detail (react demoLoaded)) = [mkSource "https://example.org/a" "A again"].
Proof. vm_compute. repeat split. Qed.

Example timer_example :
  clickedCountry (react (run demoEnv [Click (Some uvTestland); TimerFired 1] (init demoEnv)))
    = None /\
  timers (sched (run demoEnv [Click (Some uvTestland); TimerFired 1] (init demoEnv))) = [].
Proof. vm_compute. repeat split. Qed.

(** ** 32-bit operators on small operands *)

Lemma toInt32_small (z : Z) : - 2 ^ 31 <= z < 2 ^ 31 -> toInt32 z = z.
Proof.
  intros H. unfold toInt32.
  rewrite Z.mod_small by lia. lia.
Qed.

Lemma land_255_range (z : Z) : 0 <= Z.land z 255 < 256.
Proof.
  change 255 with (Z.ones 8). rewrite Z.land_ones by lia.
  apply Z.mod_pos_bound. lia.
Qed.

(** The three colour channels of key [k] are bytes, and put back together
    they give [k], as long as [k] fits the 24 bits of a colour. *)
Lemma channels_recombine (k : Z) :
  0 <= k < 2 ^ 24 ->
  Z.lor (Z.lor (Z.shiftl (Z.land (Z.shiftr k 16) 255) 16)
               (Z.shiftl (Z.land (Z.shiftr k 8) 255) 8))
        (Z.land k 255) = k.
Proof.
  intros Hk. apply Z.bits_inj'. intros n Hn.
  rewrite !Z.lor_spec, !Z.land_spec.
  rewrite !Z.shiftl_spec by lia.
  change 255 with (Z.ones 8).
  destruct (Z.lt_ge_cases n 8) as [H8|H8].
  - rewrite (Z.testbit_neg_r _ (n - 16)) by lia.
    rewrite (Z.testbit_neg_r _ (n - 8)) by lia.
    rewrite Z.ones_spec_low by lia. simpl. now rewrite andb_true_r.
  - rewrite (Z.ones_spec_high 8 n) by lia. rewrite andb_false_r, orb_false_r.
    destruct (Z.lt_ge_cases n 16) as [H16|H16].
    + rewrite (Z.testbit_neg_r _ (n - 16)) by lia. simpl.
      rewrite Z.land_spec, Z.shiftr_spec by lia.
      rewrite Z.ones_spec_low by lia. rewrite andb_true_r. f_equal. lia.
    + rewrite !Z.land_spec, !Z.shiftr_spec by lia.
      rewrite (Z.ones_spec_high 8 (n - 8)) by lia. rewrite andb_false_r, orb_false_r.
      destruct (Z.lt_ge_cases n 24) as [H24|H24].
      * rewrite Z.ones_spec_low by lia. rewrite andb_true_r. f_equal. lia.
      * rewrite Z.ones_spec_high by lia. rewrite andb_false_r.
        symmetry. apply (Z.bits_above_log2 k n); [lia|].
        destruct (Z.eq_dec k 0) as [->|Hk0]; [simpl; lia|].
        apply Z.log2_lt_pow2; [lia|].
        apply Z.lt_le_trans with (2 ^ 24); [lia|].
        apply Z.pow_le_mono_r; lia.
Qed.

Lemma shiftr_range (k n : Z) : 0 <= k < 2 ^ 24 -> 0 <= n -> 0 <= Z.shiftr k n < 2 ^ 24.
Proof.
  intros Hk Hn. rewrite Z.shiftr_div_pow2 by lia. split.
  - apply Z.div_pos; [lia|]. apply Z.pow_pos_nonneg; lia.
  - apply Z.le_lt_trans with k; [|lia].
    apply Z.div_le_upper_bound; [apply Z.pow_pos_nonneg; lia|].
    assert (1 <= 2 ^ n) by (apply (Z.pow_le_mono_r 2 0 n); lia). nia.
Qed.

Lemma shiftl_byte_range (b n : Z) : 0 <= b < 256 -> 0 <= n <= 16 -> 0 <= Z.shiftl b n < 2 ^ 24.
Proof.
  intros Hb Hn. rewrite Z.shiftl_mul_pow2 by lia.
  assert (0 < 2 ^ n) by (apply Z.pow_pos_nonneg; lia).
  assert (2 ^ n <= 2 ^ 16) by (apply Z.pow_le_mono_r; lia).
  change (2 ^ 16) with 65536 in *. change (2 ^ 24) with 16777216. nia.
Qed.

(** Decoding the pixel painted for array index [i] gives [i] back. *)
Lemma decode_pickingColor (i : nat) :
  Z.of_nat i + 1 < 2 ^ 24 -> decodeIndex (opaque (pickingColor i)) = Z.of_nat i.
Proof.
  intros Hi. unfold decodeIndex, opaque, pickingColor. cbn [px_r px_g px_b red green blue].
  set (k := Z.of_nat i + 1) in *.
  assert (Hk : 0 <= k < 2 ^ 24) by lia.
  assert (H24 : 2 ^ 24 < 2 ^ 31) by lia.
  unfold js_and, js_sar, js_shl, js_or.
  change (16 mod 32) with 16. change (8 mod 32) with 8.
  rewrite (toInt32_small k) by lia.
  rewrite (toInt32_small 255) by lia.
  pose proof (shiftr_range k 16 Hk ltac:(lia)) as H16.
  pose proof (shiftr_range k 8 Hk ltac:(lia)) as H8.
  rewrite (toInt32_small (Z.shiftr k 16)) by lia.
  rewrite (toInt32_small (Z.shiftr k 8)) by lia.
  pose proof (land_255_range (Z.shiftr k 16)) as Hr.
  pose proof (land_255_range (Z.shiftr k 8)) as Hg.
  pose proof (land_255_range k) as Hb.
  rewrite !(toInt32_small (Z.land _ 255)) by lia.
  pose proof (shiftl_byte_range _ 16 Hr ltac:(lia)) as Hr'.
  pose proof (shiftl_byte_range _ 8 Hg ltac:(lia)) as Hg'.
  rewrite !(toInt32_small (Z.shiftl _ _)) by lia.
  assert (Hor : 0 <= Z.lor (Z.shiftl (Z.land (Z.shiftr k 16) 255) 16)
                            (Z.shiftl (Z.land (Z.shiftr k 8) 255) 8) < 2 ^ 24).
  { split; [apply Z.lor_nonneg; lia|].
    destruct (Z.eq_dec (Z.lor (Z.shiftl (Z.land (Z.shiftr k 16) 255) 16)
                              (Z.shiftl (Z.land (Z.shiftr k 8) 255) 8)) 0) as [->|Hz];
      [reflexivity|].
    apply Z.log2_lt_pow2; [pose proof (proj2 (Z.lor_nonneg _ _) (conj (proj1 Hr') (proj1 Hg'))); lia|].
    rewrite Z.log2_lor by lia.
    apply Z.max_lub_lt.
    - destruct (Z.eq_dec (Z.shiftl (Z.land (Z.shiftr k 16) 255) 16) 0) as [->|Hz1];
        [reflexivity|apply Z.log2_lt_pow2; lia].
    - destruct (Z.eq_dec (Z.shiftl (Z.land (Z.shiftr k 8) 255) 8) 0) as [->|Hz2];
        [reflexivity|apply Z.log2_lt_pow2; lia]. }
  pose proof (channels_recombine k Hk) as Hrec.
  set (inner := Z.lor (Z.shiftl (Z.land (Z.shiftr k 16) 255) 16)
                      (Z.shiftl (Z.land (Z.shiftr k 8) 255) 8)) in *.
  rewrite !(toInt32_small inner) by lia.
  rewrite Hrec. rewrite (toInt32_small k) by lia. lia.
Qed.

(** ** The picking buffer *)

Section Picking.
Variable E : Env.
Variables x y : Z.

Lemma fillPixel_untouched (f : RGB * string) (px : Pixel) :
  coverage E (snd f) x y <= 0 -> fillPixel E x y f px = px.
Proof. intros H. unfold fillPixel. now rewrite (proj2 (Z.leb_le _ _) H). Qed.

Lemma fillPixel_full (f : RGB * string) (px : Pixel) :
  255 <= coverage E (snd f) x y -> fillPixel E x y f px = opaque (fst f).
Proof.
  intros H. unfold fillPixel.
  rewrite (proj2 (Z.leb_gt _ _)) by lia. now rewrite (proj2 (Z.leb_le _ _) H).
Qed.

Lemma paint_untouched (l : list CountryPath) (g : nat -> RGB) (s : Pixel) :
  (forall j q, l !! j = Some q -> coverage E (d q) x y <= 0) ->
  paint E x y (imap (fun n q => (g n, d q)) l) s = s.
Proof.
  revert g s. induction l as [|p0 l IH]; intros g s H; [reflexivity|].
  cbn. rewrite fillPixel_untouched by (apply (H 0%nat p0 eq_refl)).
  apply (IH (fun n => g (S n))). intros j q Hj. apply (H (S j) q Hj).
Qed.

(** The pixel shows the colour of a path that covers it entirely, when no
    later path touches it, whatever the earlier fills left there. *)
Lemma paint_last (l : list CountryPath) (g : nat -> RGB) (s : Pixel) (i : nat) (p : CountryPath) :
  l !! i = Some p ->
  255 <= coverage E (d p) x y ->
  (forall j q, (i < j)%nat -> l !! j = Some q -> coverage E (d q) x y <= 0) ->
  paint E x y (imap (fun n q => (g n, d q)) l) s = opaque (g i).
Proof.
  revert g s i. induction l as [|p0 l IH]; intros g s i Hi Hc Hlater; [discriminate|].
  destruct i as [|i]; cbn in *.
  - injection Hi as ->. rewrite fillPixel_full by exact Hc.
    apply (paint_untouched l (fun n => g (S n))).
    intros j q Hj. apply (Hlater (S j) q); [lia|exact Hj].
  - apply (IH (fun n => g (S n)) _ i Hi Hc).
    intros j q Hlt Hj. apply (Hlater (S j) q); [lia|exact Hj].
Qed.
End Picking.

Lemma getImageData_last (E : Env) (x y : Z) (i : nat) (p : CountryPath) :
  onCanvas x y = true ->
  svgPaths E !! i = Some p ->
  255 <= coverage E (d p) x y ->
  (forall j q, (i < j)%nat -> svgPaths E !! j = Some q -> coverage E (d q) x y <= 0) ->
  getImageData E x y = opaque (pickingColor i).
Proof.
  intros Hc Hi Hp Hlater. unfold getImageData. rewrite Hc.
  unfold pickingFills. now apply (paint_last E x y (svgPaths E) pickingColor _ i p).
Qed.

Lemma getImageData_background (E : Env) (x y : Z) :
  onCanvas x y = false \/
  (forall j q, svgPaths E !! j = Some q -> coverage E (d q) x y <= 0) ->
  getImageData E x y = transparentBlack.
Proof.
  intros H. unfold getImageData.
  destruct (onCanvas x y); [|reflexivity].
  destruct H as [H|H]; [discriminate|].
  unfold pickingFills. now apply (paint_untouched E x y (svgPaths E) pickingColor).
Qed.

Lemma pathAt_inRange (E : Env) (idx : Z) :
  inRange E idx = true <-> exists p, pathAt E idx = Some p.
Proof.
  unfold inRange, pathAt. split.
  - intros H. apply andb_true_iff in H as [H0 H1].
    apply Z.leb_le in H0. apply Z.ltb_lt in H1.
    destruct (idx <? 0) eqn:Hneg; [apply Z.ltb_lt in Hneg; lia|].
    apply lookup_lt_is_Some. lia.
  - intros [p Hp]. destruct (idx <? 0) eqn:Hneg; [discriminate|].
    apply Z.ltb_ge in Hneg. apply lookup_lt_Some in Hp.
    apply andb_true_iff. split; [apply Z.leb_le; lia|apply Z.ltb_lt; lia].
Qed.

Lemma pathAt_of_nat (E : Env) (i : nat) : pathAt E (Z.of_nat i) = svgPaths E !! i.
Proof.
  unfold pathAt. destruct (Z.of_nat i <? 0) eqn:H; [apply Z.ltb_lt in H; lia|].
  now rewrite Nat2Z.id.
Qed.

(** ** What a click on a country does *)

Lemma nextHandle_clearTimeout (h : nat) (s : Scheduler) :
  nextHandle (clearTimeout h s) = nextHandle s.
Proof. reflexivity. Qed.

Lemma handleCountryClick_new (E : Env) (idx : Z) (p : CountryPath) (w : World) :
  clickedCountryIdx (ix w) <> idx ->
  pathAt E idx = Some p ->
  handleCountryClick E idx w = Return (clickedWorld E idx p w) tt.
Proof.
  intros Hne Hp. unfold handleCountryClick.
  destruct (clickedCountryIdx (ix w) =? idx) eqn:Heq; [apply Z.eqb_eq in Heq; contradiction|].
  rewrite Hp. unfold drawCountry. cbn [with_react with_ix tex ix meshes sched react clickCanvas].
  assert (Hm1 : (idx =? -1) = false).
  { apply Z.eqb_neq. intros ->. unfold pathAt in Hp. discriminate. }
  unfold clickedWorld.
  destruct (context2d E); cbn [negb].
  - rewrite Hm1, Hp. cbn [with_tex with_click tex ix meshes sched react].
    destruct (clickTimeout (ix w)); reflexivity.
  - cbn [with_tex with_click tex ix meshes sched react].
    destruct (clickTimeout (ix w)); destruct (tex w); reflexivity.
Qed.

Lemma handleCountryClick_same (E : Env) (idx : Z) (w : World) :
  clickedCountryIdx (ix w) = idx -> handleCountryClick E idx w = Return w tt.
Proof. intros H. unfold handleCountryClick. now rewrite H, Z.eqb_refl. Qed.

Lemma handleCountryClick_returns (E : Env) (idx : Z) (w : World) :
  inRange E idx = true -> exists w', handleCountryClick E idx w = Return w' tt.
Proof.
  intros H. apply pathAt_inRange in H as [p Hp].
  destruct (Z.eq_dec (clickedCountryIdx (ix w)) idx) as [Heq|Hne].
  - exists w. apply handleCountryClick_same. exact Heq.
  - eexists. apply handleCountryClick_new; eassumption.
Qed.

(** ** What [updateMap] does with the decoded index *)

Lemma updateMap_miss (E : Env) (uv : UV) (isClick : bool) (w : World) :
  inRange E (pickIndex E uv) = false -> updateMap E uv isClick w = Return w false.
Proof.
  intros H. unfold updateMap. rewrite H. now destruct (context2d E).
Qed.

Lemma updateMap_click (E : Env) (uv : UV) (w : World) :
  context2d E = true ->
  inRange E (pickIndex E uv) = true ->
  exists w', handleCountryClick E (pickIndex E uv) w = Return w' tt /\
             updateMap E uv true w = Return w' true.
Proof.
  intros Hctx Hin. destruct (handleCountryClick_returns E _ w Hin) as [w' Hw'].
  exists w'. split; [exact Hw'|].
  unfold updateMap. rewrite Hctx, Hin. cbn [negb]. now rewrite Hw'.
Qed.

Lemma updateMap_hover_new (E : Env) (uv : UV) (p : CountryPath) (w : World) :
  context2d E = true ->
  pathAt E (pickIndex E uv) = Some p ->
  pickIndex E uv <> hoveredCountryIdx (ix w) ->
  updateMap E uv false w = Return (hoveredWorld E (pickIndex E uv) p w) true.
Proof.
  intros Hctx Hp Hne. unfold updateMap.
  assert (Hin : inRange E (pickIndex E uv) = true) by (apply pathAt_inRange; eauto).
  rewrite Hctx, Hin. cbn [negb].
  destruct (pickIndex E uv =? hoveredCountryIdx (ix w)) eqn:Heq;
    [apply Z.eqb_eq in Heq; contradiction|].
  cbn [negb]. unfold drawCountry. rewrite Hctx. cbn [negb tex highlightCanvas].
  assert (Hm1 : (pickIndex E uv =? -1) = false).
  { apply Z.eqb_neq. intros H. rewrite H in Hp. discriminate. }
  rewrite Hm1, Hp. reflexivity.
Qed.

Lemma updateMap_hover_same (E : Env) (uv : UV) (w : World) :
  pickIndex E uv = hoveredCountryIdx (ix w) ->
  updateMap E uv false w = Return w (context2d E && inRange E (pickIndex E uv)).
Proof.
  intros Heq. unfold updateMap.
  destruct (context2d E); [|reflexivity]. cbn [negb andb].
  destruct (inRange E (pickIndex E uv)); [|reflexivity].
  now rewrite Heq, Z.eqb_refl.
Qed.

Lemma updateMap_hover (E : Env) (uv : UV) (w : World) :
  context2d E = true ->
  inRange E (pickIndex E uv) = true ->
  exists w', updateMap E uv false w = Return w' true /\
             hoveredCountryIdx (ix w') = pickIndex E uv.
Proof.
  intros Hctx Hin.
  destruct (Z.eq_dec (pickIndex E uv) (hoveredCountryIdx (ix w))) as [Heq|Hne].
  - exists w. split; [|now symmetry].
    rewrite (updateMap_hover_same E uv w Heq). now rewrite Hctx, Hin.
  - destruct (proj1 (pathAt_inRange E _) Hin) as [p Hp].
    eexists. split; [now apply (updateMap_hover_new E uv p)|reflexivity].
Qed.

(** C1, as amended (the claim as stated fails on the anti-aliased pixels of
    a border and at the width of the colour key, see
    [picking_edge_counterexample]). For a geometry of fewer than [2^24]
    countries: a texture coordinate whose pixel is covered entirely by the
    polygon at array index [i] and is touched by no polygon drawn after it
    decodes to [i], an index of the geometry, whatever earlier fills left on
    the pixel; a coordinate whose pixel is off the canvas or touched by no
    polygon decodes to [-1] and is no match; and whatever the pixel holds, a
    decoded index outside [0, svgPaths.length) is no match: [updateMap]
    returns [false], changes nothing and does not throw. *)
Theorem picking_roundtrip (E : Env) (uv : UV)
    (Hsize : Z.of_nat (length (svgPaths E)) < 2 ^ 24) :
  (forall (i : nat) (p : CountryPath),
      onCanvas (pixelX uv) (pixelY uv) = true ->
      svgPaths E !! i = Some p ->
      255 <= coverage E (d p) (pixelX uv) (pixelY uv) ->
      (forall j q, (i < j)%nat -> svgPaths E !! j = Some q ->
                   coverage E (d q) (pixelX uv) (pixelY uv) <= 0) ->
      pickIndex E uv = Z.of_nat i /\ pathAt E (pickIndex E uv) = Some p) /\
  (onCanvas (pixelX uv) (pixelY uv) = false \/
   (forall j q, svgPaths E !! j = Some q ->
                coverage E (d q) (pixelX uv) (pixelY uv) <= 0) ->
   pickIndex E uv = -1 /\
   forall isClick w, updateMap E uv isClick w = Return w false) /\
  (forall isClick w,
      inRange E (pickIndex E uv) = false ->
      updateMap E uv isClick w = Return w false).
Proof.
  split; [|split].
  - intros i p Hc Hi Hp Hlater.
    assert (Hidx : pickIndex E uv = Z.of_nat i).
    { unfold pickIndex. rewrite (getImageData_last E _ _ i p Hc Hi Hp Hlater).
      apply decode_pickingColor. apply lookup_lt_Some in Hi. lia. }
    split; [exact Hidx|]. now rewrite Hidx, pathAt_of_nat.
  - intros Hbg.
    assert (Hidx : pickIndex E uv = -1).
    { unfold pickIndex. now rewrite (getImageData_background E _ _ Hbg). }
    split; [exact Hidx|]. intros isClick w. apply updateMap_miss.
    rewrite Hidx. reflexivity.
  - intros isClick w. apply updateMap_miss.
Qed.

Lemma picking_roundtrip_witness :
  pickIndex demoEnv uvTestland = 0 /\ pickIndex demoEnv uvSea = -1.
Proof.
  assert (Hsize : Z.of_nat (length (svgPaths demoEnv)) < 2 ^ 24) by (vm_compute; reflexivity).
  split.
  - refine (proj1 (proj1 (picking_roundtrip demoEnv uvTestland Hsize)
                         0%nat testland _ _ _ _)).
    + vm_compute; reflexivity.
    + reflexivity.
    + vm_compute; discriminate.
    + intros j q Hlt Hj. destruct j as [|[|[|j]]]; [lia| | |discriminate Hj];
        injection Hj as <-; vm_compute; discriminate.
  - refine (proj1 (proj1 (proj2 (picking_roundtrip demoEnv uvSea Hsize)) _)).
    right. intros j q Hj. destruct j as [|[|[|j]]]; [| | |discriminate Hj];
      injection Hj as <-; vm_compute; discriminate.
Defined.

(** Why the bound on the number of countries: the key of array index
    [2^24 - 1] is [2^24], whose three channels are all zero, so that country's
    pixels read as background. *)
Lemma picking_key_wraps (E : Env) (uv : UV) (i : nat) (p : CountryPath) :
  Z.of_nat i + 1 = 2 ^ 24 ->
  onCanvas (pixelX uv) (pixelY uv) = true ->
  svgPaths E !! i = Some p ->
  255 <= coverage E (d p) (pixelX uv) (pixelY uv) ->
  (forall j q, (i < j)%nat -> svgPaths E !! j = Some q ->
               coverage E (d q) (pixelX uv) (pixelY uv) <= 0) ->
  pickIndex E uv = -1.
Proof.
  intros Hi Hc Hp Hcov Hlater. unfold pickIndex.
  rewrite (getImageData_last E _ _ i p Hc Hp Hcov Hlater).
  unfold pickingColor. rewrite Hi. reflexivity.
Qed.

Lemma wideEnv_last :
  svgPaths wideEnv !! Z.to_nat (2 ^ 24 - 1) = Some (mkPath lastlandPath "Lastland" "LL") /\
  length (svgPaths wideEnv) = S (Z.to_nat (2 ^ 24 - 1)).
Proof.
  change (svgPaths wideEnv)
    with (replicate (Z.to_nat (2 ^ 24 - 1)) (mkPath "" "Nowhere" "")
          ++ [mkPath lastlandPath "Lastland" "LL"]).
  split.
  - apply list_lookup_middle. now rewrite length_replicate.
  - rewrite length_app, length_replicate. cbn [length]. lia.
Qed.

(** The claim as stated fails in two ways. On a border: the pixel of
    [uvBorder] lies half in Testland (array index 0) and half in Borderland
    (index 2), which do not overlap; the two fills blend to the key of index
    1, so the coordinate decodes to Examplia, whose polygon lies elsewhere,
    and a click there selects Examplia. At the width of the key: in a
    geometry of [2^24] countries a pixel that the last country alone covers,
    and covers entirely, reads as background. *)
Lemma picking_edge_counterexample :
  (svgPaths demoEnv !! 0%nat = Some testland /\
   svgPaths demoEnv !! 1%nat = Some examplia /\
   svgPaths demoEnv !! 2%nat = Some borderland /\
   onCanvas (pixelX uvBorder) (pixelY uvBorder) = true /\
   coverage demoEnv (d testland) (pixelX uvBorder) (pixelY uvBorder) = 128 /\
   coverage demoEnv (d examplia) (pixelX uvBorder) (pixelY uvBorder) = 0 /\
   coverage demoEnv (d borderland) (pixelX uvBorder) (pixelY uvBorder) = 128 /\
   pickIndex demoEnv uvBorder = 1 /\
   clickedCountry (react (step demoEnv (Click (Some uvBorder)) (init demoEnv)))
     = Some (mkCountry "Examplia" "EX")) /\
  (svgPaths wideEnv !! Z.to_nat (2 ^ 24 - 1) = Some (mkPath lastlandPath "Lastland" "LL") /\
   length (svgPaths wideEnv) = S (Z.to_nat (2 ^ 24 - 1)) /\
   onCanvas (pixelX uvTestland) (pixelY uvTestland) = true /\
   coverage wideEnv lastlandPath (pixelX uvTestland) (pixelY uvTestland) = 255 /\
   pickIndex wideEnv uvTestland = -1).
Proof.
  split; [vm_compute; repeat split|].
  destruct wideEnv_last as [Hlast Hlen].
  assert (Hon : onCanvas (pixelX uvTestland) (pixelY uvTestland) = true)
    by (vm_compute; reflexivity).
  assert (Hcov : coverage wideEnv lastlandPath (pixelX uvTestland) (pixelY uvTestland) = 255)
    by reflexivity.
  split; [exact Hlast|split; [exact Hlen|split; [exact Hon|split; [exact Hcov|]]]].
  apply (picking_key_wraps wideEnv uvTestland (Z.to_nat (2 ^ 24 - 1))
           (mkPath lastlandPath "Lastland" "LL")).
  - rewrite Z2Nat.id by lia. lia.
  - exact Hon.
  - exact Hlast.
  - change (d (mkPath lastlandPath "Lastland" "LL")) with lastlandPath. rewrite Hcov. lia.
  - intros j q Hlt Hj. apply lookup_lt_Some in Hj. rewrite Hlen in Hj. lia.
Qed.

(** ** Invariants of the React state along the handlers *)

Section ReactSteps.
Variable E : Env.
Variable P : React -> Prop.
Variable okW : nat -> Network -> Prop.
Variable okS : nat -> AiResult -> Prop.
Hypothesis P_setClickedCountry : forall v r, P r -> P (setClickedCountry E v r).
Hypothesis P_setCountryName : forall n r, P r -> P (setCountryName n r).
Hypothesis P_weatherSettled : forall net k r, okW k net -> P r -> P (weatherSettled net k r).
Hypothesis P_summarySettled : forall a k r, okS k a -> P r -> P (summarySettled a k r).

Lemma P_revertClick (w : World) : P (react w) -> P (react (revertClick E w)).
Proof.
  intros H. unfold revertClick. destruct (clickedCountryIdx (ix w) =? -1); [exact H|].
  cbn. now apply P_setClickedCountry.
Qed.

Lemma P_handleCountryClick (idx : Z) (w : World) :
  P (react w) -> P (react (settled (handleCountryClick E idx w))).
Proof.
  intros H. unfold handleCountryClick, drawCountry.
  repeat case_match; cbn; auto.
Qed.

Lemma P_updateMap (uv : UV) (isClick : bool) (w : World) :
  P (react w) -> P (react (settled (updateMap E uv isClick w))).
Proof.
  intros H. unfold updateMap.
  destruct (negb (context2d E)); [exact H|].
  destruct (inRange E (pickIndex E uv)); [|exact H].
  destruct isClick.
  - pose proof (P_handleCountryClick (pickIndex E uv) w H) as H'.
    destruct (handleCountryClick E (pickIndex E uv) w); exact H'.
  - unfold drawCountry. repeat case_match; cbn; auto.
Qed.

Lemma P_clearHover (w : World) : P (react w) -> P (react (clearHover w)).
Proof. intros H. unfold clearHover. case_match; cbn; auto. Qed.

Lemma P_prepareHiResTextures (w : World) :
  P (react w) -> P (react (prepareHiResTextures E w)).
Proof. intros H. unfold prepareHiResTextures. cbn. auto. Qed.

Lemma P_timerFired (h : nat) (w : World) : P (react w) -> P (react (timerFired E h w)).
Proof.
  intros H. unfold timerFired. case_match; [|exact H].
  case_match; [apply P_revertClick|apply P_prepareHiResTextures]; exact H.
Qed.

Lemma P_tweenCompleted (n : nat) (w : World) :
  P (react w) -> P (react (tweenCompleted E n w)).
Proof.
  intros H. unfold tweenCompleted. case_match; [|exact H].
  unfold runTweenCallback. repeat case_match; cbn; auto.
Qed.

Lemma P_becameVisible (w : World) : P (react w) -> P (react (becameVisible w)).
Proof. intros H. unfold becameVisible. case_match; cbn; auto. Qed.

(** A callback of an earlier closure changes the React state as it would in
    its own closure. *)
Lemma P_inOld (k : nat) (f : World -> World) (w : World) :
  (forall w0, P (react w0) -> P (react (f w0))) ->
  P (react w) -> P (react (inOld k f w)).
Proof.
  intros Hf H. unfold inOld. destruct (old w !! k) as [sc|]; [|exact H].
  cbn [react]. apply Hf. exact H.
Qed.

Lemma react_guiHoverColor (v : string) (w : World) :
  react (settled (guiHoverColor E v w)) = react w.
Proof.
  unfold guiHoverColor, redrawHighlight, redrawClick, drawCountry.
  repeat case_match; simplify_eq/=; reflexivity.
Qed.

Lemma P_step (ev : Event) (w : World) :
  (forall k net, ev = WeatherSettled k net -> okW k net) ->
  (forall k a, ev = SummarySettled k a -> okS k a) ->
  P (react w) -> P (react (step E ev w)).
Proof.
  intros Hok HokS H. destruct ev; cbn [step].
  - unfold handleClick. destruct hit as [uv|]; [|now apply P_revertClick].
    pose proof (P_updateMap uv true w H) as H'.
    destruct (updateMap E uv true w) as [w' b|w']; cbn in *; [|exact H'].
    destruct b; cbn; [exact H'|now apply P_revertClick].
  - unfold render. destruct (isHoverable (ix w)); cbn.
    + destruct hit as [uv|].
      * pose proof (P_updateMap uv false w H) as H'.
        destruct (updateMap E uv false w) as [w' b|w']; cbn in *; [|exact H'].
        assert (H2 : P (react (if negb b then clearHover w' else w')))
          by (destruct b; cbn; [exact H'|now apply P_clearHover]).
        set (w2 := if negb b then clearHover w' else w') in *.
        destruct (isTouchScreen (ix w2) && isHoverable (ix w2)); exact H2.
      * pose proof (P_clearHover w H) as H2.
        set (w2 := clearHover w) in *.
        destruct (isTouchScreen (ix w2) && isHoverable (ix w2)); exact H2.
    + destruct (isTouchScreen (ix w) && isHoverable (ix w)); exact H.
  - exact H.
  - exact H.
  - exact H.
  - exact H.
  - unfold rotateToRegion. case_match; cbn; auto.
  - now apply P_becameVisible.
  - now apply P_timerFired.
  - now apply P_tweenCompleted.
  - cbn. apply P_weatherSettled; [now apply Hok|exact H].
  - cbn. apply P_summarySettled; [now apply HokS|exact H].
  - unfold guiStrokeColor. now apply P_prepareHiResTextures.
  - unfold guiDefaultColor. now apply P_prepareHiResTextures.
  - now rewrite react_guiHoverColor.
  - exact H.
  - exact H.
  - exact H.
  - apply P_inOld; [apply P_timerFired|exact H].
  - apply P_inOld; [apply P_tweenCompleted|exact H].
  - apply P_inOld; [apply P_becameVisible|exact H].
  - apply P_inOld; [now intros w0 H0|exact H].
  - apply P_inOld; [now intros w0 H0|exact H].
Qed.

(** [okW] and [okS] hold of the settlements that occur. *)
Lemma P_run (evs : list Event) (w : World) :
  (forall k net, In (WeatherSettled k net) evs -> okW k net) ->
  (forall k a, In (SummarySettled k a) evs -> okS k a) ->
  P (react w) -> P (react (run E evs w)).
Proof.
  revert w. induction evs as [|ev evs IH]; intros w Hok HokS H; [exact H|].
  cbn. apply IH;
    [intros k net Hin; apply Hok; now right|intros k a Hin; apply HokS; now right|].
  apply P_step; [| |exact H].
  - intros k net ->. apply Hok. now left.
  - intros k a ->. apply HokS. now left.
Qed.
End ReactSteps.

(** ** Stale runs *)

Lemma runs_setCountryName (n : string) (r : React) :
  runs (setCountryName n r) = runs r /\ cleanup (setCountryName n r) = cleanup r /\
  clickedCountry (setCountryName n r) = clickedCountry r /\
  detail (setCountryName n r) = detail r.
Proof. now unfold setCountryName. Qed.

Lemma runs_applyWeather (o : WeatherOutcome) (k : nat) (r : React) :
  runs (applyWeather o k r) = runs r /\ cleanup (applyWeather o k r) = cleanup r /\
  clickedCountry (applyWeather o k r) = clickedCountry r.
Proof. unfold applyWeather. destruct o; destruct (mounted k r); now cbn. Qed.

Lemma runs_applySummary (a : AiResult) (k : nat) (r : React) :
  runs (applySummary a k r) = runs r /\ cleanup (applySummary a k r) = cleanup r /\
  clickedCountry (applySummary a k r) = clickedCountry r.
Proof. unfold applySummary. destruct a; destruct (mounted k r); now cbn. Qed.

Lemma runs_weatherSettled (net : Network) (k : nat) (r : React) :
  runs (weatherSettled net k r) = runs r /\ cleanup (weatherSettled net k r) = cleanup r /\
  clickedCountry (weatherSettled net k r) = clickedCountry r.
Proof.
  unfold weatherSettled. destruct (runs r !! k); [|easy].
  destruct (member k (pendingWeather r)); [|easy].
  match goal with |- context [applyWeather ?o k ?r'] =>
    destruct (runs_applyWeather o k r') as (-> & -> & ->) end.
  easy.
Qed.

Lemma runs_summarySettled (a : AiResult) (k : nat) (r : React) :
  runs (summarySettled a k r) = runs r /\ cleanup (summarySettled a k r) = cleanup r /\
  clickedCountry (summarySettled a k r) = clickedCountry r.
Proof.
  unfold summarySettled. destruct (member k (pendingSummary r)); [|easy].
  match goal with |- context [applySummary a k ?r'] =>
    destruct (runs_applySummary a k r') as (-> & -> & ->) end.
  easy.
Qed.

Lemma runs_fetch_start (E : Env) (k : nat) (r : React) :
  let r' := fetchSummary_start E k (fetchWeather_start k r) in
  runs r' = runs r /\ cleanup r' = cleanup r /\ clickedCountry r' = clickedCountry r.
Proof.
  unfold fetchSummary_start, fetchWeather_start.
  destruct (keyMissing E); [|easy]. now destruct (mounted k _).
Qed.

(** After the cleanup of the current run, no run is mounted. *)
Lemma cleanup_unmounts_all (r : React) (j : nat) (run : Run) :
  runsConsistent r ->
  match cleanup r with Some k => alter unmount k (runs r) | None => runs r end !! j = Some run ->
  isMounted run = false.
Proof.
  intros [Hm _] Hj. destruct (isMounted run) eqn:Hrun; [|reflexivity].
  destruct (cleanup r) as [k|] eqn:Hc.
  - destruct (decide (j = k)) as [->|Hne].
    + rewrite list_lookup_alter_eq in Hj.
      destruct (runs r !! k) as [r0|]; simpl in Hj; [|discriminate Hj].
      injection Hj as <-. discriminate Hrun.
    + rewrite list_lookup_alter_ne in Hj by congruence.
      specialize (Hm j run Hj Hrun). congruence.
  - specialize (Hm j run Hj Hrun). discriminate.
Qed.

Lemma runsConsistent_detailEffect (E : Env) (r : React) :
  runsConsistent r -> runsConsistent (detailEffect E r).
Proof.
  intros Hr. unfold detailEffect.
  set (runs1 := match cleanup r with Some k => alter unmount k (runs r) | None => runs r end).
  assert (Hall : forall j run, runs1 !! j = Some run -> isMounted run = false)
    by (intros j run; apply cleanup_unmounts_all; exact Hr).
  destruct (clickedCountry r) as [c|].
  - pose proof (runs_fetch_start E (length runs1)
                  (mkReact (countryName r) (Some c)
                           (resetDetail (setLoading true true (detail r)))
                           (runs1 ++ [mkRun c true]) (Some (length runs1))
                           (pendingWeather r) (pendingSummary r))) as (H1 & H2 & H3).
    cbn zeta in H1, H2, H3. cbn [runs cleanup clickedCountry] in H1, H2, H3.
    unfold runsConsistent. rewrite H1, H2, H3. repeat split.
    + intros j run Hj Hm.
      destruct (decide (j < length runs1)%nat) as [Hlt|Hge].
      * rewrite lookup_app_l in Hj by exact Hlt. rewrite (Hall j run Hj) in Hm. discriminate.
      * apply lookup_lt_Some in Hj. rewrite length_app in Hj. cbn in Hj.
        f_equal. lia.
    + intros j Hj. injection Hj as <-. rewrite length_app. cbn. lia.
    + discriminate.
  - unfold runsConsistent. cbn. repeat split.
    + intros j run Hj Hm. rewrite (Hall j run Hj) in Hm. discriminate.
    + discriminate.
Qed.

Lemma runsConsistent_setClickedCountry (E : Env) (v : option Country) (r : React) :
  runsConsistent r -> runsConsistent (setClickedCountry E v r).
Proof.
  intros Hr. unfold setClickedCountry.
  assert (Hr' : runsConsistent (mkReact (countryName r) v (detail r) (runs r) (cleanup r)
                                        (pendingWeather r) (pendingSummary r) ) \/
                (v = None /\ clickedCountry r <> None)).
  { destruct Hr as (H1 & H2 & H3). destruct v as [c|].
    - left. repeat split; auto. discriminate.
    - destruct (clickedCountry r) eqn:Hc; [right; split; [reflexivity|discriminate]|].
      left. repeat split; auto. }
  destruct v as [c|]; [|destruct (clickedCountry r) eqn:Hc; [|exact Hr]].
  - destruct Hr' as [Hr'|[? _]]; [|discriminate]. now apply runsConsistent_detailEffect.
  - (* deselecting: the effect's body takes its null branch *)
    unfold detailEffect. cbn [clickedCountry cleanup runs countryName detail
                              pendingWeather pendingSummary].
    unfold runsConsistent. cbn. repeat split.
    + intros j run Hj Hm.
      rewrite (cleanup_unmounts_all r j run Hr Hj) in Hm. discriminate.
    + discriminate.
Qed.

Lemma setClickedCountry_shape (E : Env) (v : option Country) (r : React) :
  let r' := setClickedCountry E v r in
  r' = r \/
  ((length (runs r) <= length (runs r'))%nat /\
   (cleanup r' = None \/ cleanup r' = Some (length (runs r)))).
Proof.
  unfold setClickedCountry.
  assert (Hlen : length (match cleanup r with
                         | Some k => alter unmount k (runs r) | None => runs r end)
                 = length (runs r))
    by (destruct (cleanup r); [apply length_alter|reflexivity]).
  assert (Heff : forall r0, runs r0 = runs r -> cleanup r0 = cleanup r ->
            (length (runs r) <= length (runs (detailEffect E r0)))%nat /\
            (cleanup (detailEffect E r0) = None \/
             cleanup (detailEffect E r0) = Some (length (runs r)))).
  { intros r0 Hruns Hcl. unfold detailEffect. rewrite Hruns, Hcl.
    destruct (clickedCountry r0) as [c|].
    - match goal with |- context [fetchSummary_start E ?k (fetchWeather_start ?k ?r1)] =>
        destruct (runs_fetch_start E k r1) as (-> & -> & _) end.
      cbn [runs cleanup]. rewrite length_app, Hlen. cbn. split; [lia|now right].
    - cbn [runs cleanup]. rewrite Hlen. split; [lia|now left]. }
  destruct v as [c|]; [right; now apply Heff|].
  destruct (clickedCountry r); [right; now apply Heff|now left].
Qed.

Lemma stale_setClickedCountry (E : Env) (k : nat) (v : option Country) (r : React) :
  stale k r -> stale k (setClickedCountry E v r).
Proof.
  intros [Hlt Hne].
  destruct (setClickedCountry_shape E v r) as [->|[Hlen Hcl]]; [now split|].
  split; [lia|]. destruct Hcl as [->| ->]; [discriminate|].
  intros [=]. lia.
Qed.

(** A run that is not the current one has its [isMounted] at [false]. *)
Lemma stale_unmounted (k : nat) (r : React) :
  runsConsistent r -> cleanup r <> Some k -> mounted k r = false.
Proof.
  intros [Hm _] Hne. unfold mounted.
  destruct (runs r !! k) as [run|] eqn:Hk; [|reflexivity].
  destruct (isMounted run) eqn:Hrun; [|reflexivity].
  elim Hne. now apply (Hm k run).
Qed.

Lemma mounted_pending (k : nat) (r : React) (pw ps : list nat) :
  mounted k (mkReact (countryName r) (clickedCountry r) (detail r) (runs r) (cleanup r) pw ps)
  = mounted k r.
Proof. reflexivity. Qed.

Lemma weatherSettled_unmounted (net : Network) (k : nat) (r : React) :
  mounted k r = false -> detail (weatherSettled net k r) = detail r.
Proof.
  intros Hm. unfold weatherSettled.
  destruct (runs r !! k) as [run|]; [|reflexivity].
  destruct (member k (pendingWeather r)); [|reflexivity].
  unfold applyWeather. rewrite mounted_pending, Hm.
  now destruct (weatherOutcome net (country run)).
Qed.

Lemma summarySettled_unmounted (a : AiResult) (k : nat) (r : React) :
  mounted k r = false -> detail (summarySettled a k r) = detail r.
Proof.
  intros Hm. unfold summarySettled.
  destruct (member k (pendingSummary r)); [|reflexivity].
  unfold applySummary. rewrite mounted_pending, Hm. now destruct a.
Qed.

Lemma runsConsistent_preserved (E : Env) (evs : list Event) (w : World) :
  runsConsistent (react w) -> runsConsistent (react (run E evs w)).
Proof.
  apply (P_run E runsConsistent (fun _ _ => True) (fun _ _ => True));
    [| | | |now intros|now intros].
  - intros v r. apply runsConsistent_setClickedCountry.
  - intros n r Hr. unfold runsConsistent.
    destruct (runs_setCountryName n r) as (-> & -> & -> & _). exact Hr.
  - intros net k r _ Hr. unfold runsConsistent.
    destruct (runs_weatherSettled net k r) as (-> & -> & ->). exact Hr.
  - intros a k r _ Hr. unfold runsConsistent.
    destruct (runs_summarySettled a k r) as (-> & -> & ->). exact Hr.
Qed.

Lemma stale_preserved (E : Env) (k : nat) (evs : list Event) (w : World) :
  stale k (react w) -> stale k (react (run E evs w)).
Proof.
  apply (P_run E (stale k) (fun _ _ => True) (fun _ _ => True));
    [| | | |now intros|now intros].
  - intros v r. apply stale_setClickedCountry.
  - intros n r Hr. unfold stale.
    destruct (runs_setCountryName n r) as (-> & -> & _). exact Hr.
  - intros net j r _ Hr. unfold stale.
    destruct (runs_weatherSettled net j r) as (-> & -> & _). exact Hr.
  - intros a j r _ Hr. unfold stale.
    destruct (runs_summarySettled a j r) as (-> & -> & _). exact Hr.
Qed.

Lemma runsConsistent_init (E : Env) : runsConsistent (react (init E)).
Proof. unfold runsConsistent. cbn. repeat split; intros; discriminate. Qed.

Lemma runsConsistent_reachable (E : Env) (w : World) :
  reachable E w -> runsConsistent (react w).
Proof.
  intros [evs ->]. apply runsConsistent_preserved, runsConsistent_init.
Qed.

(** C2. Take any reachable state and any run [k] of the detail effect whose
    selection has been cleared or superseded (it is no longer the run whose
    cleanup React holds). Whatever happens next, and whenever its weather chain
    or its AI call settles, with whatever result, the detail state
    ([weatherData], [countryDetails], [aiSummary], [groundingSources] and the
    two loading flags) stays as it is. Moreover every re-run of the effect, on
    a deselection or a reselection, makes the run that was current stale. *)
Theorem stale_results_never_applied (E : Env) (w : World) (k : nat) :
  reachable E w ->
  stale k (react w) ->
  (forall evs net a,
      let w' := run E evs w in
      detail (react (step E (WeatherSettled k net) w')) = detail (react w') /\
      detail (react (step E (SummarySettled k a) w')) = detail (react w')) /\
  (forall k0 v,
      cleanup (react w) = Some k0 ->
      let r' := setClickedCountry E v (react w) in
      stale k0 r' /\ mounted k0 r' = false).
Proof.
  intros Hreach Hstale. pose proof (runsConsistent_reachable E w Hreach) as Hcons. split.
  - intros evs net a w'.
    assert (Hm : mounted k (react w') = false).
    { apply stale_unmounted.
      - now apply runsConsistent_preserved.
      - now apply (stale_preserved E k evs w). }
    split; cbn [step with_react react].
    + now apply weatherSettled_unmounted.
    + now apply summarySettled_unmounted.
  - intros k0 v Hk0 r'.
    assert (Hv : clickedCountry (react w) <> None).
    { intros Hn. destruct Hcons as (_ & _ & H3). rewrite (H3 Hn) in Hk0. discriminate. }
    assert (Hst : stale k0 r').
    { destruct (setClickedCountry_shape E v (react w)) as [Heq|[Hlen Hcl]].
      - (* the setter cannot have been a no-op *)
        exfalso. unfold setClickedCountry in Heq. destruct v as [c|].
        + assert (Hc : cleanup (detailEffect E
                          (mkReact (countryName (react w)) (Some c) (detail (react w))
                                   (runs (react w)) (cleanup (react w))
                                   (pendingWeather (react w)) (pendingSummary (react w))))
                       = Some k0) by (rewrite Heq; exact Hk0).
          unfold detailEffect in Hc. cbn [clickedCountry cleanup runs] in Hc.
          match type of Hc with context [fetchSummary_start E ?j (fetchWeather_start ?j ?r1)] =>
            destruct (runs_fetch_start E j r1) as (_ & Hc' & _) end.
          cbn zeta in Hc'. rewrite Hc' in Hc. cbn [cleanup] in Hc.
          rewrite Hk0 in Hc. rewrite length_alter in Hc.
          destruct Hcons as (_ & Hlt & _). specialize (Hlt k0 Hk0).
          injection Hc as Hc. lia.
        + destruct (clickedCountry (react w)) eqn:Hcc; [|now apply Hv].
          clear Hv.
          assert (Hc : cleanup (detailEffect E
                          (mkReact (countryName (react w)) None (detail (react w))
                                   (runs (react w)) (cleanup (react w))
                                   (pendingWeather (react w)) (pendingSummary (react w))))
                       = Some k0) by (rewrite Heq; exact Hk0).
          discriminate Hc.
      - destruct Hcons as (_ & Hlt & _). specialize (Hlt k0 Hk0).
        split; [unfold r'; lia|].
        unfold r'. destruct Hcl as [->| ->]; [discriminate|]. intros [=]. lia. }
    split; [exact Hst|].
    apply stale_unmounted; [|exact (proj2 Hst)].
    now apply runsConsistent_setClickedCountry.
Qed.

Lemma demoReselected_reachable : reachable demoEnv demoReselected.
Proof.
  exists [Click (Some uvTestland); Click (Some uvExamplia)]. vm_compute. reflexivity.
Defined.

Lemma demoClicked_reachable : reachable demoEnv demoClicked.
Proof. exists [Click (Some uvTestland)]. vm_compute. reflexivity. Defined.

Lemma stale_results_never_applied_witness :
  detail (react (step demoEnv (WeatherSettled 0 demoNet) (run demoEnv [] demoReselected)))
    = detail (react (run demoEnv [] demoReselected)) /\
  detail (react (step demoEnv (SummarySettled 0 (AiResponse (Some "Late news.") None))
                      (run demoEnv [] demoReselected)))
    = detail (react (run demoEnv [] demoReselected)).
Proof.
  assert (Hs : stale 0 (react demoReselected))
    by (split; [vm_compute; lia|vm_compute; discriminate]).
  exact (proj1 (stale_results_never_applied demoEnv demoReselected 0
                  demoReselected_reachable Hs)
               [] demoNet (AiResponse (Some "Late news.") None)).
Defined.

(** ** Re-clicking *)

(** C3. When [idx] is the clicked index already, [handleCountryClick(idx)]
    returns at once and leaves every closure variable and every state cell as
    it was: no [setClickedCountry] (so the detail effect does not re-run and
    nothing is fetched), no redraw of the click canvas, no tween, no timer.
    Accordingly a click whose ray resolves to that country changes nothing. *)
Theorem reclick_is_noop (E : Env) (idx : Z) (w : World) :
  clickedCountryIdx (ix w) = idx ->
  handleCountryClick E idx w = Return w tt /\
  (forall uv, context2d E = true -> inRange E idx = true -> pickIndex E uv = idx ->
              updateMap E uv true w = Return w true /\
              step E (Click (Some uv)) w = w).
Proof.
  intros Hidx. split; [now apply handleCountryClick_same|].
  intros uv Hctx Hin Hpick.
  assert (Hu : updateMap E uv true w = Return w true).
  { unfold updateMap. rewrite Hctx, Hpick, Hin. cbn [negb].
    now rewrite (handleCountryClick_same E idx w Hidx). }
  split; [exact Hu|]. cbn [step]. unfold handleClick. now rewrite Hu.
Qed.

Lemma reclick_is_noop_witness :
  handleCountryClick demoEnv 0 demoClicked = Return demoClicked tt /\
  step demoEnv (Click (Some uvTestland)) demoClicked = demoClicked.
Proof.
  assert (Hin : inRange demoEnv 0 = true) by (vm_compute; reflexivity).
  assert (Hpick : pickIndex demoEnv uvTestland = 0) by (vm_compute; reflexivity).
  pose proof (reclick_is_noop demoEnv 0 demoClicked eq_refl) as [H1 H2].
  split; [exact H1|].
  exact (proj2 (H2 uvTestland eq_refl Hin Hpick)).
Defined.


(** ** Handlers as moves *)

(** [updateMap] never throws, and ends in one of four ways. *)
Lemma updateMap_cases (E : Env) (uv : UV) (isClick : bool) (w : World) :
  updateMap E uv isClick w = Return w false \/
  updateMap E uv isClick w = Return w true \/
  (exists p, isClick = true /\ pathAt E (pickIndex E uv) = Some p /\
             clickedCountryIdx (ix w) <> pickIndex E uv /\
             updateMap E uv isClick w = Return (clickedWorld E (pickIndex E uv) p w) true) \/
  (exists p, isClick = false /\ pathAt E (pickIndex E uv) = Some p /\
             pickIndex E uv <> hoveredCountryIdx (ix w) /\
             updateMap E uv isClick w = Return (hoveredWorld E (pickIndex E uv) p w) true).
Proof.
  destruct (context2d E) eqn:Hctx;
    [|left; unfold updateMap; now rewrite Hctx].
  destruct (inRange E (pickIndex E uv)) eqn:Hin;
    [|left; now apply updateMap_miss].
  destruct (proj1 (pathAt_inRange E _) Hin) as [p Hp].
  destruct isClick.
  - destruct (Z.eq_dec (clickedCountryIdx (ix w)) (pickIndex E uv)) as [Heq|Hne].
    + right; left. unfold updateMap. rewrite Hctx, Hin. cbn [negb].
      now rewrite (handleCountryClick_same E _ w Heq).
    + right; right; left. exists p. repeat split; try assumption.
      unfold updateMap. rewrite Hctx, Hin. cbn [negb].
      now rewrite (handleCountryClick_new E _ p w Hne Hp).
  - destruct (Z.eq_dec (pickIndex E uv) (hoveredCountryIdx (ix w))) as [Heq|Hne].
    + right; left. rewrite (updateMap_hover_same E uv w Heq). now rewrite Hctx, Hin.
    + right; right; right. exists p. repeat split; try assumption.
      now apply updateMap_hover_new.
Qed.

(** The hover colour control redraws the highlight and the click canvas and
    touches nothing else. *)
Lemma guiHoverColor_same (E : Env) (v : string) (w : World) :
  let w' := settled (guiHoverColor E v w) in
  ix w' = ix w /\ meshes w' = meshes w /\ sched w' = sched w /\ react w' = react w /\
  motion w' = motion w /\ old w' = old w /\
  mapCanvas (tex w') = mapCanvas (tex w) /\ strokesCanvas (tex w') = strokesCanvas (tex w).
Proof.
  cbn zeta. unfold guiHoverColor, redrawHighlight, redrawClick, drawCountry.
  repeat case_match; simplify_eq/=; repeat split; reflexivity.
Qed.

Lemma timerFired_moves (E : Env) (h : nat) (w : World) :
  rtc (Move E) w (timerFired E h w).
Proof.
  unfold timerFired. destruct (find _ _) as [t|]; [|apply rtc_refl].
  eapply rtc_l; [apply (move_timerGone E h)|].
  destruct (callback t); apply rtc_once; [apply move_revert|apply move_hiRes].
Qed.

Ltac unfold_move :=
  unfold clickedWorld, hoveredWorld, revertClick, clearHover, setHoverable, handleWheel,
    handleTouchStart, controlsStart, controlsEnd, rotateToRegion, setAutoRotate,
    becameVisible, prepareHiResTextures, tweenCompleted, runTweenCallback, setHoverable,
    setAutoRotate, guiNightLights, motionToggled, mount,
    with_sched, with_ix, with_meshes, with_tex, with_react, with_colors, gsap_to, kill,
    setTimeout.

(** The browser never gives a handle out twice. *)
Lemma nextHandle_move (E : Env) (w w' : World) :
  Move E w w' -> (nextHandle (sched w) <= nextHandle (sched w'))%nat.
Proof.
  intros Hm. destruct Hm;
    try (rewrite (proj1 (proj2 (proj2 (guiHoverColor_same E v w)))); lia);
    unfold_move; cbn; repeat case_match; cbn; lia.
Qed.

Lemma nextHandle_moves (E : Env) (w w' : World) :
  rtc (Move E) w w' -> (nextHandle (sched w) <= nextHandle (sched w'))%nat.
Proof.
  induction 1 as [|w0 w1 w2 H01 _ IH]; [lia|].
  pose proof (nextHandle_move E w0 w1 H01). lia.
Qed.

Lemma inOld_moves (E : Env) (k : nat) (f : World -> World) (w : World) :
  (forall w0, rtc (Move E) w0 (f w0)) -> rtc (Move E) w (inOld k f w).
Proof.
  intros Hf. unfold inOld. destruct (old w !! k) as [sc|] eqn:Hk; [|apply rtc_refl].
  apply rtc_once. apply (move_old E k sc); [exact Hk|].
  match goal with |- (_ <= nextHandle (sched (f ?w0)))%nat =>
    exact (nextHandle_moves E w0 (f w0) (Hf w0)) end.
Qed.

Lemma step_moves (E : Env) (ev : Event) (w : World) : rtc (Move E) w (step E ev w).
Proof.
  destruct ev; cbn [step].
  - (* Click *)
    unfold handleClick. destruct hit as [uv|]; cbn [settled];
      [|apply rtc_once, move_revert].
    destruct (updateMap_cases E uv true w) as [H|[H|[(p & _ & Hp & Hne & H)|(p & Hf & _)]]];
      try discriminate; rewrite H; cbn [settled negb].
    + apply rtc_once, move_revert.
    + apply rtc_refl.
    + apply rtc_once. now apply move_click.
  - (* Frame *)
    unfold render.
    assert (Htouch : forall w0 w1, rtc (Move E) w0 w1 ->
              rtc (Move E) w0 (if isTouchScreen (ix w1) && isHoverable (ix w1)
                               then setHoverable false w1 else w1)).
    { intros w0 w1 H01. destruct (isTouchScreen (ix w1) && isHoverable (ix w1)); [|exact H01].
      eapply rtc_r; [exact H01|apply move_hoverable]. }
    destruct (isHoverable (ix w)) eqn:Hh; [|cbn [settled]; apply Htouch, rtc_refl].
    destruct hit as [uv|]; [|cbn [settled]; apply Htouch, rtc_once, move_clearHover].
    destruct (updateMap_cases E uv false w) as [H|[H|[(p & Hf & _)|(p & _ & Hp & Hne & H)]]];
      try discriminate; rewrite H; cbn [settled negb]; apply Htouch.
    + apply rtc_once, move_clearHover.
    + apply rtc_refl.
    + apply rtc_once. now apply move_hover.
  - apply rtc_once, move_wheel.
  - apply rtc_once, move_touch.
  - apply rtc_once, move_controlsStart.
  - apply rtc_once, move_controlsEnd.
  - apply rtc_once, move_rotate.
  - apply rtc_once, move_visible.
  - apply timerFired_moves.
  - apply rtc_once, move_tween.
  - apply rtc_once, move_weather.
  - apply rtc_once, move_summary.
  - unfold guiStrokeColor. cbv zeta. eapply rtc_l; cycle 1;
      [apply rtc_once, move_hiRes|apply move_colors; reflexivity].
  - unfold guiDefaultColor. cbv zeta. eapply rtc_l; cycle 1;
      [apply rtc_once, move_hiRes|apply move_colors; reflexivity].
  - apply rtc_once, move_hoverColor.
  - apply rtc_once, move_colors. reflexivity.
  - apply rtc_once, move_nightLights.
  - apply rtc_once, move_mount.
  - apply inOld_moves. intros w0. apply timerFired_moves.
  - apply inOld_moves. intros w0. apply rtc_once, move_tween.
  - apply inOld_moves. intros w0. apply rtc_once, move_visible.
  - apply inOld_moves. intros w0. apply rtc_once, move_controlsStart.
  - apply inOld_moves. intros w0. apply rtc_once, move_controlsEnd.
Qed.

Lemma run_moves (E : Env) (evs : list Event) (w : World) : rtc (Move E) w (run E evs w).
Proof.
  revert w. induction evs as [|ev evs IH]; intros w; [apply rtc_refl|].
  cbn. eapply rtc_trans; [apply step_moves|apply IH].
Qed.

(** An invariant of the moves that holds initially holds in every reachable
    state. *)
Lemma reachable_ind (E : Env) (I : World -> Prop) :
  I (init E) ->
  (forall w w', Move E w w' -> I w -> I w') ->
  forall w, reachable E w -> I w.
Proof.
  intros Hinit Hmove w [evs ->].
  apply (rtc_ind_r I (init E) Hinit) with (2 := run_moves E evs (init E)).
  intros w0 w1 _ H01 H0. now apply (Hmove w0 w1).
Qed.

(** ** Invariants, move by move *)


(** The moves that leave the timers and [clickTimeout] alone. *)
Lemma timers_untouched (E : Env) (w w' : World) :
  Move E w w' ->
  (timers (sched w') = timers (sched w) /\
   (nextHandle (sched w) <= nextHandle (sched w'))%nat /\
   clickTimeout (ix w') = clickTimeout (ix w)) \/
  (exists idx p, w' = clickedWorld E idx p w) \/
  (w' = becameVisible w) \/
  (exists h, w' = with_sched (clearTimeout h (sched w)) w) \/
  (w' = motionToggled E w).
Proof.
  intros Hm. destruct Hm;
    try (left; destruct (guiHoverColor_same E v w) as (-> & _ & -> & _);
         repeat split; (reflexivity || lia));
    try (left; unfold_move; repeat case_match; cbn; repeat split; (reflexivity || lia)).
  - right; left. eauto.
  - right; right; left. reflexivity.
  - right; right; right; left. eauto.
  - right; right; right; right. reflexivity.
Qed.

Lemma In_clearTimeout (h : nat) (s : Scheduler) (t : Timer) :
  In t (timers (clearTimeout h s)) <-> In t (timers s) /\ handle t <> h.
Proof.
  unfold clearTimeout. cbn [timers]. rewrite filter_In.
  rewrite negb_true_iff, Nat.eqb_neq. reflexivity.
Qed.

Lemma timersOk_move (E : Env) (w w' : World) : Move E w w' -> timersOk w -> timersOk w'.
Proof.
  intros Hm [Ht Hc].
  destruct (timers_untouched E w w' Hm)
    as [(H1 & H2 & H3)|[(idx & p & ->)|[->|[(h & ->)| ->]]]].
  - unfold timersOk. rewrite H1, H3. split.
    + intros t Hin. destruct (Ht t Hin). split; [lia|assumption].
    + intros h Hh. specialize (Hc h Hh). lia.
  - (* a click: the remembered timeout is cleared, a new one is set and remembered *)
    unfold timersOk, clickedWorld, setTimeout. cbn [sched ix timers nextHandle clickTimeout snd].
    assert (Hn : forall s0, nextHandle
                (match clickTimeout (ix w) with
                 | Some h => clearTimeout h s0 | None => s0 end) = nextHandle s0)
      by (intros s0; now destruct (clickTimeout (ix w))).
    rewrite Hn. cbn [gsap_to kill nextHandle]. split.
    + intros t Hin. apply in_app_or in Hin as [Hin|[<-|[]]].
      * assert (Hold : In t (timers (sched w)) /\
                       forall h, clickTimeout (ix w) = Some h -> handle t <> h).
        { destruct (clickTimeout (ix w)) as [h|].
          - apply In_clearTimeout in Hin as [Hin Hne]. cbn in Hin.
            split; [exact Hin|]. now intros h' [= <-].
          - cbn in Hin. split; [exact Hin|discriminate]. }
        destruct Hold as [Hold Hne]. destruct (Ht t Hold) as [Hlt Hcb].
        split; [lia|]. intros Hr. specialize (Hcb Hr). now elim (Hne _ Hcb).
      * cbn. split; [lia|reflexivity].
    + intros h [= <-]. lia.
  - (* the observer fires *)
    unfold timersOk, becameVisible. destruct (observing (sched w)); [|now split].
    cbn. split.
    + intros t Hin. apply in_app_or in Hin as [Hin|[<-|[]]].
      * destruct (Ht t Hin). split; [lia|assumption].
      * cbn. split; [lia|discriminate].
    + intros h Hh. specialize (Hc h Hh). lia.
  - (* a timeout fires or is cleared *)
    unfold timersOk. cbn [with_sched sched ix]. rewrite nextHandle_clearTimeout. split.
    + intros t Hin. apply In_clearTimeout in Hin as [Hin _]. now apply Ht.
    + exact Hc.
  - (* the scene effect runs again: its closure has no timeout yet *)
    split; [intros t []|discriminate].
Qed.

Lemma timersOk_reachable (E : Env) (w : World) : reachable E w -> timersOk w.
Proof.
  apply (reachable_ind E timersOk).
  - split; [intros t []|discriminate].
  - apply timersOk_move.
Qed.

Lemma motion_move (E : Env) (w w' : World) :
  Move E w w' -> motion w' = motion w \/ w' = motionToggled E w.
Proof.
  intros Hm. destruct Hm; try (now right);
    left; try (apply (guiHoverColor_same E v w));
    unfold_move; repeat case_match; cbn; congruence.
Qed.

Lemma rotationOk_move (E : Env) (w w' : World) :
  Move E w w' -> rotationOk w -> rotationOk w'.
Proof.
  intros Hm H. destruct (motion_move E w w' Hm) as [Hsame| ->].
  - unfold rotationOk in *. rewrite Hsame. intros Hdm. specialize (H Hdm).
    destruct Hm; try (exfalso; cbn in Hsame; rewrite Hdm in Hsame; discriminate);
      try (rewrite (proj1 (proj2 (guiHoverColor_same E v w))); exact H);
      clear Hsame; unfold_move; rewrite ?Hdm;
      repeat case_match; cbn; try exact H; try reflexivity; try discriminate.
    all: unfold arrive; destruct (target _); exact H.
  - unfold rotationOk, motionToggled, mount. cbn. now intros ->.
Qed.

Lemma rotationOk_reachable (E : Env) (w : World) : reachable E w -> rotationOk w.
Proof.
  apply (reachable_ind E rotationOk).
  - intros Hdm. cbn in *. now rewrite Hdm.
  - apply rotationOk_move.
Qed.

(** ** The zoom target *)

Lemma ltb_leb (a b : float) : PrimFloat.ltb a b = true -> PrimFloat.leb a b = true.
Proof.
  rewrite ltb_spec, leb_spec. unfold SFltb, SFleb.
  now destruct (SFcompare (Prim2SF a) (Prim2SF b)) as [[]|].
Qed.

(** The clamp of [handleWheel] lands in [0.8, 3] for every number. *)
Lemma clamp_in_bounds (x : float) :
  is_nan x = false -> zoomInBounds (Math_max 0.8 (Math_min 3 x)) = true.
Proof.
  intros Hx. unfold Math_min. change (is_nan 3) with false. rewrite Hx. cbn match.
  destruct (PrimFloat.ltb x 3) eqn:H3; [|reflexivity].
  unfold Math_max. change (is_nan 0.8) with false. rewrite Hx. cbn match.
  destruct (PrimFloat.ltb 0.8 x) eqn:H8; [|reflexivity].
  unfold zoomInBounds. now rewrite (ltb_leb _ _ H8), (ltb_leb _ _ H3).
Qed.

Lemma memf_In (z : float) (l : list float) : memf z l = true -> In z l.
Proof.
  unfold memf. rewrite existsb_exists. intros (y & Hy & Heq).
  apply FloatAxioms.Leibniz.eqb_spec in Heq. now subst.
Qed.

(** [zoomValues] holds [1] and [1.5], is closed under both wheel steps, and
    lies within the bounds: checked by evaluation, on the 38 values. *)
Lemma zoomValues_closed :
  forallb (fun z => memf (wheelTarget z 0.3) zoomValues &&
                    memf (wheelTarget z (-0.3)) zoomValues &&
                    zoomInBounds z) zoomValues = true /\
  memf 1 zoomValues = true /\ memf 1.5 zoomValues = true.
Proof. vm_compute. repeat split. Qed.

Lemma zoomValues_step (z : float) :
  In z zoomValues ->
  In (wheelTarget z 0.3) zoomValues /\ In (wheelTarget z (-0.3)) zoomValues /\
  zoomInBounds z = true.
Proof.
  intros Hz. destruct zoomValues_closed as (Hall & _ & _).
  rewrite forallb_forall in Hall. specialize (Hall z Hz).
  apply andb_true_iff in Hall as [Hall Hb]. apply andb_true_iff in Hall as [Hup Hdown].
  repeat split; [now apply memf_In|now apply memf_In|exact Hb].
Qed.

Lemma zoom_move (E : Env) (w w' : World) :
  Move E w w' -> In (targetZoom (ix w)) zoomValues -> In (targetZoom (ix w')) zoomValues.
Proof.
  intros Hm H.
  assert (H1 : In 1%float zoomValues) by (apply memf_In; apply zoomValues_closed).
  assert (H15 : In 1.5%float zoomValues) by (apply memf_In; apply zoomValues_closed).
  destruct Hm; try (rewrite (proj1 (guiHoverColor_same E v w)); exact H);
    unfold_move; repeat case_match; cbn; try exact H; try exact H1; try exact H15.
  all: try (fold (wheelTarget (targetZoom (ix w)) (-0.3));
            now apply (zoomValues_step _ H)).
  all: try (fold (wheelTarget (targetZoom (ix w)) 0.3);
            now apply (zoomValues_step _ H)).
Qed.

(** C10. The zoom target starts at [1] and, whatever events the component
    handles (wheel turns in either direction, clicks that hit or miss, timers
    firing, frames, drags, region buttons, promises settling, changes in the
    GUI panel, the scene effect running again), it stays
    within [0.8, 3]: a wheel turn moves it by [0.3] and clamps the sum, a click
    on a country sets it to [1.5], a revert sets it to [1]. The arithmetic is
    that of binary64 floats. *)
Theorem zoom_target_bounded (E : Env) :
  targetZoom (ix (init E)) = 1%float /\
  (forall evs,
     zoomInBounds (targetZoom (ix (run E evs (init E)))) = true /\
     forall deltaY,
       targetZoom (ix (step E (Wheel deltaY) (run E evs (init E))))
         = Math_max 0.8 (Math_min 3 (targetZoom (ix (run E evs (init E)))
                                     + (if PrimFloat.ltb 0 deltaY then -0.3 else 0.3))%float)
       /\ zoomInBounds (targetZoom (ix (step E (Wheel deltaY) (run E evs (init E))))) = true).
Proof.
  split; [reflexivity|]. intros evs.
  assert (Hin : forall evs', In (targetZoom (ix (run E evs' (init E)))) zoomValues).
  { intros evs'. apply (reachable_ind E (fun w => In (targetZoom (ix w)) zoomValues)).
    - apply memf_In. apply zoomValues_closed.
    - apply zoom_move.
    - now exists evs'. }
  split; [apply zoomValues_step, Hin|].
  intros deltaY. split; [reflexivity|].
  apply zoomValues_step.
  specialize (Hin (evs ++ [Wheel deltaY])).
  unfold run in Hin. rewrite fold_left_app in Hin. exact Hin.
Qed.

(** ** Selecting a country *)

Lemma select_effect (E : Env) (c : Country) (r : React) :
  let r' := setClickedCountry E (Some c) r in
  let n := length (runs r) in
  runs r' = match cleanup r with
            | Some k => alter unmount k (runs r) | None => runs r end ++ [mkRun c true] /\
  cleanup r' = Some n /\
  clickedCountry r' = Some c /\
  detail r' = freshDetail E /\
  pendingWeather r' = pendingWeather r ++ [n] /\
  pendingSummary r' = (if keyMissing E then pendingSummary r else pendingSummary r ++ [n]) /\
  countryName r' = countryName r.
Proof.
  cbn zeta. unfold setClickedCountry, detailEffect.
  cbn [clickedCountry cleanup runs countryName detail pendingWeather pendingSummary].
  set (runs1 := match cleanup r with
                | Some k => alter unmount k (runs r) | None => runs r end).
  assert (Hlen : length runs1 = length (runs r))
    by (unfold runs1; destruct (cleanup r); [apply length_alter|reflexivity]).
  unfold fetchSummary_start, fetchWeather_start, freshDetail, mounted.
  cbn [clickedCountry cleanup runs countryName detail pendingWeather pendingSummary].
  rewrite lookup_app_r by lia. rewrite Nat.sub_diag. cbn [lookup list_lookup isMounted].
  rewrite Hlen. destruct (keyMissing E); cbn; repeat split.
Qed.

Lemma mounted_current (E : Env) (c : Country) (r : React) :
  mounted (length (runs r)) (setClickedCountry E (Some c) r) = true.
Proof.
  destruct (select_effect E c r) as (Hruns & _). unfold mounted. rewrite Hruns.
  assert (Hlen : length (match cleanup r with
                         | Some k => alter unmount k (runs r) | None => runs r end)
                 = length (runs r))
    by (destruct (cleanup r); [apply length_alter|reflexivity]).
  rewrite lookup_app_r by lia. rewrite Hlen, Nat.sub_diag. reflexivity.
Qed.

Lemma filter_none {A} (f : A -> bool) (l : list A) :
  (forall x, In x l -> f x = false) -> List.filter f l = [].
Proof.
  induction l as [|x l IH]; intros H; [reflexivity|]. cbn.
  rewrite (H x (or_introl eq_refl)). apply IH. intros y Hy. apply H. now right.
Qed.

Lemma member_app_last (k : nat) (l : list nat) : member k (l ++ [k]) = true.
Proof.
  unfold member. rewrite existsb_app. cbn. rewrite Nat.eqb_refl. now rewrite orb_true_r.
Qed.

Lemma weatherSettled_mounted (net : Network) (k : nat) (run0 : Run) (r : React) :
  runs r !! k = Some run0 -> isMounted run0 = true -> member k (pendingWeather r) = true ->
  let o := weatherOutcome net (country run0) in
  let dt := detail (weatherSettled net k r) in
  countryDetails dt = match shownDetails o with
                      | Some x => Some x | None => countryDetails (detail r) end /\
  weatherData dt = match shownWeather o with
                   | Some x => Some x | None => weatherData (detail r) end /\
  isLoadingWeather dt = false /\
  aiSummary dt = aiSummary (detail r) /\
  groundingSources dt = groundingSources (detail r) /\
  isLoadingSummary dt = isLoadingSummary (detail r).
Proof.
  intros Hk Hm Hp. cbn zeta. unfold weatherSettled. rewrite Hk, Hp.
  unfold applyWeather. rewrite mounted_pending. unfold mounted. rewrite Hk, Hm.
  destruct (weatherOutcome net (country run0)); cbn; repeat split.
Qed.

Lemma summarySettled_mounted (a : AiResult) (k : nat) (r : React) :
  mounted k r = true -> member k (pendingSummary r) = true ->
  let dt := detail (summarySettled a k r) in
  aiSummary dt = Some (match a with
                       | AiThrew => "Failed to load summary."
                       | AiResponse (Some t) _ => str_or t "No summary available."
                       | AiResponse None _ => "No summary available."
                       end) /\
  groundingSources dt = match a with
                        | AiResponse _ (Some l) => uniqueSources l
                        | _ => groundingSources (detail r)
                        end /\
  isLoadingSummary dt = false.
Proof.
  intros Hm Hp. cbn zeta. unfold summarySettled. rewrite Hp.
  unfold applySummary. rewrite mounted_pending, Hm.
  destruct a as [|[t|] [l|]]; now repeat split.
Qed.

(** The first request of the weather chain names the clicked country. *)
Lemma bind_fetchCountry_first {B} (net : Network) (url : string)
    (f : bool * option (list CountryJson) -> Async B) :
  exists rest, fst (bind (fetchCountry net url) f) = GetCountry url :: rest.
Proof.
  unfold bind, fetchCountry. destruct (restcountries net url) as [|ok body].
  - now exists [].
  - destruct (f (ok, body)) as [l' b]. now exists l'.
Qed.

Lemma weatherRequests_first (net : Network) (c : Country) :
  exists rest, weatherRequests net c = GetCountry (nameFullTextUrl c) :: rest.
Proof. unfold weatherRequests, fetchWeather. apply bind_fetchCountry_first. Qed.

Lemma tweensOf_clicked (E : Env) (idx : Z) (p : CountryPath) (w : World) :
  tweensOf ClickedMeshScale (clickedWorld E idx p w)
  = [mkTween ClickedMeshScale (xyz 1.02) 0.5 (Some "back.out(1.5)") NoCallback].
Proof.
  unfold tweensOf, clickedWorld, setTimeout. cbn [sched snd tweens].
  assert (Ht : forall s0, tweens (match clickTimeout (ix w) with
                                  | Some h => clearTimeout h s0 | None => s0 end) = tweens s0)
    by (intros s0; now destruct (clickTimeout (ix w))).
  rewrite Ht. cbn [gsap_to kill tweens]. rewrite <- app_assoc, List.filter_app.
  unfold killTweensOf. rewrite filter_none; [reflexivity|].
  intros tw Htw. apply filter_In in Htw as [_ Htw].
  now apply negb_true_iff in Htw.
Qed.

Lemma timers_clicked (E : Env) (idx : Z) (p : CountryPath) (w : World) :
  timers (sched (clickedWorld E idx p w))
  = match clickTimeout (ix w) with
    | Some h => timers (clearTimeout h (sched w))
    | None => timers (sched w)
    end ++ [mkTimer (nextHandle (sched w)) 3000 RevertClick].
Proof.
  unfold clickedWorld, setTimeout. cbn [sched snd timers].
  destruct (clickTimeout (ix w)); reflexivity.
Qed.

(** X19. Reselecting within one run of the scene effect. Country A is clicked
    in the running closure, its revert timeout [h] is pending, and the click
    lands on another country B. Then [handleCountryClick] goes through and:
    no pending timeout of the closure carries A's handle, and its only
    pending timeout that reverts a click is the new, 3000 ms one, which
    [clickTimeout] now remembers; the tweens on the click ring's scale are the
    new one alone; the selection is B; the detail state is the fresh one
    (cleared, loading); A's run is unmounted and B's run is the current one.
    B's weather chain is in flight and starts with the lookup of B by its
    full name; with an API key B's AI call is in flight too. Results of any
    run other than B's leave the detail state as it is, while B's weather
    chain and B's AI call, when they settle, are what shows. *)
Theorem reselect_cancels_previous (E : Env) (w : World) (a b : Z) (p : CountryPath)
    (h k : nat) :
  reachable E w ->
  clickedCountryIdx (ix w) = a -> a <> b ->
  pathAt E b = Some p ->
  clickTimeout (ix w) = Some h ->
  In (mkTimer h 3000 RevertClick) (timers (sched w)) ->
  cleanup (react w) = Some k ->
  let B := mkCountry (str_or (name p) "") (str_or (id p) "") in
  let w' := clickedWorld E b p w in
  let n := length (runs (react w)) in
  handleCountryClick E b w = Return w' tt /\
  (forall t, In t (timers (sched w')) -> handle t <> h) /\
  revertTimers w' = [mkTimer (nextHandle (sched w)) 3000 RevertClick] /\
  clickTimeout (ix w') = Some (nextHandle (sched w)) /\
  tweensOf ClickedMeshScale w'
    = [mkTween ClickedMeshScale (xyz 1.02) 0.5 (Some "back.out(1.5)") NoCallback] /\
  clickedCountryIdx (ix w') = b /\
  clickedCountry (react w') = Some B /\
  detail (react w') = freshDetail E /\
  mounted k (react w') = false /\
  cleanup (react w') = Some n /\
  runs (react w') !! n = Some (mkRun B true) /\
  member n (pendingWeather (react w')) = true /\
  (forall net, exists rest,
     weatherRequests net B = GetCountry (nameFullTextUrl B) :: rest) /\
  (if keyMissing E then pendingSummary (react w') = pendingSummary (react w)
   else member n (pendingSummary (react w')) = true) /\
  (forall j net ai, j <> n ->
     detail (react (step E (WeatherSettled j net) w')) = detail (react w') /\
     detail (react (step E (SummarySettled j ai) w')) = detail (react w')) /\
  (forall net,
     let dt := detail (react (step E (WeatherSettled n net) w')) in
     countryDetails dt = shownDetails (weatherOutcome net B) /\
     weatherData dt = shownWeather (weatherOutcome net B) /\
     isLoadingWeather dt = false) /\
  (keyMissing E = false ->
   forall ai,
     let dt := detail (react (step E (SummarySettled n ai) w')) in
     aiSummary dt = Some (match ai with
                          | AiThrew => "Failed to load summary."
                          | AiResponse (Some t) _ => str_or t "No summary available."
                          | AiResponse None _ => "No summary available."
                          end) /\
     groundingSources dt = match ai with
                           | AiResponse _ (Some l) => uniqueSources l
                           | _ => []
                           end /\
     isLoadingSummary dt = false).
Proof.
  intros Hreach Ha Hab Hp Hct Hpending Hk B w' n.
  pose proof (timersOk_reachable E w Hreach) as [Ht Hc].
  pose proof (runsConsistent_reachable E w Hreach) as Hcons.
  assert (Hne : clickedCountryIdx (ix w) <> b) by congruence.
  destruct (select_effect E B (react w)) as (Hruns & Hcl & Hcc & Hdt & Hpw & Hps & _).
  assert (Hreact : react w' = setClickedCountry E (Some B) (react w)) by reflexivity.
  assert (Hcons' : runsConsistent (react w'))
    by (rewrite Hreact; now apply runsConsistent_setClickedCountry).
  assert (Htimers : timers (sched w')
                    = timers (clearTimeout h (sched w))
                      ++ [mkTimer (nextHandle (sched w)) 3000 RevertClick])
    by (unfold w'; rewrite timers_clicked, Hct; reflexivity).
  assert (Hfresh : (h < nextHandle (sched w))%nat) by now apply Hc.
  assert (Hrun : runs (react w') !! n = Some (mkRun B true)).
  { rewrite Hreact, Hruns. rewrite Hk, lookup_app_r by (rewrite length_alter; lia).
    rewrite length_alter. fold n. now rewrite Nat.sub_diag. }
  assert (Hmounted : mounted n (react w') = true) by (unfold mounted; now rewrite Hrun).
  assert (Hk_lt : (k < n)%nat)
    by (destruct Hcons as (_ & Hlt & _); exact (Hlt k Hk)).
  split; [now apply handleCountryClick_new|].
  split.
  { intros t Hin. rewrite Htimers in Hin. apply in_app_or in Hin as [Hin|[<-|[]]].
    - now apply In_clearTimeout in Hin.
    - cbn. lia. }
  split.
  { unfold revertTimers. rewrite Htimers, List.filter_app. rewrite filter_none; [reflexivity|].
    intros t Hin. apply In_clearTimeout in Hin as [Hin Hh].
    destruct (Ht t Hin) as [_ Hcb]. unfold isRevert.
    destruct (callback t); [|reflexivity].
    specialize (Hcb eq_refl). rewrite Hct in Hcb. injection Hcb as Hcb. now elim Hh. }
  split; [reflexivity|].
  split; [apply tweensOf_clicked|].
  split; [reflexivity|].
  split; [rewrite Hreact; exact Hcc|].
  split; [rewrite Hreact; exact Hdt|].
  split.
  { apply stale_unmounted; [exact Hcons'|]. rewrite Hreact, Hcl. intros [=]. lia. }
  split; [rewrite Hreact; exact Hcl|].
  split; [exact Hrun|].
  split; [rewrite Hreact, Hpw; apply member_app_last|].
  split; [intros net; apply weatherRequests_first|].
  split.
  { rewrite Hreact, Hps. destruct (keyMissing E); [reflexivity|apply member_app_last]. }
  split.
  { intros j net ai Hj. cbn [step with_react react].
    assert (Hst : mounted j (react w') = false).
    { apply stale_unmounted; [exact Hcons'|]. rewrite Hreact, Hcl. intros [= Heq].
      unfold n in *. lia. }
    split; [now apply weatherSettled_unmounted|now apply summarySettled_unmounted]. }
  split.
  { intros net. cbn zeta. cbn [step with_react react].
    destruct (weatherSettled_mounted net n (mkRun B true) (react w') Hrun eq_refl)
      as (H1 & H2 & H3 & _).
    { rewrite Hreact, Hpw. apply member_app_last. }
    cbn [country] in H1, H2. rewrite H1, H2, H3, Hreact, Hdt.
    unfold freshDetail.
    destruct (shownDetails _); destruct (shownWeather _); destruct (keyMissing E);
      repeat split. }
  intros Hkey ai. cbn zeta. cbn [step with_react react].
  destruct (summarySettled_mounted ai n (react w') Hmounted) as (H1 & H2 & H3).
  { rewrite Hreact, Hps, Hkey. apply member_app_last. }
  rewrite H1, H2, H3, Hreact, Hdt. unfold freshDetail. rewrite Hkey.
  destruct ai as [|t [l|]]; repeat split.
Qed.

Lemma reselect_cancels_previous_witness :
  handleCountryClick demoEnv 1 demoClicked
    = Return (clickedWorld demoEnv 1 examplia demoClicked) tt /\
  revertTimers (clickedWorld demoEnv 1 examplia demoClicked) = [mkTimer 2 3000 RevertClick] /\
  mounted 0 (react (clickedWorld demoEnv 1 examplia demoClicked)) = false.
Proof.
  assert (Hab : (0 : Z) <> 1) by discriminate.
  assert (Hin : In (mkTimer 1 3000 RevertClick) (timers (sched demoClicked)))
    by (left; reflexivity).
  pose proof (reselect_cancels_previous demoEnv demoClicked 0 1 examplia 1 0
                demoClicked_reachable eq_refl Hab eq_refl eq_refl Hin eq_refl) as H.
  cbn zeta in H. destruct H as (H1 & _ & H3 & _ & _ & _ & _ & _ & H9 & _).
  split; [exact H1|split; [exact H3|exact H9]].
Defined.

(** C4. The claim fails when the scene effect runs again between the two
    clicks. Testland (A) is clicked; [isDeviceMotionActive] changes; Examplia
    (B) is clicked before A's 3 s are over. The second click is handled by
    the new closure, whose [clickTimeout] is [null]: A's timeout, handle [1],
    is still pending and the tween on the first closure's click ring is
    still there. B is selected and its detail is loading. When A's timeout
    fires, the first closure's [revertClick] calls [setClickedCountry(null)]:
    the selection and the detail state are cleared although B is the clicked
    country of the running closure, whose own timeout is still pending. *)
Theorem rerun_leaves_timeout_pending :
  demoRerun = run demoEnv [Click (Some uvTestland); MotionToggled; Click (Some uvExamplia)]
                  (init demoEnv) /\
  clickedCountryIdx (ix demoRerun) = 1 /\
  clickedCountry (react demoRerun) = Some (mkCountry "Examplia" "EX") /\
  detail (react demoRerun) = freshDetail demoEnv /\
  revertTimers demoRerun = [mkTimer 2 3000 RevertClick] /\
  (exists sc,
     old demoRerun !! 0%nat = Some sc /\
     clickedCountryIdx (s_ix sc) = 0 /\
     clickTimeout (s_ix sc) = Some 1%nat /\
     timers (s_sched sc) = [mkTimer 1 3000 RevertClick] /\
     In (mkTween ClickedMeshScale (xyz 1.02) 0.5 (Some "back.out(1.5)") NoCallback)
        (tweens (s_sched sc))) /\
  let w := step demoEnv (OldTimerFired 0 1) demoRerun in
  clickedCountry (react w) = None /\
  detail (react w) = mkDetail None None true None true [] /\
  cleanup (react w) = None /\
  mounted 1 (react w) = false /\
  clickedCountryIdx (ix w) = 1 /\
  revertTimers w = [mkTimer 2 3000 RevertClick] /\
  clickedVisible (meshes w) = true.
Proof.
  split; [vm_compute; reflexivity|].
  split; [reflexivity|]. split; [reflexivity|]. split; [reflexivity|].
  split; [reflexivity|].
  split.
  { eexists. split; [reflexivity|]. split; [reflexivity|]. split; [reflexivity|].
    split; [reflexivity|]. vm_compute. tauto. }
  vm_compute. repeat split.
Qed.

(** ** Entering and leaving the clicked state *)

Lemma revertClick_clicked (E : Env) (w : World) :
  clickedCountryIdx (ix w) <> -1 ->
  let w' := revertClick E w in
  clickedCountryIdx (ix w') = -1 /\
  clickedCountry (react w') = None /\
  targetZoom (ix w') = 1%float /\
  In (cameraTween 1 0.8 "power2.inOut") (tweens (sched w')) /\
  autoRotate (meshes w')
    = (if motion w then autoRotate (meshes w) else true) /\
  timers (sched w') = timers (sched w).
Proof.
  intros Hne. cbn zeta. unfold revertClick.
  destruct (clickedCountryIdx (ix w) =? -1) eqn:Heq; [apply Z.eqb_eq in Heq; contradiction|].
  cbn [ix react meshes sched targetZoom clickedCountryIdx autoRotate]. repeat split.
  - unfold setClickedCountry. destruct (clickedCountry (react w)) eqn:Hc; [|exact Hc].
    unfold detailEffect. reflexivity.
  - unfold gsap_to. cbn [tweens]. apply in_or_app. right. now left.
  - now destruct (motion w).
Qed.

Lemma revertClick_idle (E : Env) (w : World) :
  clickedCountryIdx (ix w) = -1 -> revertClick E w = w.
Proof. intros H. unfold revertClick. now rewrite H. Qed.

(** C5, as amended (see [revert_counterexample]). In a reachable state:
    a click whose ray resolves to a country [idx] that is not the clicked one
    enters the clicked state: [clickedCountry] is that country's name and id,
    [targetZoom] is [1.5] and the camera is tweened to it, auto-rotate is off,
    and a 3000 ms timeout that reverts the click is pending and remembered.
    A click that hits nothing, and the expiry of a revert timeout, while a
    country is clicked, revert: [clickedCountry] is null, [targetZoom] is [1]
    with the camera tweened to it, and auto-rotate is back on unless device
    motion drives the globe (then it stays off; [motion w] is the
    [isDeviceMotionActive] that the running scene effect captured). While no country is clicked
    the same two events leave the interaction state, the meshes and the React
    state as they are. *)
Theorem click_enters_revert_leaves (E : Env) (w : World) :
  reachable E w ->
  (forall uv p,
      context2d E = true ->
      pathAt E (pickIndex E uv) = Some p ->
      clickedCountryIdx (ix w) <> pickIndex E uv ->
      let w' := step E (Click (Some uv)) w in
      clickedCountryIdx (ix w') = pickIndex E uv /\
      clickedCountry (react w') = Some (mkCountry (str_or (name p) "") (str_or (id p) "")) /\
      targetZoom (ix w') = 1.5%float /\
      In (cameraTween 1.5 0.8 "power2.out") (tweens (sched w')) /\
      autoRotate (meshes w') = false /\
      clickTimeout (ix w') = Some (nextHandle (sched w)) /\
      In (mkTimer (nextHandle (sched w)) 3000 RevertClick) (timers (sched w'))) /\
  (forall w',
      (w' = step E (Click None) w \/
       (exists uv, (context2d E = false \/ inRange E (pickIndex E uv) = false) /\
                   w' = step E (Click (Some uv)) w) \/
       (exists h t, find (fun t => Nat.eqb (handle t) h) (timers (sched w)) = Some t /\
                    callback t = RevertClick /\ w' = step E (TimerFired h) w)) ->
      (clickedCountryIdx (ix w) <> -1 ->
         clickedCountryIdx (ix w') = -1 /\
         clickedCountry (react w') = None /\
         targetZoom (ix w') = 1%float /\
         In (cameraTween 1 0.8 "power2.inOut") (tweens (sched w')) /\
         autoRotate (meshes w') = negb (motion w)) /\
      (clickedCountryIdx (ix w) = -1 ->
         ix w' = ix w /\ meshes w' = meshes w /\ react w' = react w /\ tex w' = tex w /\
         tweens (sched w') = tweens (sched w))).
Proof.
  intros Hreach. pose proof (rotationOk_reachable E w Hreach) as Hrot. split.
  - intros uv p Hctx Hp Hne. cbn zeta. cbn [step]. unfold handleClick.
    assert (Hin : inRange E (pickIndex E uv) = true) by (apply pathAt_inRange; eauto).
    assert (Hu : updateMap E uv true w = Return (clickedWorld E (pickIndex E uv) p w) true).
    { unfold updateMap. rewrite Hctx, Hin. cbn [negb].
      now rewrite (handleCountryClick_new E _ p w Hne Hp). }
    rewrite Hu. cbn [settled negb].
    split; [reflexivity|]. split.
    { destruct (select_effect E (mkCountry (str_or (name p) "") (str_or (id p) ""))
                              (react w)) as (_ & _ & Hcc & _). exact Hcc. }
    split; [reflexivity|]. split.
    { unfold clickedWorld, setTimeout. cbn [sched snd].
      assert (Ht : forall s0, tweens (match clickTimeout (ix w) with
                                      | Some h => clearTimeout h s0 | None => s0 end)
                              = tweens s0)
        by (intros s0; now destruct (clickTimeout (ix w))).
      cbn [tweens]. rewrite Ht. cbn [gsap_to tweens].
      apply in_or_app. right. now left. }
    split.
    { unfold clickedWorld. cbn [meshes autoRotate].
      destruct (motion w) eqn:Hdm; [now apply Hrot|reflexivity]. }
    split; [reflexivity|].
    rewrite timers_clicked. apply in_or_app. right. now left.
  - intros w' Hw'.
    assert (Hrev : exists w0, w' = revertClick E w0 /\ ix w0 = ix w /\ meshes w0 = meshes w /\
                              react w0 = react w /\ tex w0 = tex w /\
                              tweens (sched w0) = tweens (sched w) /\
                              motion w0 = motion w).
    { destruct Hw' as [->|[(uv & Hmiss & ->)|(h & t & Hfind & Hcb & ->)]].
      - exists w. now repeat split.
      - exists w. cbn [step]. unfold handleClick.
        assert (Hu : updateMap E uv true w = Return w false).
        { destruct Hmiss as [Hctx|Hin]; [|now apply updateMap_miss].
          unfold updateMap. now rewrite Hctx. }
        rewrite Hu. now repeat split.
      - exists (with_sched (clearTimeout h (sched w)) w). cbn [step]. unfold timerFired.
        rewrite Hfind, Hcb. now repeat split. }
    destruct Hrev as (w0 & -> & Hix & Hmesh & Hreact & Htex & Htw & Hmo). split.
    + intros Hne. rewrite <- Hix in Hne.
      destruct (revertClick_clicked E w0 Hne) as (H1 & H2 & H3 & H4 & H5 & _).
      repeat split; try assumption.
      rewrite H5, Hmesh, Hmo. destruct (motion w) eqn:Hdm; [now apply Hrot|reflexivity].
    + intros Heq. rewrite <- Hix in Heq. rewrite (revertClick_idle E w0 Heq).
      now repeat split.
Qed.

(** The claim as stated fails in two ways. Under device motion, with Testland
    clicked, a click that hits nothing reverts the click but leaves
    auto-rotate off. And with no country clicked and the zoom target at [1.3]
    after a wheel turn, a click that hits nothing does not bring the zoom
    target back to [1]. *)
Lemma revert_counterexample :
  (reachable tiltEnv tiltClicked /\
   clickedCountryIdx (ix tiltClicked) = 0 /\
   clickedCountry (react (step tiltEnv (Click None) tiltClicked)) = None /\
   autoRotate (meshes (step tiltEnv (Click None) tiltClicked)) = false) /\
  (reachable demoEnv demoZoomed /\
   targetZoom (ix (step demoEnv (Click None) demoZoomed)) = 1.3%float /\
   PrimFloat.eqb (targetZoom (ix (step demoEnv (Click None) demoZoomed))) 1 = false).
Proof.
  split; (split; [|vm_compute; repeat split]).
  - exists [Click (Some uvTestland)]. vm_compute. reflexivity.
  - exists [Wheel (-100)]. vm_compute. reflexivity.
Qed.

Lemma click_enters_revert_leaves_witness :
  targetZoom (ix (step demoEnv (Click (Some uvExamplia)) demoClicked)) = 1.5%float /\
  clickedCountry (react (step demoEnv (Click None) demoClicked)) = None /\
  autoRotate (meshes (step demoEnv (Click None) demoClicked)) = true.
Proof.
  pose proof (click_enters_revert_leaves demoEnv demoClicked demoClicked_reachable)
    as [Henter Hleave].
  assert (Hp : pathAt demoEnv (pickIndex demoEnv uvExamplia) = Some examplia)
    by (vm_compute; reflexivity).
  assert (Hne : clickedCountryIdx (ix demoClicked) <> pickIndex demoEnv uvExamplia)
    by (vm_compute; discriminate).
  assert (Hclicked : clickedCountryIdx (ix demoClicked) <> -1) by (vm_compute; discriminate).
  destruct (Henter uvExamplia examplia eq_refl Hp Hne) as (_ & _ & H3 & _).
  destruct (Hleave (step demoEnv (Click None) demoClicked) (or_introl eq_refl))
    as [Hrev _].
  destruct (Hrev Hclicked) as (_ & H2 & _ & _ & H5).
  split; [exact H3|split; [exact H2|exact H5]].
Defined.

(** ** Hovering *)

Lemma render_returns (E : Env) (hit : option UV) (w : World) :
  exists w', render E hit w = Return w' tt.
Proof.
  unfold render. destruct (isHoverable (ix w)); [|eauto].
  destruct hit as [uv|]; [|eauto].
  destruct (updateMap_cases E uv false w) as [H|[H|[(p & _ & _ & _ & H)|(p & _ & _ & _ & H)]]];
    rewrite H; eauto.
Qed.

(** C6. While the pointer ray resolves to the index that is hovered already,
    [updateMap] changes nothing: no redraw of the highlight canvas, no
    [setCountryName], no tween; and the frame that calls it leaves textures,
    meshes, tweens, timers and React state alone. When [updateMap] does
    redraw, for a hover or for a click, the base map and stroke canvases stay
    as they are, a hover leaves the click canvas and a click the highlight
    canvas as they are, and the canvas that is redrawn holds the fill and the
    stroke of the one affected country, in the colours [params] holds at that
    moment: the highlight canvas after a hover that moved to another country,
    the click canvas after a click on a country that is not the clicked one. *)
Theorem hover_redraw_only_on_change (E : Env) (uv : UV) (w : World) :
  pickIndex E uv = hoveredCountryIdx (ix w) ->
  updateMap E uv false w = Return w (context2d E && inRange E (pickIndex E uv)) /\
  (context2d E = true -> inRange E (pickIndex E uv) = true ->
   let w' := step E (Frame (Some uv)) w in
   tex w' = tex w /\ meshes w' = meshes w /\ sched w' = sched w /\ react w' = react w /\
   hoveredCountryIdx (ix w') = hoveredCountryIdx (ix w)) /\
  (forall uv' isClick w0,
     let t' := tex (settled (updateMap E uv' isClick w0)) in
     mapCanvas t' = mapCanvas (tex w0) /\ strokesCanvas t' = strokesCanvas (tex w0) /\
     (isClick = false -> clickCanvas t' = clickCanvas (tex w0)) /\
     (isClick = true -> highlightCanvas t' = highlightCanvas (tex w0))) /\
  (forall uv' p w0,
     context2d E = true ->
     pathAt E (pickIndex E uv') = Some p ->
     pickIndex E uv' <> hoveredCountryIdx (ix w0) ->
     let w1 := settled (updateMap E uv' false w0) in
     hoveredCountryIdx (ix w1) = pickIndex E uv' /\
     countryName (react w1) = str_or (name p) "" /\
     ops (highlightCanvas (tex w1))
       = [Fill (hoverColor (colors w0)) Params.lowResScalingFactor (d p);
          Stroke (strokeColor (colors w0)) (Params.strokeWidth * 1)%float
                 Params.lowResScalingFactor (d p)]) /\
  (forall uv' p w0,
     context2d E = true ->
     pathAt E (pickIndex E uv') = Some p ->
     pickIndex E uv' <> clickedCountryIdx (ix w0) ->
     let w1 := settled (updateMap E uv' true w0) in
     clickedCountryIdx (ix w1) = pickIndex E uv' /\
     hoveredCountryIdx (ix w1) = hoveredCountryIdx (ix w0) /\
     countryName (react w1) = countryName (react w0) /\
     ops (clickCanvas (tex w1))
       = [Fill (hoverColor (colors w0)) Params.lowResScalingFactor (d p);
          Stroke (clickedColor (colors w0)) (Params.strokeWidth * 4)%float
                 Params.lowResScalingFactor (d p)]).
Proof.
  intros Hsame. split; [now apply updateMap_hover_same|]. split; [|split; [|split]].
  - intros Hctx Hin. cbn zeta. cbn [step]. unfold render.
    rewrite (updateMap_hover_same E uv w Hsame), Hctx, Hin. cbn [andb negb].
    destruct (isHoverable (ix w)) eqn:Hh; cbn [settled].
    + rewrite Hh, andb_true_r. now destruct (isTouchScreen (ix w)).
    + rewrite Hh, andb_false_r. now repeat split.
  - intros uv' isClick w0. cbn zeta.
    destruct (updateMap_cases E uv' isClick w0)
      as [H|[H|[(p & -> & _ & _ & H)|(p & -> & _ & _ & H)]]];
      rewrite H; cbn [settled]; repeat split; try reflexivity; try discriminate.
  - intros uv' p w0 Hctx Hp Hne. cbn zeta.
    rewrite (updateMap_hover_new E uv' p w0 Hctx Hp Hne). cbn [settled]. now repeat split.
  - intros uv' p w0 Hctx Hp Hne. cbn zeta.
    assert (Hin : inRange E (pickIndex E uv') = true) by (apply pathAt_inRange; eauto).
    assert (Hu : updateMap E uv' true w0
                 = Return (clickedWorld E (pickIndex E uv') p w0) true).
    { unfold updateMap. rewrite Hctx, Hin. cbn [negb].
      rewrite (handleCountryClick_new E _ p w0); [reflexivity|congruence|exact Hp]. }
    rewrite Hu. cbn [settled].
    split; [reflexivity|]. split; [reflexivity|].
    split.
    { destruct (select_effect E (mkCountry (str_or (name p) "") (str_or (id p) ""))
                              (react w0)) as (_ & _ & _ & _ & _ & _ & Hn). exact Hn. }
    unfold clickedWorld. cbn [tex with_click clickCanvas]. now rewrite Hctx.
Qed.

Lemma hover_redraw_only_on_change_witness :
  updateMap demoEnv uvTestland false (hoveredWorld demoEnv 0 testland demoClicked)
  = Return (hoveredWorld demoEnv 0 testland demoClicked) true.
Proof.
  exact (proj1 (hover_redraw_only_on_change demoEnv uvTestland
                  (hoveredWorld demoEnv 0 testland demoClicked)
                  (eq_refl : pickIndex demoEnv uvTestland = 0))).
Defined.

(** ** The detail requests *)

Lemma alphaUrl_not_nameUrl (c c' : Country) : alphaUrl c <> nameUrl c'.
Proof. unfold alphaUrl, nameUrl. cbn. discriminate. Qed.

(** Both settlements rewrite disjoint parts of the React state, so they
    commute. *)
Lemma weatherSettled_unfold (net : Network) (k : nat) (r : React) :
  weatherSettled net k r
  = match runs r !! k with
    | Some run0 =>
        if member k (pendingWeather r)
        then mkReact (countryName r) (clickedCountry r)
                     (if isMounted run0
                      then weatherPart (weatherOutcome net (country run0)) (detail r)
                      else detail r)
                     (runs r) (cleanup r) (remove_nat k (pendingWeather r)) (pendingSummary r)
        else r
    | None => r
    end.
Proof.
  unfold weatherSettled. destruct (runs r !! k) as [run0|] eqn:Hk; [|reflexivity].
  destruct (member k (pendingWeather r)); [|reflexivity].
  unfold applyWeather. rewrite mounted_pending. unfold mounted. rewrite Hk.
  destruct (weatherOutcome net (country run0)); destruct (isMounted run0); reflexivity.
Qed.

Lemma summarySettled_unfold (a : AiResult) (k : nat) (r : React) :
  summarySettled a k r
  = if member k (pendingSummary r)
    then mkReact (countryName r) (clickedCountry r)
                 (if mounted k r then summaryPart a (detail r) else detail r)
                 (runs r) (cleanup r) (pendingWeather r) (remove_nat k (pendingSummary r))
    else r.
Proof.
  unfold summarySettled. destruct (member k (pendingSummary r)); [|reflexivity].
  unfold applySummary. rewrite mounted_pending.
  destruct a as [|text chunks]; destruct (mounted k r); reflexivity.
Qed.

Lemma parts_commute (o : WeatherOutcome) (a : AiResult) (dt : Detail) :
  summaryPart a (weatherPart o dt) = weatherPart o (summaryPart a dt).
Proof. destruct o; destruct a as [|text [l|]]; reflexivity. Qed.

(** Both settlements rewrite disjoint parts of the React state, so they
    commute. *)
Lemma settlements_commute (net : Network) (a : AiResult) (k k' : nat) (r : React) :
  summarySettled a k' (weatherSettled net k r) = weatherSettled net k (summarySettled a k' r).
Proof.
  rewrite (weatherSettled_unfold net k r), (summarySettled_unfold a k' r).
  destruct (runs r !! k) as [run0|] eqn:Hk;
    destruct (member k (pendingWeather r)) eqn:Hw;
    destruct (member k' (pendingSummary r)) eqn:Hs;
    rewrite ?weatherSettled_unfold, ?summarySettled_unfold; unfold mounted;
    cbn [runs pendingWeather pendingSummary detail countryName clickedCountry cleanup];
    rewrite ?Hk, ?Hw, ?Hs; try reflexivity.
  destruct (runs r !! k') as [run1|]; [|reflexivity].
  destruct (isMounted run0); destruct (isMounted run1); try reflexivity.
  now rewrite parts_commute.
Qed.

Lemma weatherSettled_summary_part (net : Network) (k : nat) (r : React) :
  aiSummary (detail (weatherSettled net k r)) = aiSummary (detail r) /\
  groundingSources (detail (weatherSettled net k r)) = groundingSources (detail r) /\
  isLoadingSummary (detail (weatherSettled net k r)) = isLoadingSummary (detail r) /\
  pendingSummary (weatherSettled net k r) = pendingSummary r /\
  runs (weatherSettled net k r) = runs r.
Proof.
  unfold weatherSettled. destruct (runs r !! k) as [run0|]; [|now repeat split].
  destruct (member k (pendingWeather r)); [|now repeat split].
  unfold applyWeather. rewrite mounted_pending.
  destruct (weatherOutcome net (country run0)); destruct (mounted k r); now repeat split.
Qed.

Lemma summarySettled_weather_part (a : AiResult) (k : nat) (r : React) :
  weatherData (detail (summarySettled a k r)) = weatherData (detail r) /\
  countryDetails (detail (summarySettled a k r)) = countryDetails (detail r) /\
  isLoadingWeather (detail (summarySettled a k r)) = isLoadingWeather (detail r) /\
  pendingWeather (summarySettled a k r) = pendingWeather r /\
  runs (summarySettled a k r) = runs r.
Proof.
  unfold summarySettled. destruct (member k (pendingSummary r)); [|now repeat split].
  unfold applySummary. rewrite mounted_pending.
  destruct a as [|text [chunks|]]; destruct (mounted k r); now repeat split.
Qed.

Ltac unfold_fetch :=
  unfold weatherRequests, weatherOutcome, fetchWeather, fetchCountry, fetchForecast,
    json, bind, ret, throw.

Lemma first_request (net : Network) (c : Country) :
  exists rest, weatherRequests net c = GetCountry (nameFullTextUrl c) :: rest.
Proof.
  unfold_fetch. cbn [fst snd app].
  destruct (restcountries net (nameFullTextUrl c)); cbn; [eauto|].
  repeat (case_match; cbn; eauto).
Qed.

Lemma second_request (net : Network) (c : Country) (ok1 : bool)
    (body1 : option (list CountryJson)) :
  restcountries net (nameFullTextUrl c) = Responded ok1 body1 ->
  (weatherRequests net c !! 1%nat = Some (GetCountry (alphaUrl c))
   <-> ok1 = false /\ c_id c <> "").
Proof.
  intros H1. pose proof (alphaUrl_not_nameUrl c c) as Hurl.
  unfold_fetch. rewrite H1. cbn [fst snd].
  destruct ok1; cbn [negb andb].
  - split; [|intros [? _]; discriminate].
    intros H. exfalso. revert H. cbn.
    repeat (case_match; simplify_eq/=; try discriminate).
  - destruct (String.eqb (c_id c) "") eqn:Hid; cbn [negb].
    + apply String.eqb_eq in Hid. split; [|intros [_ Hne]; contradiction].
      intros H. exfalso. revert H. cbn.
      repeat (case_match; simplify_eq/=; try discriminate); intros [= Heq]; now elim Hurl.
    + apply String.eqb_neq in Hid. split; [intros _; now split|intros _].
      cbn. repeat (case_match; simplify_eq/=; try reflexivity).
Qed.

Lemma code_lookup_result (net : Network) (c : Country) (body1 : option (list CountryJson))
    (cj : CountryJson) (l : list CountryJson) (lat lng : float) (cw : CurrentWeather) :
  restcountries net (nameFullTextUrl c) = Responded false body1 ->
  c_id c <> "" ->
  restcountries net (alphaUrl c) = Responded true (Some (cj :: l)) ->
  capitalInfo_latlng cj = Some (lat, lng) ->
  openmeteo net lat lng = Responded true (Some (mkForecast (Some cw))) ->
  weatherRequests net c
    = [GetCountry (nameFullTextUrl c); GetCountry (alphaUrl c); GetForecast lat lng] /\
  shownDetails (weatherOutcome net c)
    = Some (mkDetails (cj_population cj) (cj_region cj) (cj_subregion cj)
                      (joinNames (cj_currencies cj)) (joinNames (cj_languages cj))
                      (match capital_0 cj with
                       | Some s => str_or s "Capital" | None => "Capital" end)).
Proof.
  intros H1 Hid H2 Hll Hw. apply String.eqb_neq in Hid.
  unfold_fetch. rewrite H1. cbn [fst snd negb andb]. rewrite Hid. cbn [negb].
  rewrite H2. cbn [fst snd negb app]. rewrite Hll. cbn [fst snd app].
  rewrite Hw. cbn. split; reflexivity.
Qed.

(** Inside the weather chain the requests do depend on each other: the
    forecast is asked for the coordinates the country lookup gave, and the
    country details are set only after the forecast has arrived. When the
    forecast request fails, no details are shown although the lookup
    succeeded. *)
Lemma details_need_forecast (net : Network) (c : Country) (cj : CountryJson)
    (l : list CountryJson) (lat lng : float) :
  restcountries net (nameFullTextUrl c) = Responded true (Some (cj :: l)) ->
  capitalInfo_latlng cj = Some (lat, lng) ->
  openmeteo net lat lng = Rejected ->
  weatherRequests net c = [GetCountry (nameFullTextUrl c); GetForecast lat lng] /\
  weatherOutcome net c = Failed.
Proof.
  intros H1 Hll Hw. unfold_fetch. rewrite H1. cbn [fst snd negb andb app].
  rewrite Hll. cbn [fst snd app]. rewrite Hw. cbn. split; reflexivity.
Qed.

(** C7. The country is looked up by name first; the lookup by code is the
    second request exactly when the name lookup answered "not ok" and the
    clicked country has an id, and its answer, when ok, is where the details
    come from. A selection starts both the weather chain and (given an API
    key) the AI call. The two settle independently: in either order the state
    is the same, what the panel shows of the summary is what the AI call alone
    determines, whatever the weather chain did (failures included), and what
    it shows of the country and the weather is what the weather chain alone
    determines, whatever the AI call did. *)
Theorem detail_requests_independent (E : Env) (net : Network) (c : Country) :
  (exists rest, weatherRequests net c = GetCountry (nameFullTextUrl c) :: rest) /\
  (forall ok1 body1,
     restcountries net (nameFullTextUrl c) = Responded ok1 body1 ->
     (weatherRequests net c !! 1%nat = Some (GetCountry (alphaUrl c))
      <-> ok1 = false /\ c_id c <> "")) /\
  (forall body1 cj l lat lng cw,
     restcountries net (nameFullTextUrl c) = Responded false body1 ->
     c_id c <> "" ->
     restcountries net (alphaUrl c) = Responded true (Some (cj :: l)) ->
     capitalInfo_latlng cj = Some (lat, lng) ->
     openmeteo net lat lng = Responded true (Some (mkForecast (Some cw))) ->
     weatherRequests net c
       = [GetCountry (nameFullTextUrl c); GetCountry (alphaUrl c); GetForecast lat lng] /\
     shownDetails (weatherOutcome net c)
       = Some (mkDetails (cj_population cj) (cj_region cj) (cj_subregion cj)
                         (joinNames (cj_currencies cj)) (joinNames (cj_languages cj))
                         (match capital_0 cj with
                          | Some s => str_or s "Capital" | None => "Capital" end))) /\
  (forall r,
     let r' := setClickedCountry E (Some c) r in
     member (length (runs r)) (pendingWeather r') = true /\
     (keyMissing E = false -> member (length (runs r)) (pendingSummary r') = true)) /\
  (forall r k a,
     let both := summarySettled a k (weatherSettled net k r) in
     both = weatherSettled net k (summarySettled a k r) /\
     (aiSummary (detail both) = aiSummary (detail (summarySettled a k r)) /\
      groundingSources (detail both) = groundingSources (detail (summarySettled a k r)) /\
      isLoadingSummary (detail both) = isLoadingSummary (detail (summarySettled a k r))) /\
     (weatherData (detail both) = weatherData (detail (weatherSettled net k r)) /\
      countryDetails (detail both) = countryDetails (detail (weatherSettled net k r)) /\
      isLoadingWeather (detail both) = isLoadingWeather (detail (weatherSettled net k r)))) /\
  (forall r k a,
     runs r !! k = Some (mkRun c true) ->
     member k (pendingWeather r) = true -> member k (pendingSummary r) = true ->
     weatherOutcome net c = Failed ->
     let dt := detail (summarySettled a k (weatherSettled net k r)) in
     aiSummary dt = Some (match a with
                          | AiThrew => "Failed to load summary."
                          | AiResponse (Some t) _ => str_or t "No summary available."
                          | AiResponse None _ => "No summary available."
                          end) /\
     isLoadingSummary dt = false /\
     weatherData dt = weatherData (detail r) /\
     countryDetails dt = countryDetails (detail r) /\
     isLoadingWeather dt = false) /\
  (forall r k,
     runs r !! k = Some (mkRun c true) -> member k (pendingWeather r) = true ->
     let dt := detail (weatherSettled net k (summarySettled AiThrew k r)) in
     countryDetails dt = match shownDetails (weatherOutcome net c) with
                         | Some x => Some x | None => countryDetails (detail r) end /\
     weatherData dt = match shownWeather (weatherOutcome net c) with
                      | Some x => Some x | None => weatherData (detail r) end).
Proof.
  split; [apply first_request|]. split; [apply second_request|].
  split; [apply code_lookup_result|]. split; [|split; [|split]].
  - intros r. cbn zeta. destruct (select_effect E c r) as (_ & _ & _ & _ & Hpw & Hps & _).
    rewrite Hpw, Hps. split; [apply member_app_last|].
    intros ->. apply member_app_last.
  - intros r k a. cbn zeta. split; [apply settlements_commute|]. split.
    + rewrite settlements_commute.
      destruct (weatherSettled_summary_part net k (summarySettled a k r)) as (H1 & H2 & H3 & _).
      now repeat split.
    + destruct (summarySettled_weather_part a k (weatherSettled net k r)) as (H1 & H2 & H3 & _).
      now repeat split.
  - intros r k a Hk Hpw Hp Hfail. cbn zeta.
    destruct (weatherSettled_summary_part net k r) as (_ & _ & _ & Hps & Hruns).
    destruct (summarySettled_mounted a k (weatherSettled net k r)) as (H1 & _ & H3).
    { unfold mounted. now rewrite Hruns, Hk. }
    { now rewrite Hps. }
    destruct (summarySettled_weather_part a k (weatherSettled net k r)) as (Hwd & Hcd & Hlw & _).
    destruct (weatherSettled_mounted net k (mkRun c true) r Hk eq_refl Hpw)
      as (H4 & H5 & H6 & _).
    cbn [country] in H4, H5. rewrite Hfail in H4, H5. cbn in H4, H5.
    rewrite Hwd, Hcd, Hlw. now repeat split.
  - intros r k Hk Hp. cbn zeta.
    destruct (summarySettled_weather_part AiThrew k r) as (Hwd & Hcd & _ & Hpw & Hruns).
    destruct (weatherSettled_mounted net k (mkRun c true) (summarySettled AiThrew k r))
      as (H1 & H2 & _).
    + now rewrite Hruns.
    + reflexivity.
    + now rewrite Hpw.
    + cbn [country] in H1, H2. rewrite H1, H2, Hwd, Hcd. split; reflexivity.
Qed.

Lemma detail_requests_independent_witness :
  weatherRequests demoNet (mkCountry "Examplia" "EX")
    = [GetCountry "https://restcountries.com/v3.1/name/Examplia?fullText=true";
       GetCountry "https://restcountries.com/v3.1/alpha/EX";
       GetForecast 30 40] /\
  aiSummary (detail (summarySettled (AiResponse (Some "News.") None) 0
                       (weatherSettled deadNet 0 (react demoClicked))))
    = Some "News.".
Proof.
  pose proof (detail_requests_independent demoEnv demoNet (mkCountry "Examplia" "EX"))
    as (_ & _ & H3 & _).
  pose proof (detail_requests_independent demoEnv deadNet (mkCountry "Testland" "TL"))
    as (_ & _ & _ & _ & _ & H6 & _).
  assert (Hid : c_id (mkCountry "Examplia" "EX") <> "") by discriminate.
  split.
  - exact (proj1 (H3 None exampliaJson [] 30%float 40%float (mkCurrentWeather 21.5 12 3)
                     eq_refl Hid eq_refl eq_refl eq_refl)).
  - exact (proj1 (H6 (react demoClicked) 0%nat (AiResponse (Some "News.") None)
                     eq_refl eq_refl eq_refl eq_refl)).
Defined.

(** ** The AI summary's fallbacks *)

(** C8. Without an API key, a selection sets the summary to the fixed text
    "Gemini API key not configured." at once, clears the loading flag and
    issues no AI call. When [generateContent] throws while its run is still
    the mounted one, the summary becomes the fixed text "Failed to load
    summary." and the loading flag is cleared. Neither touches the scene
    (interaction state, meshes, textures, tweens and timers), and the frame
    after still renders without throwing. *)
Theorem summary_fallbacks (E : Env) :
  (keyMissing E = true ->
   forall c r,
     let r' := setClickedCountry E (Some c) r in
     aiSummary (detail r') = Some "Gemini API key not configured." /\
     isLoadingSummary (detail r') = false /\
     pendingSummary r' = pendingSummary r) /\
  (forall k r,
     mounted k r = true -> member k (pendingSummary r) = true ->
     let r' := summarySettled AiThrew k r in
     aiSummary (detail r') = Some "Failed to load summary." /\
     isLoadingSummary (detail r') = false) /\
  (forall k a w,
     let w' := step E (SummarySettled k a) w in
     ix w' = ix w /\ meshes w' = meshes w /\ tex w' = tex w /\ sched w' = sched w /\
     forall hit, exists w'', render E hit w' = Return w'' tt).
Proof.
  split; [|split].
  - intros Hkey c r. cbn zeta.
    destruct (select_effect E c r) as (_ & _ & _ & Hdt & _ & Hps & _).
    rewrite Hdt, Hps. unfold freshDetail. rewrite Hkey. now repeat split.
  - intros k r Hm Hp. cbn zeta.
    destruct (summarySettled_mounted AiThrew k r Hm Hp) as (H1 & _ & H3). now split.
  - intros k a w. cbn zeta. cbn [step]. repeat split. intros hit. apply render_returns.
Qed.

Lemma summary_fallbacks_witness :
  aiSummary (detail (react keylessClicked)) = Some "Gemini API key not configured." /\
  aiSummary (detail (summarySettled AiThrew 0 (react demoClicked)))
    = Some "Failed to load summary.".
Proof.
  split.
  - exact (proj1 (proj1 (summary_fallbacks keylessEnv) eq_refl
                        (mkCountry "Testland" "TL") (react (init keylessEnv)))).
  - exact (proj1 (proj1 (proj2 (summary_fallbacks demoEnv)) 0%nat (react demoClicked)
                        eq_refl eq_refl)).
Defined.

(** ** The camera view *)

(** C9. When [getUserMedia] rejects in a run of [setupCamera] that is turning
    the camera on, [error] becomes "Could not access camera" and [isCameraOn]
    goes back to [false]: the banner shows that text, the video is not shown
    and the button offers to turn the camera on again. The stream and the
    stopped tracks are as before. *)
Theorem camera_denied (videoRef : bool) (s : CameraView.State) :
  let s' := CameraView.setupCamera true videoRef CameraView.Denied s in
  CameraView.error s' = Some "Could not access camera" /\
  CameraView.isCameraOn s' = false /\
  CameraView.banner s' = Some "Could not access camera" /\
  CameraView.videoShown s' = false /\
  CameraView.buttonTitle s' = "Turn on camera" /\
  CameraView.srcObject s' = CameraView.srcObject s /\
  CameraView.stopped s' = CameraView.stopped s.
Proof. cbn. repeat split. Qed.

(** * Further properties *)

(** ** Keys of the picking buffer *)

Lemma pickingColor_bytes (i : nat) :
  0 <= red (pickingColor i) < 256 /\ 0 <= green (pickingColor i) < 256 /\
  0 <= blue (pickingColor i) < 256.
Proof.
  unfold pickingColor, js_and. cbn [red green blue].
  rewrite (toInt32_small 255) by lia.
  repeat split;
    match goal with |- context [Z.land ?a 255] =>
      pose proof (land_255_range a); rewrite (toInt32_small (Z.land a 255)) by lia; lia
    end.
Qed.

(** X1. Every fill style of the picking buffer is a colour of three bytes,
    whatever the index. Below [2^24 - 1] countries no key is the background's
    black and no two countries share a key: the colours of two indices are
    equal only if the indices are. *)
Theorem picking_keys_distinct (i j : nat) :
  (0 <= red (pickingColor i) < 256 /\ 0 <= green (pickingColor i) < 256 /\
   0 <= blue (pickingColor i) < 256) /\
  (Z.of_nat i + 1 < 2 ^ 24 ->
   opaque (pickingColor i) <> mkPixel 0 0 0 255 /\
   (Z.of_nat j + 1 < 2 ^ 24 -> pickingColor i = pickingColor j -> i = j)).
Proof.
  split; [apply pickingColor_bytes|]. intros Hi. split.
  - intros H. pose proof (decode_pickingColor i Hi) as Hd. rewrite H in Hd.
    change (decodeIndex (mkPixel 0 0 0 255)) with (-1) in Hd. lia.
  - intros Hj Heq. pose proof (decode_pickingColor i Hi) as Hdi.
    pose proof (decode_pickingColor j Hj) as Hdj. rewrite Heq in Hdi. lia.
Qed.

(** ** Deduplicating the grounding sources *)

Lemma mapSet_keys (k : string) (v : Source) (m : list (string * Source)) :
  List.map fst (mapSet k v m)
  = if in_dec string_dec k (List.map fst m) then List.map fst m else List.map fst m ++ [k].
Proof.
  induction m as [|[k0 v0] m IH]; [reflexivity|]. cbn [mapSet List.map fst].
  destruct (String.eqb k0 k) eqn:Hk.
  - apply String.eqb_eq in Hk. subst k0. cbn [List.map fst].
    destruct (in_dec string_dec k (k :: List.map fst m)) as [_|Hn]; [reflexivity|].
    elim Hn. now left.
  - apply String.eqb_neq in Hk. cbn [List.map fst]. rewrite IH.
    destruct (in_dec string_dec k (List.map fst m)) as [Hin|Hn];
      destruct (in_dec string_dec k (k0 :: List.map fst m)) as [Hin'|Hn']; try reflexivity.
    + elim Hn'. now right.
    + destruct Hin' as [Heq|Hin']; [now elim Hk|contradiction].
Qed.

Lemma mapSet_In (k : string) (v : Source) (m : list (string * Source)) (e : string * Source) :
  List.NoDup (List.map fst m) ->
  (In e (mapSet k v m) <-> e = (k, v) \/ (In e m /\ fst e <> k)).
Proof.
  induction m as [|[k0 v0] m IH]; intros Hnd.
  - cbn. split; [intros [H|[]]; now left|intros [H|[[] _]]; now left].
  - cbn [mapSet]. cbn [List.map fst] in Hnd. apply List.NoDup_cons_iff in Hnd as [Hk0 Hnd].
    destruct (String.eqb k0 k) eqn:Hk.
    + apply String.eqb_eq in Hk. subst k0. split.
      * intros [H|H]; [now left|]. right. split; [now right|].
        intros Heq. apply Hk0. rewrite <- Heq. now apply in_map.
      * intros [H|[[H|H] Hne]]; [now left| |now right].
        subst e. now elim Hne.
    + apply String.eqb_neq in Hk. split.
      * intros [H|H].
        -- right. subst e. split; [now left|exact Hk].
        -- apply (IH Hnd) in H as [H|[H Hne]]; [now left|]. right. split; [now right|exact Hne].
      * intros [H|[[H|H] Hne]].
        -- right. apply (IH Hnd). now left.
        -- now left.
        -- right. apply (IH Hnd). right. now split.
Qed.

Lemma split_last {A} (l l1 l2 : list A) (s v : A) :
  l ++ [s] = l1 ++ v :: l2 ->
  (l2 = [] /\ v = s /\ l1 = l) \/ (exists l2', l2 = l2' ++ [s] /\ l = l1 ++ v :: l2').
Proof.
  intros H. destruct l2 as [|x l2] using rev_ind.
  - left. apply (app_inj_tail l l1 s v) in H as [-> ->]. now repeat split.
  - right. clear IHl2. exists l2.
    rewrite app_comm_cons, app_assoc in H.
    apply (app_inj_tail l (l1 ++ v :: l2) s x) in H as [-> ->]. now split.
Qed.

(** The map built from a list of sources: its keys in order of first
    occurrence, its values the last source of each key. *)
Lemma sourceMap_spec (l done : list Source) (m : list (string * Source)) :
  List.map fst m = rev (nodup string_dec (rev (List.map uri done))) ->
  (forall e, In e m <-> uri (snd e) = fst e /\
                        exists l1 l2, done = l1 ++ snd e :: l2 /\
                                      forall s', In s' l2 -> uri s' <> uri (snd e)) ->
  let m' := fold_left (fun m s => mapSet (uri s) s m) l m in
  List.map fst m' = rev (nodup string_dec (rev (List.map uri (done ++ l)))) /\
  (forall e, In e m' <-> uri (snd e) = fst e /\
                         exists l1 l2, done ++ l = l1 ++ snd e :: l2 /\
                                       forall s', In s' l2 -> uri s' <> uri (snd e)).
Proof.
  revert done m. induction l as [|s l IH]; intros done m Hkeys Hvals; cbn zeta.
  - rewrite app_nil_r. now split.
  - cbn [fold_left]. replace (done ++ s :: l) with ((done ++ [s]) ++ l)
      by (now rewrite <- app_assoc).
    assert (Hnd : List.NoDup (List.map fst m)).
    { rewrite Hkeys. apply List.NoDup_rev. apply List.NoDup_nodup. }
    assert (Hin : forall k, In k (List.map fst m) <-> In k (List.map uri done)).
    { intros k. rewrite Hkeys, <- in_rev, nodup_In, <- in_rev. reflexivity. }
    apply IH.
    + rewrite mapSet_keys, map_app, rev_app_distr. cbn [List.map rev app nodup].
      destruct (in_dec string_dec (uri s) (List.map fst m)) as [H|H];
        destruct (in_dec string_dec (uri s) (rev (List.map uri done))) as [H'|H'].
      * exact Hkeys.
      * elim H'. apply -> in_rev. now apply Hin.
      * elim H. apply Hin. now apply in_rev.
      * cbn [rev]. now rewrite Hkeys.
    + intros [k v]. rewrite (mapSet_In (uri s) s m (k, v) Hnd). cbn [fst snd]. split.
      * intros [[= -> ->]|[He Hne]].
        -- split; [reflexivity|]. exists done, []. split; [reflexivity|intros s' []].
        -- apply Hvals in He as [Hu (l1 & l2 & -> & Hlast)]. cbn [fst snd] in *.
           split; [exact Hu|]. exists l1, (l2 ++ [s]). split; [now rewrite <- app_assoc|].
           intros s' Hs'. apply in_app_or in Hs' as [Hs'|[<-|[]]]; [now apply Hlast|].
           congruence.
      * intros [Hu (l1 & l2 & Heq & Hlast)].
        apply split_last in Heq as [(-> & -> & ->)|(l2' & -> & ->)].
        -- left. now rewrite Hu.
        -- right. split.
           ++ apply Hvals. cbn [fst snd]. split; [exact Hu|]. exists l1, l2'.
              split; [reflexivity|]. intros s' Hs'. apply Hlast. apply in_or_app. now left.
           ++ cbn. rewrite <- Hu. intros Heq. apply (Hlast s); [|now symmetry].
              apply in_or_app. right. now left.
Qed.

(** X2. [uniqueSources] keeps one source per URI: the URIs of the result are
    those of the chunks that carry a source, each once, in the order of their
    first occurrence; and the source kept for a URI is the last chunk's with
    that URI (a result is a source that no later source shares its URI with). *)
Theorem uniqueSources_spec (chunks : list (option Source)) :
  List.NoDup (List.map uri (uniqueSources chunks)) /\
  List.map uri (uniqueSources chunks)
    = rev (nodup string_dec (rev (List.map uri (webSources chunks)))) /\
  (forall s, In s (uniqueSources chunks) <->
             exists l1 l2, webSources chunks = l1 ++ s :: l2 /\
                           forall s', In s' l2 -> uri s' <> uri s).
Proof.
  unfold uniqueSources. fold (webSources chunks).
  destruct (sourceMap_spec (webSources chunks) [] []) as [Hkeys Hvals].
  { reflexivity. }
  { intros e. split; [intros []|]. intros [_ (l1 & l2 & H & _)]. now destruct l1. }
  cbn zeta in Hkeys, Hvals. cbn [app] in Hkeys, Hvals.
  set (m := fold_left (fun m s => mapSet (uri s) s m) (webSources chunks) []) in *.
  assert (Huri : List.map uri (List.map snd m) = List.map fst m).
  { rewrite List.map_map. apply map_ext_in. intros e He. now apply Hvals in He as [Hu _]. }
  split; [|split].
  - rewrite Huri, Hkeys. apply List.NoDup_rev, List.NoDup_nodup.
  - now rewrite Huri.
  - intros s. rewrite in_map_iff. split.
    + intros ([k v] & <- & He). now apply Hvals in He as [_ H].
    + intros H. exists (uri s, s). split; [reflexivity|]. apply Hvals. now split.
Qed.

(** ** The weather chain *)

Ltac crack_fetch :=
  unfold_fetch;
  repeat (case_match; simplify_eq/=);
  repeat match goal with
         | H : negb ?b = _ |- _ => destruct b; simplify_eq/=
         | H : negb ?b && _ = _ |- _ => destruct b; simplify_eq/=
         end.

(** X3. [fetchWeather] issues at most four requests: country lookups, at
    most three and only by the full-name, the code and the name URL of the
    clicked country, and then at most one forecast request, which is the last
    request of the chain. *)
Theorem weather_chain_requests (net : Network) (c : Country) :
  (length (weatherRequests net c) <= 4)%nat /\
  (forall i lat lng, weatherRequests net c !! i = Some (GetForecast lat lng) ->
                     S i = length (weatherRequests net c)) /\
  (forall i url, weatherRequests net c !! i = Some (GetCountry url) ->
                 (i < 3)%nat /\
                 (url = nameFullTextUrl c \/ url = alphaUrl c \/ url = nameUrl c)).
Proof.
  crack_fetch.
  all: split; [lia|split].
  all: try (intros [|[|[|[|i]]]] ? ? Hq; simplify_eq/=; reflexivity).
  all: intros [|[|[|[|i]]]] ? Hq; simplify_eq/=; (split; [lia|auto]).
Qed.

(** X4. Whatever details the chain yields come from the first entry of a
    country lookup that answered ok, and the forecast was asked, as the last
    request, for that entry's coordinates (the capital's when it has them,
    the country's otherwise) and answered ok; the weather, when there is one,
    is that forecast's current weather, labelled with the same capital as the
    details. *)
Theorem weather_outcome_sound (net : Network) (c : Country) (dt : Details) :
  shownDetails (weatherOutcome net c) = Some dt ->
  exists url cj l lat lng fc,
    In (GetCountry url) (weatherRequests net c) /\
    restcountries net url = Responded true (Some (cj :: l)) /\
    (capitalInfo_latlng cj = Some (lat, lng) \/
     capitalInfo_latlng cj = None /\ latlng cj = Some (lat, lng)) /\
    List.last (weatherRequests net c) (GetCountry "") = GetForecast lat lng /\
    openmeteo net lat lng = Responded true (Some fc) /\
    dt = mkDetails (cj_population cj) (cj_region cj) (cj_subregion cj)
                   (joinNames (cj_currencies cj)) (joinNames (cj_languages cj))
                   (match capitalInfo_latlng cj with
                    | Some _ => match capital_0 cj with
                                | Some s => str_or s "Capital" | None => "Capital" end
                    | None => name_common cj
                    end) /\
    shownWeather (weatherOutcome net c)
      = match current_weather fc with
        | Some cw => Some (mkWeather (cw_temperature cw) (cw_windspeed cw)
                                     (cw_weathercode cw) (capital dt))
        | None => None
        end.
Proof.
  crack_fetch.
  all: try discriminate.
  all: repeat match goal with p : (float * float)%type |- _ => destruct p end.
  all: simplify_eq/=.
  all: do 6 eexists.
  all: (split; [|split; [eassumption|]]);
       [cbn; auto 10
       |split; [eauto; fail|split; [reflexivity|split; [eassumption|]]]].
  all: repeat match goal with H : _ = _ |- _ => rewrite H end.
  all: try match goal with H : Some _ = Some ?d |- _ => injection H as <- end.
  all: split; reflexivity.
Qed.

Lemma weather_outcome_sound_witness :
  exists url cj l lat lng fc,
    In (GetCountry url) (weatherRequests demoNet (mkCountry "Testland" "TL")) /\
    restcountries demoNet url = Responded true (Some (cj :: l)) /\
    (capitalInfo_latlng cj = Some (lat, lng) \/
     capitalInfo_latlng cj = None /\ latlng cj = Some (lat, lng)) /\
    List.last (weatherRequests demoNet (mkCountry "Testland" "TL")) (GetCountry "")
      = GetForecast lat lng /\
    openmeteo demoNet lat lng = Responded true (Some fc) /\
    mkDetails 1000 "Europe" "Northern Europe" "Test crown" "Testish" "Testville"
      = mkDetails (cj_population cj) (cj_region cj) (cj_subregion cj)
                  (joinNames (cj_currencies cj)) (joinNames (cj_languages cj))
                  (match capitalInfo_latlng cj with
                   | Some _ => match capital_0 cj with
                               | Some s => str_or s "Capital" | None => "Capital" end
                   | None => name_common cj
                   end) /\
    shownWeather (weatherOutcome demoNet (mkCountry "Testland" "TL"))
      = match current_weather fc with
        | Some cw => Some (mkWeather (cw_temperature cw) (cw_windspeed cw)
                                     (cw_weathercode cw) "Testville")
        | None => None
        end.
Proof.
  exact (weather_outcome_sound demoNet (mkCountry "Testland" "TL")
           (mkDetails 1000 "Europe" "Northern Europe" "Test crown" "Testish" "Testville")
           eq_refl).
Defined.

Lemma loaded_same_capital (net : Network) (c : Country) (dt : Details) (wx : Weather) :
  weatherOutcome net c = Loaded dt wx -> w_capital wx = capital dt.
Proof. crack_fetch; intros Hq; simplify_eq/=; reflexivity. Qed.

(** ** The detail state and the requests in flight *)

Lemma member_remove_same (k : nat) (l : list nat) : member k (remove_nat k l) = false.
Proof.
  unfold member, remove_nat. induction l as [|x l IH]; [reflexivity|]. cbn.
  destruct (Nat.eqb x k) eqn:Hx; cbn; [exact IH|].
  rewrite IH, orb_false_r. rewrite Nat.eqb_sym. exact Hx.
Qed.

Lemma member_remove_other (j k : nat) (l : list nat) :
  j <> k -> member k (remove_nat j l) = member k l.
Proof.
  intros Hne. unfold member, remove_nat. induction l as [|x l IH]; [reflexivity|]. cbn.
  destruct (Nat.eqb x j) eqn:Hx; cbn; rewrite IH; [|reflexivity].
  apply Nat.eqb_eq in Hx. subst x.
  destruct (Nat.eqb k j) eqn:Hk; [|reflexivity]. apply Nat.eqb_eq in Hk. congruence.
Qed.

Lemma member_remove_sub (j k : nat) (l : list nat) :
  member k (remove_nat j l) = true -> member k l = true.
Proof.
  destruct (decide (j = k)) as [->|Hne].
  - now rewrite member_remove_same.
  - now rewrite member_remove_other.
Qed.

Lemma member_app (k n : nat) (l : list nat) :
  member k (l ++ [n]) = member k l || Nat.eqb k n.
Proof. unfold member. rewrite existsb_app. cbn. now rewrite orb_false_r. Qed.

Lemma runs1_length (r : React) :
  length (match cleanup r with Some k => alter unmount k (runs r) | None => runs r end)
  = length (runs r).
Proof. destruct (cleanup r); [apply length_alter|reflexivity]. Qed.

Section DetailOk.
Variable E : Env.
Variable okW : nat -> Network -> Prop.
Variable okS : nat -> AiResult -> Prop.

Lemma detailOk_select (c : Country) (r : React) :
  detailOk E okW okS r -> detailOk E okW okS (setClickedCountry E (Some c) r).
Proof.
  intros [Hb _].
  destruct (select_effect E c r) as (Hruns & Hcl & Hcc & Hdt & Hpw & Hps & _).
  assert (Hlen : length (runs (setClickedCountry E (Some c) r)) = S (length (runs r))).
  { rewrite Hruns, length_app, runs1_length. cbn. lia. }
  assert (Hnot : member (length (runs r)) (pendingSummary r) = false).
  { destruct (member _ _) eqn:Hm; [|reflexivity].
    specialize (Hb _ (or_intror Hm)). lia. }
  split.
  - intros j. rewrite Hlen, Hpw, Hps, member_app.
    assert (Hj : member j (if keyMissing E then pendingSummary r
                           else pendingSummary r ++ [length (runs r)])
                 = true -> member j (pendingSummary r) = true \/ j = length (runs r)).
    { destruct (keyMissing E); [now left|]. rewrite member_app.
      intros [H|H%Nat.eqb_eq]%orb_true_iff; auto. }
    intros [[H|H%Nat.eqb_eq]%orb_true_iff|[H| ->]%Hj]; try lia.
    + specialize (Hb j (or_introl H)). lia.
    + specialize (Hb j (or_intror H)). lia.
  - rewrite Hcc. exists (length (runs r)). split.
    + split; [exact Hcl|]. rewrite Hruns.
      rewrite lookup_app_r by (rewrite runs1_length; lia).
      now rewrite runs1_length, Nat.sub_diag.
    + rewrite Hpw, Hps, Hdt, member_app_last. unfold freshDetail.
      destruct (keyMissing E).
      * rewrite Hnot. cbn. repeat split. left. now repeat split.
      * rewrite member_app_last. cbn. repeat split.
Qed.

Lemma detailOk_deselect (r : React) :
  detailOk E okW okS r -> detailOk E okW okS (setClickedCountry E None r).
Proof.
  intros Hd. unfold setClickedCountry. destruct (clickedCountry r) eqn:Hc; [|exact Hd].
  destruct Hd as [Hb _]. unfold detailEffect.
  cbn [clickedCountry cleanup runs countryName detail pendingWeather pendingSummary].
  split; cbn; [|repeat split].
  intros j Hj. rewrite runs1_length. now apply Hb.
Qed.

Lemma detailOk_weatherSettled (net : Network) (j : nat) (r : React) :
  okW j net ->
  runsConsistent r -> detailOk E okW okS r -> detailOk E okW okS (weatherSettled net j r).
Proof.
  intros Hok Hr [Hb Hd]. rewrite weatherSettled_unfold.
  destruct (runs r !! j) as [run0|] eqn:Hj; [|now split].
  destruct (member j (pendingWeather r)) eqn:Hp; [|now split].
  split; cbn [runs pendingWeather pendingSummary clickedCountry detail cleanup].
  - intros i [Hi|Hi]; apply Hb; [left; now apply member_remove_sub with j|now right].
  - destruct (clickedCountry r) as [c|] eqn:Hc.
    + destruct Hd as (k & [Hcl Hk] & Hw & Hs). exists k. split; [now split|].
      destruct (decide (j = k)) as [->|Hne].
      * rewrite Hk in Hj. injection Hj as <-. cbn [isMounted country].
        rewrite member_remove_same. rewrite Hp in Hw. destruct Hw as (Hw1 & Hw2 & Hw3).
        split.
        -- split; [now destruct (weatherOutcome net c)|]. exists net.
           split; [exact Hok|].
           destruct (weatherOutcome net c); cbn; auto.
        -- now destruct (weatherOutcome net c).
      * assert (Hm : isMounted run0 = false).
        { destruct (isMounted run0) eqn:Hm; [|reflexivity].
          destruct Hr as (H1 & _). specialize (H1 j run0 Hj Hm). congruence. }
        rewrite Hm, member_remove_other by exact Hne. now split.
    + assert (Hm : isMounted run0 = false).
      { destruct (isMounted run0) eqn:Hm; [|reflexivity].
        destruct Hr as (H1 & _ & H3). specialize (H1 j run0 Hj Hm).
        rewrite (H3 Hc) in H1. discriminate. }
      now rewrite Hm.
Qed.

Lemma summaryPart_shape (a : AiResult) (dt : Detail) :
  weatherData (summaryPart a dt) = weatherData dt /\
  countryDetails (summaryPart a dt) = countryDetails dt /\
  isLoadingWeather (summaryPart a dt) = isLoadingWeather dt /\
  isLoadingSummary (summaryPart a dt) = false /\
  aiSummary (summaryPart a dt) = Some (summaryText a) /\
  (groundingSources dt = [] -> groundingSources (summaryPart a dt) = summarySources a).
Proof. destruct a as [|[t|] [l|]]; cbn; repeat split; auto. Qed.

Lemma detailOk_summarySettled (a : AiResult) (j : nat) (r : React) :
  okS j a ->
  runsConsistent r -> detailOk E okW okS r -> detailOk E okW okS (summarySettled a j r).
Proof.
  intros Hok Hr [Hb Hd]. rewrite summarySettled_unfold.
  destruct (member j (pendingSummary r)) eqn:Hp; [|now split].
  split; cbn [runs pendingWeather pendingSummary clickedCountry detail cleanup].
  - intros i [Hi|Hi]; apply Hb; [now left|right; now apply member_remove_sub with j].
  - destruct (summaryPart_shape a (detail r)) as (S1 & S2 & S3 & S4 & S5 & S6).
    destruct (clickedCountry r) as [c|] eqn:Hc.
    + destruct Hd as (k & [Hcl Hk] & Hw & Hs). exists k. split; [now split|].
      destruct (decide (j = k)) as [->|Hne].
      * unfold mounted. rewrite Hk. cbn [isMounted].
        rewrite member_remove_same, S1, S2, S3. split; [exact Hw|].
        split; [exact S4|]. right. exists a. rewrite Hp in Hs.
        destruct Hs as (_ & Hg & _). split; [exact Hok|]. split; [exact S5|now apply S6].
      * rewrite (stale_unmounted j r Hr) by congruence.
        rewrite member_remove_other by exact Hne. now split.
    + destruct Hr as (H1 & H2 & H3).
      rewrite (stale_unmounted j r) by (try (now repeat split); rewrite (H3 Hc); discriminate).
      exact Hd.
Qed.
End DetailOk.

Lemma summaryText_not_blank (a : AiResult) : summaryText a <> "".
Proof.
  destruct a as [|[t|] l]; cbn; try discriminate.
  unfold str_or. destruct (String.eqb t "") eqn:Ht; [discriminate|].
  intros ->. discriminate.
Qed.

(** ** What holds in every reachable state *)

Lemma detailOk_reachable (E : Env) (evs : list Event) :
  runsConsistent (react (run E evs (init E))) /\
  detailOk E (weatherOf evs) (summaryOf evs) (react (run E evs (init E))).
Proof.
  apply (P_run E (fun r => runsConsistent r /\ detailOk E (weatherOf evs) (summaryOf evs) r)
               (weatherOf evs) (summaryOf evs)).
  - intros v r [Hr Hd]. split; [now apply runsConsistent_setClickedCountry|].
    destruct v; [now apply detailOk_select|now apply detailOk_deselect].
  - intros n r [Hr Hd]. split; [|exact Hd].
    unfold runsConsistent. destruct (runs_setCountryName n r) as (-> & -> & -> & _). exact Hr.
  - intros net k r Hok [Hr Hd]. split; [|now apply detailOk_weatherSettled].
    unfold runsConsistent. destruct (runs_weatherSettled net k r) as (-> & -> & ->). exact Hr.
  - intros a k r Hok [Hr Hd]. split; [|now apply detailOk_summarySettled].
    unfold runsConsistent. destruct (runs_summarySettled a k r) as (-> & -> & ->). exact Hr.
  - now intros.
  - now intros.
  - split; [apply runsConsistent_init|]. split; cbn; [|now repeat split].
    intros j [H|H]; discriminate.
Qed.

(** X5. In every state the component reaches: with no country selected the
    weather, the country details, the summary and its sources are all empty;
    with a country selected, the effect run that serves it is mounted, each
    loading flag is on exactly while that run's request is in flight, nothing
    of a part is shown while it loads, and once the summary is not loading
    there is a summary text, never a blank one. *)
Theorem detail_state_tracks_requests (E : Env) (evs : list Event) :
  let r := react (run E evs (init E)) in
  match clickedCountry r with
  | None =>
      weatherData (detail r) = None /\ countryDetails (detail r) = None /\
      aiSummary (detail r) = None /\ groundingSources (detail r) = []
  | Some c =>
      exists k, currentRun r c k /\
        isLoadingWeather (detail r) = member k (pendingWeather r) /\
        isLoadingSummary (detail r) = member k (pendingSummary r) /\
        (if isLoadingWeather (detail r)
         then weatherData (detail r) = None /\ countryDetails (detail r) = None
         else True) /\
        (if isLoadingSummary (detail r)
         then aiSummary (detail r) = None /\ groundingSources (detail r) = []
         else exists t, aiSummary (detail r) = Some t /\ t <> "")
  end.
Proof.
  cbn zeta. destruct (detailOk_reachable E evs) as [_ [_ Hd]].
  destruct (clickedCountry _) as [c|]; [|exact Hd].
  destruct Hd as (k & Hk & Hw & Hs). exists k. split; [exact Hk|].
  assert (Htext : forall dt : Detail,
            (keyMissing E = true /\
             aiSummary dt = Some "Gemini API key not configured." /\
             groundingSources dt = []) \/
            (exists a, summaryOf evs k a /\ aiSummary dt = Some (summaryText a) /\
                       groundingSources dt = summarySources a) ->
            exists t, aiSummary dt = Some t /\ t <> "").
  { intros dt [(_ & H & _)|(a & _ & H & _)]; eexists; (split; [exact H|]);
      [discriminate|apply summaryText_not_blank]. }
  destruct (member k (pendingWeather _)), (member k (pendingSummary _)).
  - destruct Hw as (? & ? & ->), Hs as (? & ? & ->). now repeat split.
  - destruct Hw as (? & ? & ->), Hs as (-> & Hs%Htext). now repeat split.
  - destruct Hw as (-> & ?), Hs as (? & ? & ->). now repeat split.
  - destruct Hw as (-> & ?), Hs as (-> & Hs%Htext). now repeat split.
Qed.

(** X6. What the panel shows comes from the run of the detail effect that
    serves the selection. With country [c] selected and [k] the run started
    for [c] whose cleanup React holds: once [k]'s weather chain is no longer
    in flight, a settlement of that very run is among the events handled, and
    the weather and the country details are what [fetchWeather] yields for
    [c] from the answers that settlement brought; so weather is never shown
    without the details, and its capital is the details' capital. Once [k]'s
    AI call is no longer in flight, the summary and the sources are those of
    an answer that settled run [k], or, in a build without a key, the fixed
    text and no sources. *)
Theorem shown_detail_comes_from_own_run (E : Env) (evs : list Event) :
  let r := react (run E evs (init E)) in
  match clickedCountry r with
  | None => detail r = resetDetail (detail r)
  | Some c =>
      exists k, currentRun r c k /\
        (if member k (pendingWeather r) then True
         else exists net,
             In (WeatherSettled k net) evs /\
             weatherData (detail r) = shownWeather (weatherOutcome net c) /\
             countryDetails (detail r) = shownDetails (weatherOutcome net c) /\
             match weatherData (detail r) with
             | Some wx => exists dt, countryDetails (detail r) = Some dt /\
                                     w_capital wx = capital dt
             | None => True
             end) /\
        (if member k (pendingSummary r) then True
         else (keyMissing E = true /\
               aiSummary (detail r) = Some "Gemini API key not configured." /\
               groundingSources (detail r) = []) \/
              (exists a, In (SummarySettled k a) evs /\
                         aiSummary (detail r) = Some (summaryText a) /\
                         groundingSources (detail r) = summarySources a))
  end.
Proof.
  cbn zeta. destruct (detailOk_reachable E evs) as [_ [_ Hd]].
  destruct (clickedCountry _) as [c|].
  - destruct Hd as (k & Hk & Hw & Hs). exists k. split; [exact Hk|]. split.
    + destruct (member k (pendingWeather _)); [exact I|].
      destruct Hw as (_ & net & Hin & Hwx & Hdt). exists net.
      split; [exact Hin|]. split; [exact Hwx|]. split; [exact Hdt|].
      rewrite Hwx, Hdt.
      destruct (weatherOutcome net c) as [dt wx| |] eqn:Ho; cbn; [|exact I|exact I].
      exists dt. split; [reflexivity|]. now apply (loaded_same_capital net c).
    + destruct (member k (pendingSummary _)); [exact I|]. exact (proj2 Hs).
  - destruct Hd as (H1 & H2 & H3 & H4). unfold resetDetail.
    destruct (detail _); cbn in *. now subst.
Qed.

(** ** The camera zoom *)

Lemma In_delete {A} (n : nat) (l : list A) (x : A) : In x (delete n l) -> In x l.
Proof.
  revert n. induction l as [|a l IH]; intros [|n] H; cbn in *; auto.
  destruct H as [->|H]; eauto.
Qed.

Lemma cameraZoom_view (E : Env) (w w' : World) :
  Move E w w' ->
  cameraZoom (meshes w') = cameraZoom (meshes w) \/
  cameraZoom (meshes w') = 1%float \/
  exists n tw, tweens (sched w) !! n = Some tw /\ target tw = Camera /\
               cameraZoom (meshes w') = default (cameraZoom (meshes w)) (assoc "zoom" (vars tw)).
Proof.
  intros Hm. destruct Hm;
    try (left; now rewrite (proj1 (proj2 (guiHoverColor_same E v w))));
    try (left; unfold_move; repeat case_match; reflexivity);
    try (right; left; reflexivity).
  unfold tweenCompleted. destruct (tweens (sched w) !! n) as [tw|] eqn:Hn; [|now left].
  destruct (target tw) eqn:Ht.
  all: try (left; unfold runTweenCallback, arrive; rewrite Ht; unfold_move;
            repeat case_match; reflexivity).
  right; right. exists n, tw. split; [exact Hn|split; [exact Ht|]].
  unfold runTweenCallback, arrive; rewrite Ht; unfold_move; repeat case_match; reflexivity.
Qed.

Lemma cameraTweens_view (E : Env) (w w' : World) (tw : Tween) :
  Move E w w' -> In tw (tweens (sched w')) -> target tw = Camera ->
  In tw (tweens (sched w)) \/ vars tw = [("zoom", targetZoom (ix w'))].
Proof.
  intros Hm. destruct Hm.
  all: try (rewrite (proj1 (proj2 (proj2 (guiHoverColor_same E v w)))); tauto).
  all: try (intros Hin _; left; revert Hin; unfold_move; repeat case_match; cbn; tauto).
  - (* click *)
    unfold clickedWorld, setTimeout. cbn [sched snd tweens ix targetZoom].
    assert (Ht : forall s0, tweens (match clickTimeout (ix w) with
                                    | Some h => clearTimeout h s0 | None => s0 end) = tweens s0)
      by (intros s0; now destruct (clickTimeout (ix w))).
    rewrite Ht. cbn [gsap_to kill tweens]. rewrite !in_app_iff. unfold killTweensOf.
    rewrite filter_In. cbn [In]. intros [[[Hin _]|[<-|[]]]|[<-|[]]] Hc; auto; discriminate.
  - (* revert *)
    unfold revertClick. destruct (clickedCountryIdx (ix w) =? -1); [auto|].
    cbn [sched gsap_to tweens ix targetZoom]. rewrite !in_app_iff. cbn [In].
    intros [[Hin|[<-|[]]]|[<-|[]]] Hc; auto; discriminate.
  - (* hover *)
    unfold hoveredWorld. cbn [sched gsap_to kill tweens]. rewrite in_app_iff.
    unfold killTweensOf. rewrite filter_In. cbn [In].
    intros [[Hin _]|[<-|[]]] Hc; auto; discriminate.
  - (* clearHover *)
    unfold clearHover. destruct (negb _); [|auto].
    cbn [sched gsap_to tweens]. rewrite in_app_iff. cbn [In].
    intros [Hin|[<-|[]]] Hc; auto; discriminate.
  - (* wheel *)
    unfold handleWheel. cbn [with_sched with_ix sched gsap_to tweens ix targetZoom].
    rewrite in_app_iff. cbn [In]. intros [Hin|[<-|[]]] Hc; auto.
  - (* controlsStart *)
    unfold controlsStart, setHoverable. cbn [with_sched with_ix sched gsap_to tweens].
    rewrite in_app_iff. cbn [In]. intros [Hin|[<-|[]]] Hc; auto; discriminate.
  - unfold controlsEnd. cbn [with_sched with_ix sched gsap_to tweens].
    rewrite in_app_iff. cbn [In]. intros [Hin|[<-|[]]] Hc; auto; discriminate.
  - unfold rotateToRegion. destruct (motion w); [auto|].
    unfold setAutoRotate. cbn [with_sched with_meshes sched gsap_to tweens].
    rewrite in_app_iff. cbn [In]. intros [Hin|[<-|[]]] Hc; auto; discriminate.
  - (* a tween completes *)
    unfold tweenCompleted. destruct (tweens (sched w) !! n) as [tw0|]; [|auto].
    intros Hin _. left. apply (In_delete n). revert Hin.
    unfold runTweenCallback; unfold_move; repeat case_match; cbn; auto.
  - (* the night lights *)
    unfold guiNightLights. cbn [with_sched sched gsap_to tweens].
    rewrite in_app_iff. cbn [In]. intros [Hin|[<-|[]]] Hc; auto; discriminate.
Qed.

Lemma cameraOk_move (E : Env) (w w' : World) : Move E w w' -> cameraOk w -> cameraOk w'.
Proof.
  intros Hm (Hz & Ht & Htw).
  pose proof (zoom_move E w w' Hm Ht) as Ht'.
  split; [|split; [exact Ht'|]].
  - destruct (cameraZoom_view E w w' Hm) as [->|[->|(n & tw & Hn & Hc & ->)]];
      [exact Hz|apply memf_In; apply zoomValues_closed|].
    apply list_elem_of_lookup_2, list_elem_of_In in Hn.
    destruct (Htw tw Hn Hc) as (z & Hzv & ->). cbn. exact Hzv.
  - intros tw Hin Hc.
    destruct (cameraTweens_view E w w' tw Hm Hin Hc) as [Hold|Hnew]; [now apply Htw|].
    eauto.
Qed.

Lemma cameraOk_reachable (E : Env) (w : World) : reachable E w -> cameraOk w.
Proof.
  apply (reachable_ind E cameraOk); [|apply cameraOk_move].
  assert (H1 : In 1%float zoomValues) by (apply memf_In; apply zoomValues_closed).
  split; [exact H1|split; [exact H1|intros tw []]].
Qed.

(** X13. The camera zoom stays within [0.8, 3] as well: every tween on the
    camera carries a zoom level that the zoom target once held, so whichever
    tweens complete, and in whatever order, the zoom they leave is within the
    bounds. *)
Theorem camera_zoom_bounded (E : Env) (evs : list Event) :
  let w := run E evs (init E) in
  zoomInBounds (cameraZoom (meshes w)) = true /\
  forall tw, In tw (tweens (sched w)) -> target tw = Camera ->
             exists z, vars tw = [("zoom", z)] /\ zoomInBounds z = true.
Proof.
  cbn zeta. destruct (cameraOk_reachable E (run E evs (init E))) as (Hz & _ & Htw);
    [now exists evs|].
  split; [now apply zoomValues_step|].
  intros tw Hin Hc. destruct (Htw tw Hin Hc) as (z & Hzv & Hv).
  exists z. split; [exact Hv|now apply zoomValues_step].
Qed.

(** ** The camera stream *)

Section CameraStreams.
Import CameraView CameraFlow.

Lemma stopped_setupCamera_on (videoRef : bool) (m : Media) (v : State) :
  stopped (setupCamera true videoRef m v) = stopped v.
Proof. now destruct m. Qed.

Lemma orphaned_rerun (k s : nat) (f : Flow) : orphaned k s f -> orphaned k s (rerun f).
Proof.
  intros (Hk & Hs & Hold). unfold orphaned, rerun. cbn [runs view].
  assert (Hst : ~ In s (stopped (match last (runs f) with
                                 | Some r => match stream r with
                                             | Some s' => stopTracks s' (view f)
                                             | None => view f end
                                 | None => view f end))).
  { destruct (last (runs f)) as [r|] eqn:Hl; [|exact Hs].
    destruct (stream r) as [s'|] eqn:Hr; [|exact Hs].
    cbn. rewrite in_app_iff. intros [Hin|[->|[]]]; [now apply Hs|].
    rewrite last_lookup in Hl. specialize (Hold _ _ Hl Hr).
    destruct (runs f); cbn in *; lia. }
  split; [|split].
  - rewrite lookup_app_l; [exact Hk|]. now apply lookup_lt_Some in Hk.
  - now destruct (isCameraOn _).
  - intros j r Hj Hr. rewrite length_app. cbn [length].
    destruct (decide (j < length (runs f))%nat) as [Hlt|Hge].
    + rewrite lookup_app_l in Hj by exact Hlt. specialize (Hold j r Hj Hr). lia.
    + rewrite lookup_app_r in Hj by lia.
      destruct (j - length (runs f))%nat; cbn in Hj; [|discriminate].
      injection Hj as <-. discriminate Hr.
Qed.

Lemma orphaned_step (k s : nat) (ev : Event) (f : Flow) :
  (forall j, ev <> Settled j (Granted s)) -> orphaned k s f -> orphaned k s (step ev f).
Proof.
  intros Hev H. destruct ev as [|j m]; cbn [step].
  - apply orphaned_rerun. exact H.
  - unfold settle. destruct (runs f !! j) as [r|] eqn:Hj; [|exact H].
    destruct (pending r) eqn:Hp; [|exact H].
    assert (Hne : j <> k).
    { intros ->. destruct H as (Hk & _). rewrite Hk in Hj. injection Hj as <-. discriminate. }
    assert (H' : orphaned k s
              (mkFlow (setupCamera true (videoShown (view f)) m (view f))
                      (<[j := mkRun (saw r) (match m with
                                            | Granted s' => Some s' | Denied => stream r end)
                                    false]> (runs f)))).
    { destruct H as (Hk & Hs & Hold). unfold orphaned. cbn [runs view].
      rewrite stopped_setupCamera_on, length_insert. split; [|split; [exact Hs|]].
      - now rewrite list_lookup_insert_ne.
      - intros i r' Hi Hr. destruct (decide (i = j)) as [->|Hij].
        + rewrite list_lookup_insert_eq in Hi by (now apply lookup_lt_Some in Hj).
          injection Hi as <-. cbn in Hr. destruct m as [s'|].
          * injection Hr as ->. now elim (Hev j).
          * now apply (Hold j r).
        + rewrite list_lookup_insert_ne in Hi by congruence. now apply (Hold i r'). }
    destruct (Bool.eqb _ _); [exact H'|now apply orphaned_rerun].
Qed.

Lemma orphaned_run (k s : nat) (evs : list Event) (f : Flow) :
  (forall j, ~ In (Settled j (Granted s)) evs) -> orphaned k s f -> orphaned k s (run evs f).
Proof.
  revert f. induction evs as [|ev evs IH]; intros f Hev H; [exact H|].
  cbn. apply IH.
  - intros j Hin. apply (Hev j). now right.
  - apply orphaned_step; [|exact H]. intros j ->. apply (Hev j). now left.
Qed.

(** X15. A stream that [getUserMedia] grants after the effect has re-run is
    never stopped. When run [k] is no longer the latest run (the camera was
    switched off, or off and on again, while the request was pending), its
    cleanup has already run and found no stream; the stream it is granted
    afterwards is kept in the run's variable, and whatever happens next
    (toggles, other requests settling) no cleanup stops its tracks. *)
Theorem late_stream_is_never_stopped (f : Flow) (k s : nat) (evs : list Event) :
  runs f !! k = Some (mkRun true None true) ->
  (S k < length (runs f))%nat ->
  ~ In s (stopped (view f)) ->
  (forall j r, runs f !! j = Some r -> stream r <> Some s) ->
  (forall j, ~ In (Settled j (Granted s)) evs) ->
  let f' := run evs (settle k (Granted s) f) in
  runs f' !! k = Some (mkRun true (Some s) false) /\ ~ In s (stopped (view f')).
Proof.
  intros Hk Hlt Hs Hfresh Hev. cbn zeta.
  assert (H : orphaned k s (settle k (Granted s) f)).
  { unfold settle. rewrite Hk. cbn [pending saw setupCamera isCameraOn].
    rewrite Bool.eqb_reflx. unfold orphaned. cbn [runs view stopped].
    rewrite length_insert. split; [|split; [exact Hs|]].
    - apply list_lookup_insert_eq. lia.
    - intros j r Hj Hr. destruct (decide (j = k)) as [->|Hne]; [exact Hlt|].
      rewrite list_lookup_insert_ne in Hj by congruence. now elim (Hfresh j r Hj). }
  destruct (orphaned_run k s evs _ Hev H) as (H1 & H2 & _). now split.
Qed.

Lemma late_stream_is_never_stopped_witness :
  runs (run [Toggle; Settled 3 (Granted 8); Toggle] (settle 1 (Granted 7) twiceToggled)) !! 1%nat
    = Some (mkRun true (Some 7%nat) false) /\
  ~ In 7%nat (stopped (view (run [Toggle; Settled 3 (Granted 8); Toggle]
                                 (settle 1 (Granted 7) twiceToggled)))).
Proof.
  refine (late_stream_is_never_stopped twiceToggled 1 7
            [Toggle; Settled 3 (Granted 8); Toggle] eq_refl _ _ _ _).
  - vm_compute. lia.
  - intros [].
  - intros [|[|[|j]]] r Hj; vm_compute in Hj; try discriminate; injection Hj as <-; discriminate.
  - intros j [Hin|[Hin|[Hin|[]]]]; discriminate.
Defined.

(** X16. A stream granted while its run is still the latest one, the
    camera being on, is shown in the video and cleared of any error, and the
    next click on the button stops its tracks through the run's cleanup,
    removes the video and leaves the camera off with nothing pending. *)
Theorem timely_stream_is_stopped (f : Flow) (k s : nat) :
  runs f !! k = Some (mkRun true None true) ->
  S k = length (runs f) ->
  isCameraOn (view f) = true ->
  let f1 := settle k (Granted s) f in
  srcObject (view f1) = Some s /\ error (view f1) = None /\
  isCameraOn (view (toggle f1)) = false /\
  srcObject (view (toggle f1)) = None /\
  stopped (view (toggle f1)) = stopped (view f) ++ [s] /\
  last (runs (toggle f1)) = Some (mkRun false None false).
Proof.
  intros Hk Hlast Hon. cbn zeta. unfold settle. rewrite Hk.
  unfold videoShown. cbn [pending saw setupCamera isCameraOn]. rewrite Hon, Bool.eqb_reflx.
  cbn [view srcObject error]. split; [reflexivity|split; [reflexivity|]].
  unfold toggle, rerun, CameraView.toggle. cbn [view runs isCameraOn error srcObject stopped].
  assert (Hl : last (<[k := mkRun true (Some s) false]> (runs f))
               = Some (mkRun true (Some s) false)).
  { rewrite last_lookup, length_insert, <- Hlast. cbn [pred].
    apply list_lookup_insert_eq. lia. }
  rewrite Hl. cbn. rewrite last_snoc. now repeat split.
Qed.

Lemma timely_stream_is_stopped_witness :
  srcObject (view (settle 1 (Granted 7) cameraOn)) = Some 7%nat /\
  error (view (settle 1 (Granted 7) cameraOn)) = None /\
  isCameraOn (view (toggle (settle 1 (Granted 7) cameraOn))) = false /\
  srcObject (view (toggle (settle 1 (Granted 7) cameraOn))) = None /\
  stopped (view (toggle (settle 1 (Granted 7) cameraOn))) = stopped (view cameraOn) ++ [7%nat] /\
  last (runs (toggle (settle 1 (Granted 7) cameraOn))) = Some (mkRun false None false).
Proof. exact (timely_stream_is_stopped cameraOn 1 7 eq_refl eq_refl eq_refl). Defined.

End CameraStreams.

(** ** Selection, hover and ring *)

Lemma pathAt_not_minus1 (E : Env) (idx : Z) (p : CountryPath) :
  pathAt E idx = Some p -> idx <> -1.
Proof. unfold pathAt. intros H ->. discriminate. Qed.

Lemma indexOk_move (E : Env) (w w' : World) : Move E w w' -> indexOk E w -> indexOk E w'.
Proof.
  intros Hm H.
  assert (Hsame : forall w1, hoveredCountryIdx (ix w1) = hoveredCountryIdx (ix w) /\
                             clickedCountryIdx (ix w1) = clickedCountryIdx (ix w) ->
                             indexOk E w1).
  { intros w1 [H1 H2]. unfold indexOk. now rewrite H1, H2. }
  destruct Hm as [idx p w Hp Hne|w|index p w Hp|w|b w|deltaY w|w|w|w|rotX rotY w|w|h w|w|n w
                 |net k w|a k w|c w Hc|v w|v w|w|k sc sc' r' n' w Hk Hn];
    try (apply Hsame; unfold_move; repeat case_match; cbn; split; reflexivity).
  - destruct H as [Hh _]. split; [exact Hh|]. right. cbn. apply pathAt_inRange. eauto.
  - unfold revertClick. destruct (clickedCountryIdx (ix w) =? -1); [exact H|].
    destruct H as [Hh _]. split; [exact Hh|left; reflexivity].
  - destruct H as [_ Hc]. split; [|exact Hc]. right. cbn. apply pathAt_inRange. eauto.
  - unfold clearHover. destruct (negb _); [|exact H].
    destruct H as [_ Hc]. split; [left; reflexivity|exact Hc].
  - apply Hsame. now rewrite (proj1 (guiHoverColor_same E v w)).
  - split; left; reflexivity.
Qed.

Ltac same_view :=
  unfold clickedWorld, hoveredWorld, revertClick, clearHover, setHoverable, handleWheel,
    handleTouchStart, controlsStart, controlsEnd, rotateToRegion, setAutoRotate,
    becameVisible, prepareHiResTextures, guiNightLights, with_sched, with_ix, with_meshes,
    with_tex, with_react, with_colors, gsap_to, kill, setTimeout, arrive;
  repeat case_match; cbn; repeat split; reflexivity.

Lemma hoverOk_move (E : Env) (w w' : World) :
  Move E w w' -> indexOk E w -> hoverOk E w -> hoverOk E w'.
Proof.
  intros Hm Hi H.
  assert (Hsame : forall w1, hoveredCountryIdx (ix w1) = hoveredCountryIdx (ix w) /\
                             selectionVisible (meshes w1) = selectionVisible (meshes w) /\
                             highlightCanvas (tex w1) = highlightCanvas (tex w) /\
                             hoverColor (colors w1) = hoverColor (colors w) ->
                             hoverOk E w1).
  { intros w1 (H1 & H2 & H3 & H4). unfold hoverOk. now rewrite H1, H2, H3, H4. }
  destruct Hm as [idx p w Hp Hne|w|index p w Hp|w|b w|deltaY w|w|w|w|rotX rotY w|w|h w|w|n w
                 |net k w|a k w|c w Hc|v w|v w|w|k sc sc' r' n' w Hk Hn];
    try (apply Hsame; same_view).
  - (* hover *)
    unfold hoverOk, hoveredWorld. cbn. intros _. split; [reflexivity|].
    intros _. exists p, (strokeColor (colors w)). now split.
  - unfold clearHover. destruct (negb _); [|exact H]. intros Hc. now elim Hc.
  - (* a tween completes *)
    unfold tweenCompleted. destruct (tweens (sched w) !! n) as [tw|]; [|exact H].
    destruct (onComplete tw) eqn:Hcb; unfold runTweenCallback;
      try (apply Hsame; same_view).
    cbn [with_meshes with_sched ix].
    destruct (hoveredCountryIdx (ix w) =? -1) eqn:Hh.
    + apply Z.eqb_eq in Hh. unfold hoverOk. cbn. intros Hc. now elim Hc.
    + apply Hsame. same_view.
  - apply Hsame. cbn. repeat split. exact Hc.
  - (* the hover colour control *)
    unfold hoverOk in *.
    rewrite (proj1 (guiHoverColor_same E v w)), (proj1 (proj2 (guiHoverColor_same E v w))).
    intros Hh. destruct (H Hh) as (Hv & Hops). split; [exact Hv|].
    intros Hctx. destruct (Hops Hctx) as (p & sc & Hp & _).
    exists p, (strokeColor (colors w)). split; [exact Hp|].
    unfold guiHoverColor, redrawHighlight, redrawClick, drawCountry. cbn.
    rewrite Hctx. cbn. rewrite (proj2 (Z.eqb_neq _ _) Hh), Hp. cbn.
    destruct (clickedCountryIdx (ix w) =? -1); cbn; [reflexivity|].
    destruct (pathAt E (clickedCountryIdx (ix w))); reflexivity.
  - intros Hc. now elim Hc.
Qed.

Lemma ringOk_move (E : Env) (w w' : World) :
  Move E w w' -> indexOk E w -> rotationOk w -> ringOk E w -> ringOk E w'.
Proof.
  intros Hm Hi Hr H.
  assert (Hsame : forall w1, clickedCountryIdx (ix w1) = clickedCountryIdx (ix w) /\
                             clickedVisible (meshes w1) = clickedVisible (meshes w) /\
                             autoRotate (meshes w1) = autoRotate (meshes w) /\
                             clickCanvas (tex w1) = clickCanvas (tex w) /\
                             hoverColor (colors w1) = hoverColor (colors w) ->
                             ringOk E w1).
  { intros w1 (H1 & H2 & H3 & H4 & H5). unfold ringOk. now rewrite H1, H2, H3, H4, H5. }
  destruct Hm as [idx p w Hp Hne|w|index p w Hp|w|b w|deltaY w|w|w|w|rotX rotY w|w|h w|w|n w
                 |net k w|a k w|c w Hc|v w|v w|w|k sc sc' r' n' w Hk Hn];
    try (apply Hsame; same_view).
  - (* click *)
    unfold ringOk, clickedWorld. cbn. intros _. repeat split.
    + destruct (motion w) eqn:Hdm; [cbn; now apply Hr|reflexivity].
    + intros ->. exists p, (clickedColor (colors w)). split; [exact Hp|reflexivity].
  - unfold revertClick. destruct (clickedCountryIdx (ix w) =? -1); [exact H|].
    unfold ringOk. now cbn.
  - unfold rotateToRegion. destruct (motion w); [exact H|].
    unfold ringOk in *. cbn. intros Hc. destruct (H Hc) as (H1 & H2 & H3). now repeat split.
  - (* a tween completes *)
    unfold tweenCompleted. destruct (tweens (sched w) !! n) as [tw|]; [|exact H].
    destruct (onComplete tw) eqn:Hcb; unfold runTweenCallback;
      try (apply Hsame; same_view).
    + cbn [with_meshes with_sched ix motion].
      destruct (negb (motion w) && (clickedCountryIdx (ix w) =? -1)) eqn:Hh.
      * apply andb_true_iff in Hh as [_ Hh]. apply Z.eqb_eq in Hh.
        unfold ringOk. cbn. intros Hc. now elim Hc.
      * apply Hsame. same_view.
    + cbn [with_meshes with_sched ix].
      destruct (clickedCountryIdx (ix w) =? -1) eqn:Hh.
      * apply Z.eqb_eq in Hh. unfold ringOk. cbn. intros Hc. now elim Hc.
      * apply Hsame. same_view.
  - apply Hsame. cbn. repeat split. exact Hc.
  - (* the hover colour control *)
    unfold ringOk in *.
    rewrite (proj1 (guiHoverColor_same E v w)), (proj1 (proj2 (guiHoverColor_same E v w))).
    intros Hc. destruct (H Hc) as (Hv & Ha & Hops). split; [exact Hv|]. split; [exact Ha|].
    intros Hctx. destruct (Hops Hctx) as (p & sc & Hp & _).
    exists p, (clickedColor (colors w)). split; [exact Hp|].
    assert (Hhov : hoveredCountryIdx (ix w) = -1 \/
                   exists q, pathAt E (hoveredCountryIdx (ix w)) = Some q).
    { destruct Hi as [[Hh|Hh] _]; [now left|right]. now apply pathAt_inRange. }
    unfold guiHoverColor, redrawHighlight, redrawClick, drawCountry. cbn.
    rewrite Hctx. cbn.
    destruct Hhov as [Hh|[q Hq]].
    + rewrite Hh. cbn. rewrite (proj2 (Z.eqb_neq _ _) Hc). cbn. rewrite Hp. reflexivity.
    + rewrite (proj2 (Z.eqb_neq _ _) (pathAt_not_minus1 E _ q Hq)), Hq. cbn.
      rewrite (proj2 (Z.eqb_neq _ _) Hc). cbn. rewrite Hp. reflexivity.
  - intros Hc. now elim Hc.
Qed.

Lemma sceneOk_reachable (E : Env) (w : World) : reachable E w -> sceneOk E w.
Proof.
  apply (reachable_ind E (sceneOk E)).
  - split; [split; left; reflexivity|].
    split; [intros Hdm; cbn in *; now rewrite Hdm|].
    split; intros Hc; now elim Hc.
  - intros w0 w1 Hm (Hi & Hr & Hh & Hg).
    split; [now apply (indexOk_move E w0)|].
    split; [now apply (rotationOk_move E w0)|].
    split; [now apply (hoverOk_move E w0)|now apply (ringOk_move E w0)].
Qed.

Lemma old_length_move (E : Env) (w w' : World) :
  Move E w w' -> (length (old w) <= length (old w'))%nat.
Proof.
  intros Hm. destruct Hm; try (rewrite (proj1 (proj2 (proj2 (proj2 (proj2 (proj2
                                  (guiHoverColor_same E v w))))))); lia);
    unfold_move; repeat case_match; cbn; rewrite ?length_app, ?length_insert; cbn; lia.
Qed.

Lemma old_length_moves (E : Env) (w w' : World) :
  rtc (Move E) w w' -> (length (old w) <= length (old w'))%nat.
Proof.
  induction 1 as [|w0 w1 w2 H01 _ IH]; [lia|].
  pose proof (old_length_move E w0 w1 H01). lia.
Qed.

Lemma home_moves (E : Env) (w w' : World) :
  rtc (Move E) w w' -> old w' = [] -> rtc (Home E) w w'.
Proof.
  induction 1 as [|w0 w1 w2 H01 H12 IH]; intros Hnil; [apply rtc_refl|].
  assert (H1 : old w1 = []).
  { pose proof (old_length_moves E w1 w2 H12) as Hl. rewrite Hnil in Hl.
    destruct (old w1); [reflexivity|cbn in Hl; lia]. }
  assert (H0 : old w0 = []).
  { pose proof (old_length_move E w0 w1 H01) as Hl. rewrite H1 in Hl.
    destruct (old w0); [reflexivity|cbn in Hl; lia]. }
  eapply rtc_l; [split; [exact H01|split; [exact H0|exact H1]]|now apply IH].
Qed.

(** Every event but [MotionToggled] leaves the list of earlier closures as
    long as it is. *)
Lemma old_step (E : Env) (ev : Event) (w : World) :
  ev <> MotionToggled -> length (old (step E ev w)) = length (old w).
Proof.
  intros Hev. destruct ev; try (now elim Hev); cbn [step].
  - unfold handleClick. destruct hit as [uv|]; cbn [settled].
    + destruct (updateMap_cases E uv true w)
        as [H|[H|[(p & _ & Hp & Hne & H)|(p & Hf & _)]]];
        try discriminate; rewrite H; cbn [settled negb]; try reflexivity.
      unfold revertClick. now case_match.
    + unfold revertClick. now case_match.
  - unfold render.
    assert (Htouch : forall w1, length (old (if isTouchScreen (ix w1) && isHoverable (ix w1)
                                             then setHoverable false w1 else w1))
                                = length (old w1))
      by (intros w1; now case_match).
    assert (Hclear : forall w1, length (old (clearHover w1)) = length (old w1))
      by (intros w1; unfold clearHover; now case_match).
    destruct (isHoverable (ix w)); cbn [settled]; [|apply Htouch].
    destruct hit as [uv|]; cbn [settled]; [|now rewrite Htouch, Hclear].
    destruct (updateMap_cases E uv false w)
      as [H|[H|[(p & Hf & _)|(p & _ & Hp & Hne & H)]]];
      try discriminate; rewrite H; cbn [settled negb]; rewrite Htouch, ?Hclear; reflexivity.
  - reflexivity.
  - reflexivity.
  - reflexivity.
  - reflexivity.
  - unfold rotateToRegion. now case_match.
  - unfold becameVisible. now case_match.
  - unfold timerFired. case_match; [|reflexivity].
    case_match; [unfold revertClick; now case_match|reflexivity].
  - unfold tweenCompleted, runTweenCallback. repeat case_match; reflexivity.
  - reflexivity.
  - reflexivity.
  - reflexivity.
  - reflexivity.
  - now rewrite (proj1 (proj2 (proj2 (proj2 (proj2 (proj2 (guiHoverColor_same E v w))))))).
  - reflexivity.
  - reflexivity.
  - unfold inOld. case_match; [|reflexivity]. cbn. now rewrite length_insert.
  - unfold inOld. case_match; [|reflexivity]. cbn. now rewrite length_insert.
  - unfold inOld. case_match; [|reflexivity]. cbn. now rewrite length_insert.
  - unfold inOld. case_match; [|reflexivity]. cbn. now rewrite length_insert.
  - unfold inOld. case_match; [|reflexivity]. cbn. now rewrite length_insert.
Qed.

Lemma old_run (E : Env) (evs : list Event) (w : World) :
  ~ In MotionToggled evs -> length (old (run E evs w)) = length (old w).
Proof.
  revert w. induction evs as [|ev evs IH]; intros w Hno; [reflexivity|].
  change (run E (ev :: evs) w) with (run E evs (step E ev w)).
  rewrite IH by (intros Hin; apply Hno; now right).
  apply old_step. intros ->. apply Hno. now left.
Qed.

(** An invariant of the moves within one run of the scene effect holds as
    long as the scene effect has not run again. *)
Lemma home_ind (E : Env) (I : World -> Prop) :
  I (init E) ->
  (forall w w', Home E w w' -> I w -> I w') ->
  forall evs, ~ In MotionToggled evs -> I (run E evs (init E)).
Proof.
  intros Hinit Hmove evs Hno.
  assert (Hnil : old (run E evs (init E)) = []).
  { pose proof (old_run E evs (init E) Hno) as Hl.
    destruct (old (run E evs (init E))); [reflexivity|discriminate Hl]. }
  apply (rtc_ind_r I (init E) Hinit) with (2 := home_moves E _ _ (run_moves E evs (init E)) Hnil).
  intros w0 w1 _ H01 H0. now apply (Hmove w0 w1).
Qed.

Lemma clickedCountry_setClickedCountry (E : Env) (v : option Country) (r : React) :
  clickedCountry (setClickedCountry E v r) = v /\
  countryName (setClickedCountry E v r) = countryName r.
Proof.
  destruct v as [c|].
  - destruct (select_effect E c r) as (_ & _ & H & _ & _ & _ & Hn). now split.
  - unfold setClickedCountry. destruct (clickedCountry r) eqn:Hc; [|now split].
    now unfold detailEffect.
Qed.

Lemma countryName_weatherSettled (net : Network) (k : nat) (r : React) :
  countryName (weatherSettled net k r) = countryName r.
Proof. rewrite weatherSettled_unfold. now repeat case_match. Qed.

Lemma countryName_summarySettled (a : AiResult) (k : nat) (r : React) :
  countryName (summarySettled a k r) = countryName r.
Proof. rewrite summarySettled_unfold. now repeat case_match. Qed.

Ltac not_home Hold Hold' :=
  first [ (* the scene effect running again leaves a closure behind *)
          exfalso; cbn in Hold'; rewrite Hold in Hold'; discriminate Hold'
        | (* no earlier closure to call back *)
          exfalso; match goal with Hk : old _ !! _ = Some _ |- _ =>
                     rewrite Hold in Hk; discriminate Hk end ].

Lemma selectionOk_home (E : Env) (w w' : World) :
  Home E w w' -> selectionOk E w -> selectionOk E w'.
Proof.
  intros (Hm & Hold & Hold') H.
  assert (Hsame : forall w1, clickedCountry (react w1) = clickedCountry (react w) /\
                             clickedCountryIdx (ix w1) = clickedCountryIdx (ix w) ->
                             selectionOk E w1).
  { intros w1 [H1 H2]. unfold selectionOk. now rewrite H1, H2. }
  destruct Hm as [idx p w Hp Hne|w|index p w Hp|w|b w|deltaY w|w|w|w|rotX rotY w|w|h w|w|n w
                 |net k w|a k w|c w Hc|v w|v w|w|k sc sc' r' n' w Hk Hn];
    try (apply Hsame; same_view); try not_home Hold Hold';
    try (apply Hsame; unfold tweenCompleted, runTweenCallback; same_view).
  - unfold selectionOk, clickedWorld. cbn [react ix clickedCountryIdx].
    rewrite (proj1 (clickedCountry_setClickedCountry E _ _)). now exists p.
  - unfold revertClick. destruct (clickedCountryIdx (ix w) =? -1); [exact H|].
    unfold selectionOk. cbn [react ix clickedCountryIdx].
    now rewrite (proj1 (clickedCountry_setClickedCountry E _ _)).
  - apply Hsame. cbn. now destruct (runs_weatherSettled net k (react w)) as (_ & _ & ->).
  - apply Hsame. cbn. now destruct (runs_summarySettled a k (react w)) as (_ & _ & ->).
  - apply Hsame. destruct (guiHoverColor_same E v w) as (-> & _ & _ & -> & _). now split.
Qed.

Lemma labelOk_home (E : Env) (w w' : World) :
  Home E w w' -> labelOk E w -> labelOk E w'.
Proof.
  intros (Hm & Hold & Hold') H.
  assert (Hsame : forall w1, hoveredCountryIdx (ix w1) = hoveredCountryIdx (ix w) /\
                             countryName (react w1) = countryName (react w) ->
                             labelOk E w1).
  { intros w1 (H1 & H2). unfold labelOk. now rewrite H1, H2. }
  destruct Hm as [idx p w Hp Hne|w|index p w Hp|w|b w|deltaY w|w|w|w|rotX rotY w|w|h w|w|n w
                 |net k w|a k w|c w Hc|v w|v w|w|k sc sc' r' n' w Hk Hn];
    try (apply Hsame; same_view); try not_home Hold Hold';
    try (apply Hsame; unfold tweenCompleted, runTweenCallback; same_view).
  - apply Hsame. unfold clickedWorld. cbn.
    now rewrite (proj2 (clickedCountry_setClickedCountry E _ _)).
  - unfold revertClick. destruct (clickedCountryIdx (ix w) =? -1); [exact H|].
    apply Hsame. cbn. now rewrite (proj2 (clickedCountry_setClickedCountry E _ _)).
  - unfold labelOk, hoveredWorld. cbn. now rewrite Hp.
  - unfold clearHover. destruct (negb _); [|exact H]. reflexivity.
  - unfold labelOk, prepareHiResTextures. cbn.
    destruct (hoveredCountryIdx (ix w) =? -1) eqn:Hh; [|reflexivity].
    apply Z.eqb_eq in Hh. now rewrite Hh.
  - apply Hsame. cbn. now rewrite countryName_weatherSettled.
  - apply Hsame. cbn. now rewrite countryName_summarySettled.
  - apply Hsame. destruct (guiHoverColor_same E v w) as (-> & _ & _ & -> & _). now split.
Qed.

Lemma syncOk_once (E : Env) (evs : list Event) :
  ~ In MotionToggled evs ->
  selectionOk E (run E evs (init E)) /\ labelOk E (run E evs (init E)).
Proof.
  apply (home_ind E (fun w => selectionOk E w /\ labelOk E w)).
  - split; reflexivity.
  - intros w0 w1 Hm [Hs Hl].
    split; [now apply (selectionOk_home E w0)|now apply (labelOk_home E w0)].
Qed.

(** X7. As long as the scene effect has run once only
    ([isDeviceMotionActive] has not changed since the geometry loaded), the
    selection React holds and the clicked index of the scene never disagree:
    [clickedCountry] is [null] exactly when [clickedCountryIdx] is [-1], and
    otherwise it carries the name and the id of the path at that index
    (empty strings for missing ones). After the scene effect has run again
    this is lost: the new closure starts at [-1] whatever React holds, and a
    timeout of the old closure can clear the selection of the new one. *)
Theorem selection_in_sync (E : Env) (evs : list Event) :
  ~ In MotionToggled evs ->
  let w := run E evs (init E) in
  selectionOk E w /\
  (clickedCountry (react w) = None <-> clickedCountryIdx (ix w) = -1).
Proof.
  intros Hno. cbn zeta. destruct (syncOk_once E evs Hno) as [Hs _].
  split; [exact Hs|]. unfold selectionOk in Hs.
  destruct (clickedCountry _) as [c|]; [|now split].
  destruct Hs as (p & Hp & _). apply pathAt_not_minus1 in Hp. split; [discriminate|tauto].
Qed.

Lemma selection_in_sync_witness :
  selectionOk demoEnv (run demoEnv [Click (Some uvTestland); Click (Some uvExamplia)]
                           (init demoEnv)) /\
  (clickedCountry (react (run demoEnv [Click (Some uvTestland); Click (Some uvExamplia)]
                              (init demoEnv))) = None <->
   clickedCountryIdx (ix (run demoEnv [Click (Some uvTestland); Click (Some uvExamplia)]
                              (init demoEnv))) = -1).
Proof.
  apply (selection_in_sync demoEnv [Click (Some uvTestland); Click (Some uvExamplia)]).
  intros [H|[H|[]]]; discriminate H.
Defined.

(** X8. While a country is hovered the hover ring is visible and (with a 2D
    context) the highlight canvas holds the fill and the stroke of that
    country's path, the fill in the hover colour [params] holds now, whatever
    clicks, timers, tweens, promises, GUI changes and re-runs of the scene
    effect came in between. As long as the scene effect has run once only,
    the label follows the hovered index as well: it is the hovered country's
    name, and empty with none hovered. *)
Theorem hover_label_in_sync (E : Env) (evs : list Event) :
  let w := run E evs (init E) in
  hoverOk E w /\ (~ In MotionToggled evs -> labelOk E w).
Proof.
  cbn zeta. split.
  - apply (sceneOk_reachable E). now exists evs.
  - intros Hno. apply (syncOk_once E evs Hno).
Qed.

(** X9. While a country is clicked in the running scene effect its click
    ring is visible, the globe does not auto-rotate, and (with a 2D context)
    the click canvas holds the fill and the thick stroke of that country's
    path, the fill in the hover colour [params] holds now (the stroke keeps
    the colour of the last redraw: the clicked colour control redraws
    nothing). No tween that completes late, no region button, no hover, no
    GUI change and no callback of an earlier closure undoes it. *)
Theorem clicked_ring_shown (E : Env) (w : World) :
  reachable E w -> clickedCountryIdx (ix w) <> -1 ->
  clickedVisible (meshes w) = true /\ autoRotate (meshes w) = false /\
  (context2d E = true ->
   exists p sc, pathAt E (clickedCountryIdx (ix w)) = Some p /\
     ops (clickCanvas (tex w))
     = [Fill (hoverColor (colors w)) Params.lowResScalingFactor (d p);
        Stroke sc (Params.strokeWidth * 4)%float Params.lowResScalingFactor (d p)]).
Proof. intros Hw. now apply (sceneOk_reachable E). Qed.

Lemma clicked_ring_shown_witness :
  clickedVisible (meshes demoRerun) = true /\ autoRotate (meshes demoRerun) = false /\
  (context2d demoEnv = true ->
   exists p sc, pathAt demoEnv (clickedCountryIdx (ix demoRerun)) = Some p /\
     ops (clickCanvas (tex demoRerun))
     = [Fill (hoverColor (colors demoRerun)) Params.lowResScalingFactor (d p);
        Stroke sc (Params.strokeWidth * 4)%float Params.lowResScalingFactor (d p)]).
Proof.
  assert (Hc : clickedCountryIdx (ix demoRerun) <> -1) by (vm_compute; discriminate).
  assert (Hr : reachable demoEnv demoRerun).
  { exists [Click (Some uvTestland); MotionToggled; Click (Some uvExamplia)].
    vm_compute. reflexivity. }
  exact (clicked_ring_shown demoEnv demoRerun Hr Hc).
Defined.

(** ** The timeouts *)

Ltac quiet_side :=
  first [right; left; eauto; fail
        |right; right; reflexivity
        |left;
         match goal with |- context [guiHoverColor ?E ?v ?w] =>
           rewrite (proj1 (proj2 (proj2 (guiHoverColor_same E v w)))) end; auto; fail
        |left; unfold_move; repeat case_match; cbn; intros ?;
         rewrite ?in_app_iff; auto].

Lemma inOld_quiet (E : Env) (k : nat) (f : World -> World) (w : World) :
  (forall w0, rtc (Move E) w0 (f w0)) -> rtc (Quiet E) w (inOld k f w).
Proof.
  intros Hf. unfold inOld. destruct (old w !! k) as [sc|] eqn:Hk; [|apply rtc_refl].
  apply rtc_once. split; [|left; cbn; auto].
  apply (move_old E k sc); [exact Hk|].
  match goal with |- (_ <= nextHandle (sched (f ?w0)))%nat =>
    exact (nextHandle_moves E w0 (f w0) (Hf w0)) end.
Qed.

Lemma step_quiet (E : Env) (ev : Event) (w : World) :
  rtc (Quiet E) w (step E ev w) \/
  exists h t, ev = TimerFired h /\
              List.find (fun t => Nat.eqb (handle t) h) (timers (sched w)) = Some t.
Proof.
  destruct ev; cbn [step];
    try (left; apply rtc_once; split; [constructor|quiet_side]; fail).
  - (* Click *)
    left. unfold handleClick. destruct hit as [uv|]; cbn [settled];
      [|apply rtc_once; split; [apply move_revert|quiet_side]].
    destruct (updateMap_cases E uv true w) as [H|[H|[(p & _ & Hp & Hne & H)|(p & Hf & _)]]];
      try discriminate; rewrite H; cbn [settled negb].
    + apply rtc_once; split; [apply move_revert|quiet_side].
    + apply rtc_refl.
    + apply rtc_once. split; [now apply move_click|quiet_side].
  - (* Frame *)
    left. unfold render.
    assert (Htouch : forall w0 w1, rtc (Quiet E) w0 w1 ->
              rtc (Quiet E) w0 (if isTouchScreen (ix w1) && isHoverable (ix w1)
                               then setHoverable false w1 else w1)).
    { intros w0 w1 H01. destruct (isTouchScreen (ix w1) && isHoverable (ix w1)); [|exact H01].
      eapply rtc_r; [exact H01|]. split; [apply move_hoverable|quiet_side]. }
    destruct (isHoverable (ix w)) eqn:Hh; [|cbn [settled]; apply Htouch, rtc_refl].
    destruct hit as [uv|];
      [|cbn [settled]; apply Htouch, rtc_once; split; [apply move_clearHover|quiet_side]].
    destruct (updateMap_cases E uv false w) as [H|[H|[(p & Hf & _)|(p & _ & Hp & Hne & H)]]];
      try discriminate; rewrite H; cbn [settled negb]; apply Htouch.
    + apply rtc_once; split; [apply move_clearHover|quiet_side].
    + apply rtc_refl.
    + apply rtc_once. split; [now apply move_hover|quiet_side].
  - (* TimerFired *)
    unfold timerFired. destruct (find _ _) as [t|] eqn:Hf; [|left; apply rtc_refl].
    right. eauto.
  - (* the stroke colour control *)
    left. unfold guiStrokeColor. cbv zeta. eapply rtc_l; cycle 1.
    + apply rtc_once. split; [apply move_hiRes|quiet_side].
    + split; [apply move_colors; reflexivity|quiet_side].
  - left. unfold guiDefaultColor. cbv zeta. eapply rtc_l; cycle 1.
    + apply rtc_once. split; [apply move_hiRes|quiet_side].
    + split; [apply move_colors; reflexivity|quiet_side].
  - left. apply rtc_once. split; [apply move_colors; reflexivity|quiet_side].
  - left. apply inOld_quiet. intros w0. apply timerFired_moves.
  - left. apply inOld_quiet. intros w0. apply rtc_once, move_tween.
  - left. apply inOld_quiet. intros w0. apply rtc_once, move_visible.
  - left. apply inOld_quiet. intros w0. apply rtc_once, move_controlsStart.
  - left. apply inOld_quiet. intros w0. apply rtc_once, move_controlsEnd.
Qed.

Lemma sched_view (E : Env) (w w' : World) :
  Move E w w' ->
  (timers (sched w') = timers (sched w) /\
   clickTimeout (ix w') = clickTimeout (ix w) /\
   observing (sched w') = observing (sched w) /\
   (clickedCountryIdx (ix w') = clickedCountryIdx (ix w) \/ clickedCountryIdx (ix w') = -1)) \/
  (exists idx p, w' = clickedWorld E idx p w) \/
  (w' = becameVisible w) \/
  (exists h, w' = with_sched (clearTimeout h (sched w)) w) \/
  (w' = motionToggled E w).
Proof.
  intros Hm. destruct Hm;
    try (left; destruct (guiHoverColor_same E v w) as (-> & _ & -> & _);
         repeat split; auto; fail);
    try (left; unfold_move; repeat case_match; cbn; repeat split; auto; fail).
  - right; left. eauto.
  - right; right; left. reflexivity.
  - right; right; right; left. eauto.
  - right; right; right; right. reflexivity.
Qed.

Lemma schedOk_same (w w' : World) :
  timersOk w' ->
  timers (sched w') = timers (sched w) ->
  clickTimeout (ix w') = clickTimeout (ix w) ->
  observing (sched w') = observing (sched w) ->
  clickedCountryIdx (ix w') = clickedCountryIdx (ix w) \/ clickedCountryIdx (ix w') = -1 ->
  schedOk w -> schedOk w'.
Proof.
  intros Hok Ht Hc Ho Hi (H1 & H2 & H3 & H4 & H5).
  split; [exact Hok|].
  unfold schedOk, hiResTimers in *.
  rewrite Ht, Hc, Ho.
  split; [exact H2|split; [|split; [exact H4|exact H5]]].
  intros Hne. apply H3. destruct Hi as [Hi|Hi]; congruence.
Qed.

Lemma filter_keeps {A} (f : A -> bool) (l : list A) :
  (forall x, In x l -> f x = true) -> List.filter f l = l.
Proof.
  induction l as [|x l IH]; intros H; [reflexivity|]. cbn.
  rewrite (H x (or_introl eq_refl)). f_equal. apply IH. intros y Hy. apply H. now right.
Qed.

Lemma filter_filter_keeps {A} (f g : A -> bool) (l : list A) :
  (forall x, In x l -> f x = true -> g x = true) ->
  List.filter f (List.filter g l) = List.filter f l.
Proof.
  induction l as [|x l IH]; intros H; [reflexivity|]. cbn.
  assert (IH' := IH (fun y Hy => H y (or_intror Hy))).
  destruct (g x) eqn:Hg; cbn.
  - now rewrite IH'.
  - destruct (f x) eqn:Hf; [|exact IH'].
    rewrite (H x (or_introl eq_refl) Hf) in Hg. discriminate.
Qed.

Lemma filter_swap {A} (f g : A -> bool) (l : list A) :
  List.filter f (List.filter g l) = List.filter g (List.filter f l).
Proof.
  induction l as [|x l IH]; [reflexivity|]. cbn.
  destruct (f x) eqn:Hf, (g x) eqn:Hg; cbn; rewrite ?Hf, ?Hg, IH; reflexivity.
Qed.

Lemma NoDup_map_filter {A B} (h : A -> B) (f : A -> bool) (l : list A) :
  List.NoDup (List.map h l) -> List.NoDup (List.map h (List.filter f l)).
Proof.
  induction l as [|x l IH]; intros H; [exact H|]. cbn in *.
  apply List.NoDup_cons_iff in H as [Hx Hl]. destruct (f x); [|now apply IH].
  cbn. apply List.NoDup_cons_iff. split; [|now apply IH].
  intros Hin. apply Hx. apply in_map_iff in Hin as (y & Hy & Hin).
  apply filter_In in Hin as [Hin _]. apply in_map_iff. eauto.
Qed.

Lemma NoDup_handle_inj (l : list Timer) (t t' : Timer) :
  List.NoDup (List.map handle l) -> In t l -> In t' l -> handle t = handle t' -> t = t'.
Proof.
  induction l as [|x l IH]; intros H Ht Ht' He; [destruct Ht|]. cbn in H.
  apply List.NoDup_cons_iff in H as [Hx Hl].
  destruct Ht as [->|Ht], Ht' as [->|Ht']; auto.
  - elim Hx. rewrite He. now apply in_map.
  - elim Hx. rewrite <- He. now apply in_map.
Qed.

Lemma NoDup_handle_snoc (l : list Timer) (t : Timer) :
  List.NoDup (List.map handle l) -> (forall x, In x l -> (handle x < handle t)%nat) ->
  List.NoDup (List.map handle (l ++ [t])).
Proof.
  intros Hl Hlt. rewrite List.map_app. cbn.
  apply List.NoDup_app; [exact Hl|repeat constructor; intros []|].
  intros a Ha [<-|[]]. apply in_map_iff in Ha as (x & Hx & Hin).
  specialize (Hlt x Hin). lia.
Qed.

Lemma hiResTimers_clearTimeout (h : nat) (w : World) :
  (forall t, In t (hiResTimers w) -> handle t <> h) ->
  List.filter (fun t => negb (isRevert t)) (timers (clearTimeout h (sched w))) = hiResTimers w.
Proof.
  intros H. unfold clearTimeout, hiResTimers in *. cbn [timers].
  apply filter_filter_keeps. intros t Hin Hr.
  apply negb_true_iff, Nat.eqb_neq. apply H. apply filter_In. now split.
Qed.

Lemma schedOk_click (E : Env) (idx : Z) (p : CountryPath) (w : World) :
  timersOk (clickedWorld E idx p w) ->
  schedOk w -> schedOk (clickedWorld E idx p w).
Proof.
  intros Hok (H1 & H2 & H3 & H4 & H5).
  assert (Hold : forall t, In t (match clickTimeout (ix w) with
                                 | Some h => timers (clearTimeout h (sched w))
                                 | None => timers (sched w) end) ->
                           In t (timers (sched w))).
  { intros t. destruct (clickTimeout (ix w)); [|auto]. now intros [? _]%In_clearTimeout. }
  assert (Hhi : List.filter (fun t => negb (isRevert t))
                  (match clickTimeout (ix w) with
                   | Some h => timers (clearTimeout h (sched w))
                   | None => timers (sched w) end) = hiResTimers w).
  { destruct (clickTimeout (ix w)) as [h|] eqn:Hc; [|reflexivity].
    apply hiResTimers_clearTimeout. intros t Ht He. apply (H4 t Ht). now rewrite He. }
  split; [exact Hok|].
  unfold hiResTimers. rewrite timers_clicked.
  split; [|split; [|split]].
  - apply NoDup_handle_snoc.
    + destruct (clickTimeout (ix w)); [|exact H2]. now apply NoDup_map_filter.
    + intros x Hx. cbn. now apply (proj1 H1 x), Hold.
  - intros _. exists (nextHandle (sched w)). split; [reflexivity|].
    apply in_or_app. right. now left.
  - rewrite List.filter_app, Hhi. cbn. rewrite app_nil_r.
    intros t Ht. cbn. intros [= He].
    apply filter_In in Ht as [Ht _]. apply (proj1 H1) in Ht as [Hlt _]. lia.
  - assert (Ho : observing (sched (clickedWorld E idx p w)) = observing (sched w))
      by (unfold clickedWorld, setTimeout; cbn; now destruct (clickTimeout (ix w))).
    rewrite Ho, List.filter_app, Hhi. cbn [List.filter isRevert callback negb].
    rewrite app_nil_r. exact H5.
Qed.

Lemma schedOk_visible (E : Env) (w : World) : schedOk w -> schedOk (becameVisible w).
Proof.
  intros (H1 & H2 & H3 & H4 & H5).
  split; [apply (timersOk_move E w); [apply move_visible|exact H1]|].
  unfold becameVisible. destruct (observing (sched w)) eqn:Ho;
    [|rewrite Ho; now repeat split].
  unfold hiResTimers in *. cbn.
  split; [|split; [|split]].
  - apply NoDup_handle_snoc; [exact H2|]. intros x Hx. cbn. now apply (proj1 H1 x).
  - intros Hc. destruct (H3 Hc) as (h & Hh & Hin). exists h. split; [exact Hh|].
    apply in_or_app. now left.
  - rewrite List.filter_app, H5. cbn. intros t [<-|[]]. cbn.
    intros Hc. apply (proj2 H1) in Hc. lia.
  - right. exists (nextHandle (sched w)). now rewrite List.filter_app, H5.
Qed.

Lemma schedOk_mount (E : Env) (w : World) : schedOk (motionToggled E w).
Proof.
  split; [split; [intros t []|discriminate]|].
  split; [constructor|]. split; [intros Hc; now elim Hc|].
  split; [intros t []|]. reflexivity.
Qed.

Lemma schedOk_quiet (E : Env) (w w' : World) : Quiet E w w' -> schedOk w -> schedOk w'.
Proof.
  intros (Hm & Hsub) H.
  pose proof (timersOk_move E w w' Hm (proj1 H)) as Hok.
  destruct Hsub as [Hsub|[(idx & p & ->)| ->]];
    [|now apply schedOk_click|apply schedOk_mount].
  destruct (sched_view E w w' Hm)
    as [(Ht & Hc & Ho & Hi)|[(idx & p & ->)|[->|[(h & ->)| ->]]]].
  - now apply (schedOk_same w w').
  - now apply schedOk_click.
  - now apply (schedOk_visible E).
  - apply (schedOk_same w); try reflexivity; [exact Hok| |now left|exact H].
    unfold clearTimeout. cbn [with_sched sched timers]. apply filter_keeps.
    intros t Hin. specialize (Hsub t Hin). cbn [with_sched sched] in Hsub.
    now apply In_clearTimeout in Hsub as [_ Hne%Nat.eqb_neq%negb_true_iff].
  - apply schedOk_mount.
Qed.

Lemma find_handle (h : nat) (l : list Timer) (t : Timer) :
  List.find (fun t => Nat.eqb (handle t) h) l = Some t -> In t l /\ handle t = h.
Proof. intros H. apply find_some in H as [Hin He]. now apply Nat.eqb_eq in He. Qed.

Lemma schedOk_intro (w w' : World) :
  timersOk w' ->
  List.NoDup (List.map handle (timers (sched w'))) ->
  (clickedCountryIdx (ix w') <> -1 ->
   exists h, clickTimeout (ix w') = Some h /\
             In (mkTimer h 3000 RevertClick) (timers (sched w'))) ->
  (hiResTimers w' = hiResTimers w \/ hiResTimers w' = []) ->
  clickTimeout (ix w') = clickTimeout (ix w) ->
  observing (sched w') = observing (sched w) ->
  schedOk w -> schedOk w'.
Proof.
  intros Hok Hnd Hk Hhi Hc Ho (H1 & H2 & H3 & H4 & H5).
  split; [exact Hok|split; [exact Hnd|split; [exact Hk|]]].
  rewrite Hc, Ho. destruct Hhi as [-> | ->]; [now split|].
  split; [intros t []|]. destruct (observing (sched w)); [reflexivity|now left].
Qed.

Lemma revertClick_view (E : Env) (w : World) :
  clickedCountryIdx (ix (revertClick E w)) = -1 /\
  timers (sched (revertClick E w)) = timers (sched w) /\
  clickTimeout (ix (revertClick E w)) = clickTimeout (ix w) /\
  observing (sched (revertClick E w)) = observing (sched w).
Proof.
  unfold revertClick. destruct (clickedCountryIdx (ix w) =? -1) eqn:He; [|now cbn].
  apply Z.eqb_eq in He. now repeat split.
Qed.

Lemma schedOk_timer (E : Env) (h : nat) (t : Timer) (w : World) :
  List.find (fun t => Nat.eqb (handle t) h) (timers (sched w)) = Some t ->
  schedOk w -> schedOk (timerFired E h w).
Proof.
  intros Hf H.
  assert (Hok : timersOk (timerFired E h w)).
  { apply (rtc_ind_r (fun w' => timersOk w') w (proj1 H))
      with (2 := step_moves E (TimerFired h) w).
    intros w0 w1 _ H01 H0. now apply (timersOk_move E w0 w1). }
  pose proof H as (H1 & H2 & H3 & H4 & H5).
  destruct (find_handle h _ t Hf) as [Hin Hh].
  assert (Hother : forall t', In t' (timers (sched w)) -> callback t' <> callback t ->
                              handle t' <> h).
  { intros t' Hin' Hcb He. apply Hcb. f_equal.
    apply (NoDup_handle_inj (timers (sched w))); auto. congruence. }
  set (w1 := with_sched (clearTimeout h (sched w)) w).
  assert (Hnd : List.NoDup (List.map handle (timers (sched w1))))
    by (now apply NoDup_map_filter).
  unfold timerFired in *. rewrite Hf in *. fold w1 in Hok |- *.
  destruct (callback t) eqn:Hcb.
  - (* the revert timeout *)
    assert (Hhi : hiResTimers w1 = hiResTimers w).
    { apply hiResTimers_clearTimeout. intros t' Ht'. apply filter_In in Ht' as [Ht' Hr].
      apply Hother; [exact Ht'|]. unfold isRevert in Hr.
      destruct (callback t'); [discriminate Hr|congruence]. }
    destruct (revertClick_view E w1) as (V1 & V2 & V3 & V4).
    apply (schedOk_intro w); try assumption.
    + now rewrite V2.
    + intros Hc. now elim Hc.
    + left. unfold hiResTimers in *. now rewrite V2.
  - (* the high-resolution pass *)
    assert (Hhi : hiResTimers w1 = []).
    { assert (Hin' : In t (hiResTimers w)).
      { apply filter_In. split; [exact Hin|]. unfold isRevert. now rewrite Hcb. }
      assert (Hone : hiResTimers w = [t]).
      { destruct (observing (sched w)).
        - rewrite H5 in Hin'. destruct Hin'.
        - destruct H5 as [H5|(h' & H5)]; rewrite H5 in Hin'; [destruct Hin'|].
          destruct Hin' as [<-|[]]. exact H5. }
      unfold hiResTimers, w1, clearTimeout in *. cbn [with_sched sched timers].
      rewrite filter_swap, Hone. cbn. now rewrite Hh, Nat.eqb_refl. }
    apply (schedOk_intro w); try assumption.
    + intros Hc. cbn in Hc. destruct (H3 Hc) as (h0 & Hh0 & Hin0).
      exists h0. split; [exact Hh0|]. cbn. apply In_clearTimeout. split; [exact Hin0|].
      cbn. intros <-. apply (Hother (mkTimer h0 3000 RevertClick) Hin0); [|reflexivity].
      cbn. discriminate.
    + right. exact Hhi.
    + reflexivity.
    + reflexivity.
Qed.

Lemma schedOk_step (E : Env) (ev : Event) (w : World) :
  schedOk w -> schedOk (step E ev w).
Proof.
  intros H. destruct (step_quiet E ev w) as [Hq|(h & t & -> & Hf)].
  - apply (rtc_ind_r (fun w' => schedOk w') w H) with (2 := Hq).
    intros w0 w1 _ H01 H0. now apply (schedOk_quiet E w0).
  - now apply (schedOk_timer E h t).
Qed.

Lemma schedOk_reachable (E : Env) (w : World) : reachable E w -> schedOk w.
Proof.
  intros [evs ->].
  assert (Hinit : schedOk (init E)).
  { split; [split; [intros t []|discriminate]|].
    split; [constructor|]. split; [intros Hc; now elim Hc|].
    split; [intros t []|]. reflexivity. }
  revert Hinit. generalize (init E).
  induction evs as [|ev evs IH]; intros w H; [exact H|].
  cbn. apply IH. now apply schedOk_step.
Qed.

Lemma same_key_short {A B} (f : A -> B) (l : list A) :
  List.NoDup (List.map f l) -> (forall x y, In x l -> In y l -> f x = f y) ->
  (length l <= 1)%nat.
Proof.
  destruct l as [|a [|b l]]; cbn; intros Hnd Hsame; try lia.
  apply List.NoDup_cons_iff in Hnd as [Hnd _]. elim Hnd.
  rewrite (Hsame a b); [now left|now left|right; now left].
Qed.

Lemma revertTimers_remembered (w : World) (t : Timer) :
  timersOk w -> In t (revertTimers w) -> clickTimeout (ix w) = Some (handle t).
Proof.
  intros [Ht _] Hin. apply filter_In in Hin as [Hin Hr]. apply (Ht t Hin).
  unfold isRevert in Hr. now destruct (callback t).
Qed.

(** X10. Among the timeouts of the running scene effect handles are never
    reused, and at most two are pending at any time: at most one that reverts
    a click, a 3000 ms one, and at most one for the high-resolution pass, a
    300 ms one, none while the observer is still connected. (The cleanup of
    the scene effect clears no timeout: those of earlier runs stay pending
    and are not counted here.) *)
Theorem timeouts_one_of_each (E : Env) (evs : list Event) :
  let w := run E evs (init E) in
  List.NoDup (List.map handle (timers (sched w))) /\
  (length (revertTimers w) <= 1)%nat /\
  (length (hiResTimers w) <= 1)%nat /\
  (observing (sched w) = true -> hiResTimers w = []) /\
  (forall t, In t (timers (sched w)) ->
     t = mkTimer (handle t) 3000 RevertClick \/
     t = mkTimer (handle t) 300 PrepareHiResTextures).
Proof.
  cbn zeta. destruct (schedOk_reachable E (run E evs (init E))) as (H1 & H2 & _ & _ & H5);
    [now exists evs|].
  split; [exact H2|split; [|split; [|split]]].
  - apply (same_key_short handle); [now apply NoDup_map_filter|].
    intros x y Hx Hy.
    pose proof (revertTimers_remembered _ x H1 Hx) as Ex.
    pose proof (revertTimers_remembered _ y H1 Hy) as Ey. congruence.
  - destruct (observing _).
    + rewrite H5. cbn. lia.
    + destruct H5 as [->|(h & ->)]; cbn; lia.
  - intros Ho. now rewrite Ho in H5.
  - apply (reachable_ind E (fun w => forall t, In t (timers (sched w)) ->
             t = mkTimer (handle t) 3000 RevertClick \/
             t = mkTimer (handle t) 300 PrepareHiResTextures)); [intros t []| |now exists evs].
    intros w0 w1 Hm H0 t.
    destruct (timers_untouched E w0 w1 Hm)
      as [(Ht & _)|[(idx & p & ->)|[->|[(h & ->)| ->]]]].
    + rewrite Ht. apply H0.
    + rewrite timers_clicked. intros [Hin|[<-|[]]]%in_app_or; [|now left].
      apply H0. destruct (clickTimeout (ix w0)); [|exact Hin].
      now apply In_clearTimeout in Hin.
    + unfold becameVisible. destruct (observing (sched w0)); [|apply H0].
      cbn. intros [Hin|[<-|[]]]%in_app_or; [now apply H0|now right].
    + cbn. intros [Hin _]%In_clearTimeout. now apply H0.
    + intros [].
Qed.

(** X11. A country clicked in the running scene effect always has its way
    back: exactly one of the closure's timeouts reverts the click, a 3000 ms
    one under the handle [clickTimeout] remembers, and when it fires the
    clicked index is [-1], the selection is cleared, the zoom target is [1]
    and the closure has no reverting timeout left. *)
Theorem clicked_reverts_by_timer (E : Env) (w : World) :
  reachable E w -> clickedCountryIdx (ix w) <> -1 ->
  exists h, clickTimeout (ix w) = Some h /\
            revertTimers w = [mkTimer h 3000 RevertClick] /\
            clickedCountryIdx (ix (step E (TimerFired h) w)) = -1 /\
            clickedCountry (react (step E (TimerFired h) w)) = None /\
            targetZoom (ix (step E (TimerFired h) w)) = 1%float /\
            revertTimers (step E (TimerFired h) w) = [].
Proof.
  intros Hw Hc. destruct (schedOk_reachable E w Hw) as (H1 & H2 & H3 & _).
  destruct (H3 Hc) as (h & Hh & Hin). exists h. split; [exact Hh|].
  assert (Hrin : In (mkTimer h 3000 RevertClick) (revertTimers w))
    by (apply filter_In; now split).
  assert (Hrev : revertTimers w = [mkTimer h 3000 RevertClick]).
  { assert (Hlen : (length (revertTimers w) <= 1)%nat).
    { apply (same_key_short handle); [now apply NoDup_map_filter|].
      intros x y Hx Hy.
      pose proof (revertTimers_remembered _ x H1 Hx) as Ex.
      pose proof (revertTimers_remembered _ y H1 Hy) as Ey. congruence. }
    destruct (revertTimers w) as [|a [|b l]]; cbn in Hlen; [destruct Hrin| |lia].
    destruct Hrin as [->|[]]. reflexivity. }
  split; [exact Hrev|].
  assert (Hf : List.find (fun t => Nat.eqb (handle t) h) (timers (sched w))
               = Some (mkTimer h 3000 RevertClick)).
  { destruct (List.find _ _) as [t|] eqn:Hf.
    - destruct (find_handle h _ t Hf) as [Hin' Hh']. f_equal.
      now apply (NoDup_handle_inj (timers (sched w))).
    - apply (find_none _ _ Hf) in Hin. cbn in Hin. now rewrite Nat.eqb_refl in Hin. }
  cbn [step]. unfold timerFired. rewrite Hf. cbn [callback].
  unfold revertClick. cbn [with_sched ix].
  destruct (clickedCountryIdx (ix w) =? -1) eqn:He; [apply Z.eqb_eq in He; contradiction|].
  cbn [ix clickedCountryIdx targetZoom react].
  split; [reflexivity|].
  split; [apply (clickedCountry_setClickedCountry E None)|].
  split; [reflexivity|].
  unfold revertTimers in *. cbn [sched gsap_to timers with_sched]. unfold clearTimeout.
  cbn [timers]. rewrite filter_swap, Hrev. cbn. now rewrite Nat.eqb_refl.
Qed.

Lemma clicked_reverts_by_timer_witness :
  exists h, clickTimeout (ix demoClicked) = Some h /\
            revertTimers demoClicked = [mkTimer h 3000 RevertClick] /\
            clickedCountryIdx (ix (step demoEnv (TimerFired h) demoClicked)) = -1 /\
            clickedCountry (react (step demoEnv (TimerFired h) demoClicked)) = None /\
            targetZoom (ix (step demoEnv (TimerFired h) demoClicked)) = 1%float /\
            revertTimers (step demoEnv (TimerFired h) demoClicked) = [].
Proof.
  assert (Hc : clickedCountryIdx (ix demoClicked) <> -1) by (vm_compute; discriminate).
  exact (clicked_reverts_by_timer demoEnv demoClicked demoClicked_reachable Hc).
Defined.

(** ** From the click to the panel *)

(** X14. End to end, for a geometry of fewer than [2^24] countries: a click
    whose ray meets the globe at a pixel that the polygon at index [i] covers
    entirely and that no polygon drawn after it touches, while another index
    (or none) is clicked, makes [i] the clicked index and [clickedCountry]
    the name and id of that path, clears the detail state and starts the
    weather chain of the new run of the effect, whose first request is the
    lookup of that country by its full name, and, with an API key, the run's
    AI call. When the chain settles, whatever the services answered, the
    panel shows its details and weather for that country, the weather is no
    longer loading and the run's weather chain is no longer in flight; the
    summary's part of the detail state and the AI call are as the click left
    them. *)
Theorem click_end_to_end (E : Env) (uv : UV) (i : nat) (p : CountryPath) (w : World) :
  context2d E = true ->
  Z.of_nat (length (svgPaths E)) < 2 ^ 24 ->
  onCanvas (pixelX uv) (pixelY uv) = true ->
  svgPaths E !! i = Some p ->
  255 <= coverage E (d p) (pixelX uv) (pixelY uv) ->
  (forall j q, (i < j)%nat -> svgPaths E !! j = Some q ->
               coverage E (d q) (pixelX uv) (pixelY uv) <= 0) ->
  clickedCountryIdx (ix w) <> Z.of_nat i ->
  let c := mkCountry (str_or (name p) "") (str_or (id p) "") in
  let k := length (runs (react w)) in
  let w' := step E (Click (Some uv)) w in
  clickedCountryIdx (ix w') = Z.of_nat i /\
  clickedCountry (react w') = Some c /\
  detail (react w') = freshDetail E /\
  pendingWeather (react w') = pendingWeather (react w) ++ [k] /\
  pendingSummary (react w')
    = (if keyMissing E then pendingSummary (react w) else pendingSummary (react w) ++ [k]) /\
  (forall net, exists rest, weatherRequests net c = GetCountry (nameFullTextUrl c) :: rest) /\
  forall net,
    let r'' := react (step E (WeatherSettled k net) w') in
    countryDetails (detail r'') = shownDetails (weatherOutcome net c) /\
    weatherData (detail r'') = shownWeather (weatherOutcome net c) /\
    isLoadingWeather (detail r'') = false /\
    member k (pendingWeather r'') = false /\
    pendingSummary r'' = pendingSummary (react w') /\
    aiSummary (detail r'') = aiSummary (freshDetail E) /\
    isLoadingSummary (detail r'') = isLoadingSummary (freshDetail E).
Proof.
  intros Hctx Hsize Hon Hi Hcov Hlater Hne. cbn zeta.
  assert (Hidx : pickIndex E uv = Z.of_nat i).
  { unfold pickIndex. rewrite (getImageData_last E _ _ i p Hon Hi Hcov Hlater).
    apply decode_pickingColor. apply lookup_lt_Some in Hi. lia. }
  assert (Hp : pathAt E (Z.of_nat i) = Some p) by (now rewrite pathAt_of_nat).
  assert (Hin : inRange E (pickIndex E uv) = true).
  { apply pathAt_inRange. exists p. now rewrite Hidx. }
  assert (Hstep : step E (Click (Some uv)) w = clickedWorld E (Z.of_nat i) p w).
  { cbn [step]. unfold handleClick, updateMap. rewrite Hctx, Hin, Hidx. cbn [negb].
    now rewrite (handleCountryClick_new E _ p w Hne Hp). }
  rewrite Hstep.
  assert (Hreact : react (clickedWorld E (Z.of_nat i) p w)
                   = setClickedCountry E (Some (mkCountry (str_or (name p) "")
                                                          (str_or (id p) ""))) (react w))
    by reflexivity.
  rewrite Hreact.
  set (c := mkCountry (str_or (name p) "") (str_or (id p) "")).
  destruct (select_effect E c (react w)) as (Hruns & Hcl & Hcc & Hdt & Hpw & Hps & _).
  split; [reflexivity|]. split; [exact Hcc|]. split; [exact Hdt|]. split; [exact Hpw|].
  split; [exact Hps|]. split; [intros net; apply weatherRequests_first|].
  intros net. cbn [step with_react react]. rewrite Hreact. fold c.
  assert (Hk : runs (setClickedCountry E (Some c) (react w)) !! length (runs (react w))
               = Some (mkRun c true)).
  { rewrite Hruns. rewrite lookup_app_r by (rewrite runs1_length; lia).
    now rewrite runs1_length, Nat.sub_diag. }
  assert (Hm : member (length (runs (react w)))
                      (pendingWeather (setClickedCountry E (Some c) (react w))) = true)
    by (rewrite Hpw; apply member_app_last).
  destruct (weatherSettled_mounted net _ _ _ Hk eq_refl Hm) as (H1 & H2 & H3 & H4 & _ & H6).
  cbn [country] in H1, H2. rewrite Hdt in H1, H2, H4, H6.
  assert (Hfresh : countryDetails (freshDetail E) = None /\ weatherData (freshDetail E) = None)
    by (unfold freshDetail; now destruct (keyMissing E)).
  destruct Hfresh as [F1 F2]. rewrite F1 in H1. rewrite F2 in H2.
  split; [rewrite H1; now destruct (weatherOutcome net c)|].
  split; [rewrite H2; now destruct (weatherOutcome net c)|].
  split; [exact H3|].
  split.
  { rewrite weatherSettled_unfold, Hk, Hm. cbn [pendingWeather]. apply member_remove_same. }
  split; [rewrite weatherSettled_unfold, Hk, Hm; reflexivity|].
  split; [exact H4|exact H6].
Qed.

Lemma click_end_to_end_witness :
  clickedCountryIdx (ix (step demoEnv (Click (Some uvTestland)) (init demoEnv))) = 0 /\
  clickedCountry (react (step demoEnv (Click (Some uvTestland)) (init demoEnv)))
    = Some (mkCountry "Testland" "TL") /\
  detail (react (step demoEnv (Click (Some uvTestland)) (init demoEnv))) = freshDetail demoEnv /\
  pendingWeather (react (step demoEnv (Click (Some uvTestland)) (init demoEnv))) = [0%nat].
Proof.
  assert (Hsize : Z.of_nat (length (svgPaths demoEnv)) < 2 ^ 24) by (vm_compute; reflexivity).
  assert (Hon : onCanvas (pixelX uvTestland) (pixelY uvTestland) = true)
    by (vm_compute; reflexivity).
  assert (Hcov : 255 <= coverage demoEnv (d testland) (pixelX uvTestland) (pixelY uvTestland))
    by (vm_compute; discriminate).
  assert (Hlater : forall j q, (0 < j)%nat -> svgPaths demoEnv !! j = Some q ->
                     coverage demoEnv (d q) (pixelX uvTestland) (pixelY uvTestland) <= 0).
  { intros j q Hlt Hj. destruct j as [|[|[|j]]]; [lia| | |discriminate Hj];
      injection Hj as <-; vm_compute; discriminate. }
  assert (Hne : clickedCountryIdx (ix (init demoEnv)) <> Z.of_nat 0)
    by (vm_compute; discriminate).
  pose proof (click_end_to_end demoEnv uvTestland 0 testland (init demoEnv)
                eq_refl Hsize Hon eq_refl Hcov Hlater Hne) as H.
  cbn zeta in H. destruct H as (H1 & H2 & H3 & H4 & _).
  split; [exact H1|split; [exact H2|split; [exact H3|exact H4]]].
Defined.

(** ** Hovering switched off and on *)

Lemma stay_moves (E : Env) (w w' : World) :
  rtc (Move E) w w' -> length (old w') = length (old w) -> rtc (Stay E) w w'.
Proof.
  induction 1 as [|w0 w1 w2 H01 H12 IH]; intros Hlen; [apply rtc_refl|].
  pose proof (old_length_moves E w1 w2 H12) as Hl12.
  pose proof (old_length_move E w0 w1 H01) as Hl01.
  eapply rtc_l; [split; [exact H01|lia]|apply IH; lia].
Qed.

Lemma stay_run (E : Env) (evs : list Event) (w : World) :
  ~ In MotionToggled evs -> rtc (Stay E) w (run E evs w).
Proof.
  intros Hno. apply stay_moves; [apply run_moves|now apply old_run].
Qed.

Lemma touch_stay (E : Env) (w w' : World) :
  Stay E w w' -> isTouchScreen (ix w) = true -> isTouchScreen (ix w') = true.
Proof.
  intros [Hm Hlen] H. destruct Hm;
    try (now rewrite (proj1 (guiHoverColor_same E v w)));
    try (exfalso; cbn in Hlen; rewrite length_app in Hlen; cbn in Hlen; lia);
    unfold_move; repeat case_match; cbn; auto.
Qed.

Lemma hoverable_updateMap (E : Env) (uv : UV) (isClick : bool) (w : World) :
  isHoverable (ix (settled (updateMap E uv isClick w))) = isHoverable (ix w) /\
  isTouchScreen (ix (settled (updateMap E uv isClick w))) = isTouchScreen (ix w).
Proof.
  destruct (updateMap_cases E uv isClick w)
    as [H|[H|[(p & _ & _ & _ & H)|(p & _ & _ & _ & H)]]]; rewrite H; now cbn.
Qed.

Lemma hoverable_revertClick (E : Env) (w : World) :
  isHoverable (ix (revertClick E w)) = isHoverable (ix w).
Proof. unfold revertClick. now case_match. Qed.

Lemma hoverable_clearHover (w : World) :
  isHoverable (ix (clearHover w)) = isHoverable (ix w) /\
  isTouchScreen (ix (clearHover w)) = isTouchScreen (ix w).
Proof. unfold clearHover. now case_match. Qed.

Lemma enableHover_view (E : Env) (w w' : World) (tw : Tween) :
  Move E w w' -> In tw (tweens (sched w')) -> onComplete tw = EnableHover ->
  In tw (tweens (sched w)) \/ tw = dragEndTween.
Proof.
  intros Hm. destruct Hm.
  all: try (rewrite (proj1 (proj2 (proj2 (guiHoverColor_same E v w)))); tauto).
  all: try (intros Hin _; left; revert Hin; unfold_move; repeat case_match; cbn; tauto).
  - unfold clickedWorld, setTimeout. cbn [sched snd tweens ix targetZoom].
    assert (Ht : forall s0, tweens (match clickTimeout (ix w) with
                                    | Some h => clearTimeout h s0 | None => s0 end) = tweens s0)
      by (intros s0; now destruct (clickTimeout (ix w))).
    rewrite Ht. cbn [gsap_to kill tweens]. rewrite !in_app_iff. unfold killTweensOf.
    rewrite filter_In. cbn [In]. intros [[[Hin _]|[<-|[]]]|[<-|[]]] Hc; auto; discriminate.
  - unfold revertClick. destruct (clickedCountryIdx (ix w) =? -1); [auto|].
    cbn [sched gsap_to tweens ix targetZoom]. rewrite !in_app_iff. cbn [In].
    intros [[Hin|[<-|[]]]|[<-|[]]] Hc; auto; discriminate.
  - unfold hoveredWorld. cbn [sched gsap_to kill tweens]. rewrite in_app_iff.
    unfold killTweensOf. rewrite filter_In. cbn [In].
    intros [[Hin _]|[<-|[]]] Hc; auto; discriminate.
  - unfold clearHover. destruct (negb _); [|auto].
    cbn [sched gsap_to tweens]. rewrite in_app_iff. cbn [In].
    intros [Hin|[<-|[]]] Hc; auto; discriminate.
  - unfold handleWheel. cbn [with_sched with_ix sched gsap_to tweens ix targetZoom].
    rewrite in_app_iff. cbn [In]. intros [Hin|[<-|[]]] Hc; auto; discriminate.
  - unfold controlsStart, setHoverable. cbn [with_sched with_ix sched gsap_to tweens].
    rewrite in_app_iff. cbn [In]. intros [Hin|[<-|[]]] Hc; auto; discriminate.
  - unfold controlsEnd. cbn [with_sched with_ix sched gsap_to tweens].
    rewrite in_app_iff. cbn [In]. intros [Hin|[<-|[]]] Hc; auto.
  - unfold rotateToRegion. destruct (motion w); [auto|].
    unfold setAutoRotate. cbn [with_sched with_meshes sched gsap_to tweens].
    rewrite in_app_iff. cbn [In]. intros [Hin|[<-|[]]] Hc; auto; discriminate.
  - unfold tweenCompleted. destruct (tweens (sched w) !! n) as [tw0|]; [|auto].
    intros Hin _. left. apply (In_delete n). revert Hin.
    unfold runTweenCallback; unfold_move; repeat case_match; cbn; auto.
  - unfold guiNightLights. cbn [with_sched sched gsap_to tweens].
    rewrite in_app_iff. cbn [In]. intros [Hin|[<-|[]]] Hc; auto; discriminate.
Qed.

Lemma enableHover_reachable (E : Env) (w : World) :
  reachable E w ->
  forall tw, In tw (tweens (sched w)) -> onComplete tw = EnableHover -> tw = dragEndTween.
Proof.
  apply (reachable_ind E (fun w => forall tw, In tw (tweens (sched w)) ->
                                   onComplete tw = EnableHover -> tw = dragEndTween)).
  - intros tw [].
  - intros w0 w1 Hm H tw Hin Hc.
    destruct (enableHover_view E w0 w1 tw Hm Hin Hc) as [Hold|Hnew]; auto.
Qed.

Lemma ix_inOld (k : nat) (f : World -> World) (w : World) : ix (inOld k f w) = ix w.
Proof. unfold inOld. now case_match. Qed.

(** X17. Hovering, once switched off in the running scene effect (by a
    drag's start, or by a frame on a touch screen), is switched on again by
    two things only: the completion of the scale tween that a drag's end
    started, or the scene effect running again, whose closure starts with
    hovering on. No click, frame, wheel turn, timer, other tween, settled
    request, GUI change or callback of an earlier closure turns it back
    on. *)
Theorem hover_reenabled_only_by_drag_end (E : Env) (ev : Event) (w : World) :
  reachable E w ->
  isHoverable (ix w) = false ->
  isHoverable (ix (step E ev w)) = true ->
  (exists n, ev = TweenCompleted n /\ tweens (sched w) !! n = Some dragEndTween) \/
  ev = MotionToggled.
Proof.
  intros Hw Hoff Hon.
  assert (Hcontra : isHoverable (ix (step E ev w)) = isHoverable (ix w) \/
                    isHoverable (ix (step E ev w)) = false -> False)
    by (intros [H|H]; congruence).
  destruct ev; cbn [step] in *; try (now right);
    try (elim Hcontra; left; apply (f_equal isHoverable), ix_inOld).
  - (* Click *)
    elim Hcontra. left. unfold handleClick.
    destruct hit as [uv|]; cbn [settled]; [|apply hoverable_revertClick].
    destruct (hoverable_updateMap E uv true w) as [Hu _].
    destruct (updateMap E uv true w) as [w' b|w']; cbn [settled] in *; [|exact Hu].
    destruct b; cbn [negb]; [exact Hu|]. now rewrite hoverable_revertClick.
  - (* Frame *)
    elim Hcontra. left. unfold render. rewrite Hoff. cbn [settled].
    rewrite Hoff, andb_false_r. exact Hoff.
  - elim Hcontra. now left.
  - elim Hcontra. now left.
  - elim Hcontra. now left.
  - elim Hcontra. left. unfold rotateToRegion. now case_match.
  - elim Hcontra. left. unfold becameVisible. now case_match.
  - elim Hcontra. left. unfold timerFired. case_match; [|reflexivity].
    case_match; [now rewrite hoverable_revertClick|reflexivity].
  - left. unfold tweenCompleted in *. destruct (tweens (sched w) !! n) as [tw|] eqn:Hn;
      [|congruence].
    exists n. split; [reflexivity|]. rewrite Hn. f_equal.
    apply (enableHover_reachable E w Hw).
    + now apply list_elem_of_In, list_elem_of_lookup_2 with n.
    + destruct (onComplete tw) eqn:Hcb; [|reflexivity| | |]; exfalso; apply Hcontra; left;
        unfold runTweenCallback; unfold_move; repeat case_match; reflexivity.
  - elim Hcontra. now left.
  - elim Hcontra. now left.
  - elim Hcontra. now left.
  - elim Hcontra. now left.
  - elim Hcontra. left. now rewrite (proj1 (guiHoverColor_same E v w)).
  - elim Hcontra. now left.
  - elim Hcontra. now left.
Qed.

Lemma demoDragged_reachable : reachable demoEnv demoDragged.
Proof. exists [ControlsStart; ControlsEnd]. vm_compute. reflexivity. Defined.

Lemma hover_reenabled_only_by_drag_end_witness :
  (exists n, TweenCompleted 1 = TweenCompleted n /\
             tweens (sched demoDragged) !! n = Some dragEndTween) \/
  TweenCompleted 1 = MotionToggled.
Proof.
  exact (hover_reenabled_only_by_drag_end demoEnv (TweenCompleted 1) demoDragged
           demoDragged_reachable eq_refl eq_refl).
Defined.

(** X18. On a touch screen hovering is off after every frame: once a touch
    has been seen the flag stays set as long as the scene effect does not run
    again, and whatever happened before, a frame ends with [isHoverable] at
    [false]. *)
Theorem touch_frames_disable_hover (E : Env) (evs : list Event) (hit : option UV) (w : World) :
  isTouchScreen (ix w) = true ->
  ~ In MotionToggled evs ->
  isTouchScreen (ix (run E evs w)) = true /\
  isHoverable (ix (step E (Frame hit) (run E evs w))) = false.
Proof.
  intros Ht Hno.
  assert (Ht' : isTouchScreen (ix (run E evs w)) = true).
  { apply (rtc_ind_r (fun w' => isTouchScreen (ix w') = true) w Ht)
      with (2 := stay_run E evs w Hno).
    intros w0 w1 _ H01 H0. now apply (touch_stay E w0 w1). }
  split; [exact Ht'|]. set (w1 := run E evs w) in *. cbn [step]. unfold render.
  assert (Hend : forall w2, isTouchScreen (ix w2) = true ->
            isHoverable (ix (if isTouchScreen (ix w2) && isHoverable (ix w2)
                             then setHoverable false w2 else w2)) = false).
  { intros w2 H2. rewrite H2. cbn [andb]. now destruct (isHoverable (ix w2)) eqn:Hh. }
  destruct (isHoverable (ix w1)) eqn:Hh; cbn [settled].
  - destruct hit as [uv|]; cbn [settled].
    + destruct (hoverable_updateMap E uv false w1) as [_ Hu].
      destruct (updateMap E uv false w1) as [w' b|w'] eqn:Hup; cbn [settled] in *.
      * apply Hend. destruct b; cbn [negb]; [congruence|].
        rewrite (proj2 (hoverable_clearHover w')). congruence.
      * exfalso. destruct (updateMap_cases E uv false w1)
          as [H|[H|[(p & _ & _ & _ & H)|(p & _ & _ & _ & H)]]]; congruence.
    + apply Hend. now rewrite (proj2 (hoverable_clearHover w1)).
  - rewrite Hh, andb_false_r. exact Hh.
Qed.

Lemma touch_frames_disable_hover_witness :
  isTouchScreen (ix (run demoEnv [ControlsEnd; TweenCompleted 0] demoTouched)) = true /\
  isHoverable (ix (step demoEnv (Frame (Some uvTestland))
                        (run demoEnv [ControlsEnd; TweenCompleted 0] demoTouched))) = false.
Proof.
  apply (touch_frames_disable_hover demoEnv [ControlsEnd; TweenCompleted 0]
           (Some uvTestland) demoTouched eq_refl).
  intros [H|[H|[]]]; discriminate H.
Defined.

(** ** The colour controls *)

(** X12. The colour controls of the GUI panel, with a 2D context. A new
    stroke or default colour redraws the map and the strokes canvas at the
    high resolution, every country in the new colour, and leaves the
    highlight and the click canvas as they are. A new hover colour leaves the
    map and the strokes canvas alone and redraws the highlight canvas for the
    hovered country and the click canvas for the clicked one, each with its
    path filled in the new colour. A new clicked colour changes [params]
    only: nothing is redrawn. *)
Theorem color_controls_redraw (E : Env) (v : string) (w : World) :
  reachable E w -> context2d E = true ->
  (let w' := step E (GuiStrokeColor v) w in
   colors w' = mkColors v (defaultColor (colors w)) (hoverColor (colors w))
                        (clickedColor (colors w)) /\
   ops (mapCanvas (tex w'))
     = flat_map (fun p => [Fill (defaultColor (colors w)) Params.hiResScalingFactor (d p);
                           Stroke v Params.strokeWidth Params.hiResScalingFactor (d p)])
                (svgPaths E) /\
   ops (strokesCanvas (tex w'))
     = flat_map (fun p => [Stroke v Params.strokeWidth Params.hiResScalingFactor (d p)])
                (svgPaths E) /\
   highlightCanvas (tex w') = highlightCanvas (tex w) /\
   clickCanvas (tex w') = clickCanvas (tex w)) /\
  (let w' := step E (GuiDefaultColor v) w in
   colors w' = mkColors (strokeColor (colors w)) v (hoverColor (colors w))
                        (clickedColor (colors w)) /\
   ops (mapCanvas (tex w'))
     = flat_map (fun p => [Fill v Params.hiResScalingFactor (d p);
                           Stroke (strokeColor (colors w)) Params.strokeWidth
                                  Params.hiResScalingFactor (d p)])
                (svgPaths E) /\
   ops (strokesCanvas (tex w'))
     = flat_map (fun p => [Stroke (strokeColor (colors w)) Params.strokeWidth
                                  Params.hiResScalingFactor (d p)])
                (svgPaths E) /\
   highlightCanvas (tex w') = highlightCanvas (tex w) /\
   clickCanvas (tex w') = clickCanvas (tex w)) /\
  (let w' := step E (GuiHoverColor v) w in
   colors w' = mkColors (strokeColor (colors w)) (defaultColor (colors w)) v
                        (clickedColor (colors w)) /\
   mapCanvas (tex w') = mapCanvas (tex w) /\
   strokesCanvas (tex w') = strokesCanvas (tex w) /\
   (if hoveredCountryIdx (ix w) =? -1
    then highlightCanvas (tex w') = highlightCanvas (tex w)
    else exists p, pathAt E (hoveredCountryIdx (ix w)) = Some p /\
           ops (highlightCanvas (tex w'))
           = [Fill v Params.lowResScalingFactor (d p);
              Stroke (strokeColor (colors w)) (Params.strokeWidth * 1)%float
                     Params.lowResScalingFactor (d p)]) /\
   (if clickedCountryIdx (ix w) =? -1
    then clickCanvas (tex w') = clickCanvas (tex w)
    else exists q, pathAt E (clickedCountryIdx (ix w)) = Some q /\
           ops (clickCanvas (tex w'))
           = [Fill v Params.lowResScalingFactor (d q);
              Stroke (clickedColor (colors w)) (Params.strokeWidth * 4)%float
                     Params.lowResScalingFactor (d q)])) /\
  (let w' := step E (GuiClickedColor v) w in
   colors w' = mkColors (strokeColor (colors w)) (defaultColor (colors w))
                        (hoverColor (colors w)) v /\
   tex w' = tex w /\ ix w' = ix w /\ meshes w' = meshes w /\ sched w' = sched w /\
   react w' = react w).
Proof.
  intros Hw Hctx. destruct (sceneOk_reachable E w Hw) as ([Hhov Hcl] & _).
  split; [|split; [|split]].
  - cbn zeta. cbn [step]. unfold guiStrokeColor, prepareHiResTextures, drawMap.
    rewrite Hctx. cbn. repeat split.
  - cbn zeta. cbn [step]. unfold guiDefaultColor, prepareHiResTextures, drawMap.
    rewrite Hctx. cbn. repeat split.
  - cbn zeta. cbn [step].
    destruct (guiHoverColor_same E v w) as (_ & _ & _ & _ & _ & _ & Hmap & Hstr).
    cbn zeta in Hmap, Hstr. split; [|split; [exact Hmap|split; [exact Hstr|]]].
    + unfold guiHoverColor, redrawHighlight, redrawClick, drawCountry.
      repeat case_match; simplify_eq/=; reflexivity.
    + assert (Hh : hoveredCountryIdx (ix w) = -1 \/
                   exists p, pathAt E (hoveredCountryIdx (ix w)) = Some p)
        by (destruct Hhov as [H|H]; [now left|right; now apply pathAt_inRange]).
      assert (Hc : clickedCountryIdx (ix w) = -1 \/
                   exists q, pathAt E (clickedCountryIdx (ix w)) = Some q)
        by (destruct Hcl as [H|H]; [now left|right; now apply pathAt_inRange]).
      unfold guiHoverColor, redrawHighlight, redrawClick, drawCountry. cbn.
      rewrite Hctx. cbn.
      destruct Hh as [Hh|[p Hp]], Hc as [Hc|[q Hq]].
      * repeat (first [rewrite Hh|rewrite Hc]; cbn). now split.
      * pose proof (proj2 (Z.eqb_neq _ _) (pathAt_not_minus1 E _ q Hq)) as Ec.
        repeat (first [rewrite Hh|rewrite Ec|rewrite Hq]; cbn).
        split; [reflexivity|]. now exists q.
      * pose proof (proj2 (Z.eqb_neq _ _) (pathAt_not_minus1 E _ p Hp)) as Eh.
        repeat (first [rewrite Eh|rewrite Hp|rewrite Hc]; cbn).
        split; [|reflexivity]. now exists p.
      * pose proof (proj2 (Z.eqb_neq _ _) (pathAt_not_minus1 E _ p Hp)) as Eh.
        pose proof (proj2 (Z.eqb_neq _ _) (pathAt_not_minus1 E _ q Hq)) as Ec.
        repeat (first [rewrite Eh|rewrite Hp|rewrite Ec|rewrite Hq]; cbn).
        split; [now exists p|now exists q].
  - cbn zeta. cbn [step]. unfold guiClickedColor. now cbn.
Qed.

Lemma color_controls_redraw_witness :
  mapCanvas (tex (step demoEnv (GuiHoverColor "#123456") demoClicked))
    = mapCanvas (tex demoClicked) /\
  tex (step demoEnv (GuiClickedColor "#123456") demoClicked) = tex demoClicked.
Proof.
  pose proof (color_controls_redraw demoEnv "#123456" demoClicked demoClicked_reachable
                eq_refl) as (_ & _ & H3 & H4).
  cbn zeta in H3, H4. split; [exact (proj1 (proj2 H3))|exact (proj1 (proj2 H4))].
Defined.
